(** * json-formatter: the path-addressable JSON document engine

    A shallow embedding of the pure core of the application:
    - the immutable tree updates of [src/App.tsx] ([updateAtPath],
      [deleteAtPath], [renameKeyAtPath]) and the JSON-pointer decoder
      ([decodeJsonPointerToken], [jsonPointerToPath]);
    - the pointer-driven edit handlers ([handleEditValue],
      [handleEditAtPointer]) and the cell editor of
      [src/components/JsonPathTable.tsx] ([commitCellEditor]);
    - the expression-context analyzer ([findLastTopLevelDot],
      [getCompletionContext]);
    - the nested decoder of [src/utils/decodeNestedJson.ts];
    - the structural edits ([addToObjectAtPath], [addToArrayAtPath]) with
      their handlers, and the undo and redo steps of [src/App.tsx];
    - the suggestion range, the sample collectors and the column list of
      [src/components/JsonPathTable.tsx], [pathsEqual] of
      [src/components/JsonViewer.tsx], and the stores of
      [src/utils/jsonPathStorage.ts] and [src/utils/historyStorage.ts].

    Conventions.  A string is the sequence of its code units (the embedding
    covers code units up to 255).  A JavaScript number is a binary64 value,
    kept as a [spec_float]; array indices and path indices are natural
    numbers ([N]).  A mapping is the ordered list of its own properties, in
    the order in which [Object.entries] enumerates them: array-index keys
    first, in ascending numeric order, then the other keys in the order of
    their creation.  The mappings of a document are ordinary objects,
    whose prototype is [Object.prototype]: [k in obj] also holds of the
    names in [objectPrototypeKeys], and an assignment to [__proto__] runs
    the inherited setter ([obj_assign]).  What [obj[k]] reads for an
    inherited name is a host object and no JSON value; the model reads
    [undefined] there, so that the walks of the model are those of the
    code on the paths that stay on own properties ([ownWalk]), as every
    path does that addresses a node of the document.

    The updates are given twice: as functions on plain trees, which is what
    a document is worth, and, in module [Ref], on trees whose containers
    carry the address of their cell, which is what [===] observes.  The
    second denotes the first ([erase_updateAtPath], [erase_deleteAtPath]). *)

From Stdlib Require Import String Ascii List ZArith NArith Bool Lia SpecFloat.
From Stdlib Require Import Sorted Permutation.
From Stdlib Require Import DecimalString DecimalN DecimalPos DecimalFacts.
Import ListNotations.

Local Open Scope string_scope.
Local Open Scope list_scope.

(* ================================================================== *)
(** * Part I: definitions *)
(* ================================================================== *)

(** ** JavaScript string primitives used by the sources *)

Module Js.

Definition length (s : string) : Z := Z.of_nat (String.length s).

(** [s[i]]: [None] stands for [undefined] (index out of range). *)
Definition charAt (s : string) (i : Z) : option ascii :=
  if (i <? 0)%Z then None else String.get (Z.to_nat i) s.

(** [s.startsWith(p)]. *)
Fixpoint startsWith (s p : string) {struct p} : bool :=
  match p with
  | EmptyString => true
  | String c p' =>
      match s with
      | EmptyString => false
      | String d s' => Ascii.eqb d c && startsWith s' p'
      end
  end.

(** Relative index resolution of [String.prototype.slice]. *)
Definition clampIndex (len i : Z) : Z :=
  if (i <? 0)%Z then Z.max (len + i) 0 else Z.min i len.

(** [s.slice(from, to)]. *)
Definition slice (s : string) (from to : Z) : string :=
  let len := length s in
  let a := clampIndex len from in
  let b := clampIndex len to in
  String.substring (Z.to_nat a) (Z.to_nat (Z.max (b - a) 0)) s.

(** [s.slice(from)]. *)
Definition sliceFrom (s : string) (from : Z) : string :=
  slice s from (length s).

(** White space and line terminators stripped by [trim]/[trimStart]
    (those representable in one byte: TAB, LF, VT, FF, CR, SP, NBSP). *)
Definition isWhiteSpace (c : ascii) : bool :=
  let n := N_of_ascii c in
  ((9 <=? n) && (n <=? 13) || (n =? 32) || (n =? 160))%N.

Fixpoint trimStart (s : string) : string :=
  match s with
  | EmptyString => EmptyString
  | String c s' => if isWhiteSpace c then trimStart s' else s
  end.

Definition reverse (s : string) : string :=
  string_of_list_ascii (rev (list_ascii_of_string s)).

Definition trimEnd (s : string) : string := reverse (trimStart (reverse s)).

Definition trim (s : string) : string := trimEnd (trimStart s).

(** [s.split(sep)] for a one-character separator. *)
Fixpoint split (sep : ascii) (s : string) : list string :=
  match s with
  | EmptyString => [EmptyString]
  | String c s' =>
      if Ascii.eqb c sep then EmptyString :: split sep s'
      else match split sep s' with
           | h :: t => String c h :: t
           | [] => [String c EmptyString]
           end
  end.

(** [s.replace(/ab/g, r)] for a two-character literal pattern [ab] and a
    one-character replacement: non-overlapping matches, left to right. *)
Fixpoint replaceAll2 (a b r : ascii) (s : string) : string :=
  match s with
  | EmptyString => EmptyString
  | String c s' =>
      match s' with
      | EmptyString => s
      | String d s'' =>
          if Ascii.eqb c a && Ascii.eqb d b
          then String r (replaceAll2 a b r s'')
          else String c (replaceAll2 a b r s')
      end
  end.

(** The characters that the sources name by escaped literals. *)
Definition doubleQuote : ascii := Eval cbv in ascii_of_N 34.
Definition singleQuote : ascii := Eval cbv in ascii_of_N 39.
Definition backslash : ascii := Eval cbv in ascii_of_N 92.

Definition isDigit (c : ascii) : bool :=
  let n := N_of_ascii c in ((48 <=? n) && (n <=? 57))%N.

Fixpoint allDigits (s : string) : bool :=
  match s with
  | EmptyString => true
  | String c s' => isDigit c && allDigits s'
  end.

(** The regular-expression test of [jsonPointerToPath]: the whole string
    is either the single digit 0, or a digit from 1 to 9 followed by any
    number of digits. *)
Definition isIndexToken (s : string) : bool :=
  match s with
  | EmptyString => false
  | String c s' =>
      if Ascii.eqb c "0" then String.eqb s' EmptyString
      else isDigit c && allDigits s'
  end.

(** [Number(s)] on a decimal numeral, as a natural number (the value of
    the numeral; the rounding to binary64, which sets in at [2^53], is not
    modelled). *)
Definition indexOfToken (s : string) : N :=
  match NilZero.uint_of_string s with
  | Some d => N.of_uint d
  | None => 0%N
  end.

(** [String(n)] for a natural number [n]: decimal, no leading zeros. *)
Definition decimal (n : N) : string := NilZero.string_of_uint (N.to_uint n).

End Js.

(** ** The value shape *)

#[local] Unset Elimination Schemes.

(** JSON values as JavaScript sees them, with [undefined] for what a lookup
    of a missing slot yields and for array holes. *)
Inductive value : Type :=
| VUndefined
| VNull
| VBool (b : bool)
| VNumber (n : spec_float)
| VString (s : string)
| VArray (items : list value)
| VObject (props : list (string * value)).

#[local] Set Elimination Schemes.

(** Structural induction that reaches the elements of arrays and the
    values of mappings. *)
Fixpoint value_ind (P : value -> Prop)
  (Hundef : P VUndefined) (Hnull : P VNull)
  (Hbool : forall b, P (VBool b)) (Hnum : forall n, P (VNumber n))
  (Hstr : forall s, P (VString s))
  (Harr : forall items, Forall P items -> P (VArray items))
  (Hobj : forall props, Forall (fun kv => P (snd kv)) props -> P (VObject props))
  (v : value) {struct v} : P v :=
  match v with
  | VUndefined => Hundef
  | VNull => Hnull
  | VBool b => Hbool b
  | VNumber n => Hnum n
  | VString s => Hstr s
  | VArray items =>
      Harr items
        ((fix all (l : list value) : Forall P l :=
            match l with
            | [] => Forall_nil P
            | x :: l' =>
                Forall_cons x
                  (value_ind P Hundef Hnull Hbool Hnum Hstr Harr Hobj x) (all l')
            end) items)
  | VObject props =>
      Hobj props
        ((fix all (l : list (string * value)) : Forall (fun kv => P (snd kv)) l :=
            match l with
            | [] => Forall_nil _
            | kv :: l' =>
                Forall_cons kv
                  (value_ind P Hundef Hnull Hbool Hnum Hstr Harr Hobj (snd kv))
                  (all l')
            end) props)
  end.

(** [JsonPathSegment = string | number]. *)
Inductive JsonPathSegment : Type :=
| Key (k : string)
| Index (i : N).

Definition path := list JsonPathSegment.

Definition isArray (v : value) : bool :=
  match v with VArray _ => true | _ => false end.

(** [typeof value === 'object' && value !== null && !Array.isArray(value)]. *)
Definition isPlainObject (v : value) : bool :=
  match v with VObject _ => true | _ => false end.

(** *** Arrays *)

Section Arrays.
Context {A : Type} (undef : A).

(** [arr[i]]. *)
Definition arr_get (items : list A) (i : N) : A :=
  nth (N.to_nat i) items undef.

Fixpoint list_set (items : list A) (n : nat) (x : A) : list A :=
  match n, items with
  | O, [] => [x]
  | O, _ :: rest => x :: rest
  | S n', [] => undef :: list_set [] n' x
  | S n', y :: rest => y :: list_set rest n' x
  end.

(** [arr[i] = x]: replaces the slot, or grows the array, the skipped
    slots reading as [undefined]. *)
Definition arr_set (items : list A) (i : N) (x : A) : list A :=
  list_set items (N.to_nat i) x.

(** [arr.splice(i, 1)] for [i] in range. *)
Definition arr_splice1 (items : list A) (i : N) : list A :=
  firstn (N.to_nat i) items ++ skipn (S (N.to_nat i)) items.

End Arrays.

(** *** Mappings: own properties in enumeration order *)

Section Props.
Context {A : Type} (undef : A).

(** [Object.prototype.hasOwnProperty.call(obj, k)]. *)
Fixpoint has_own (props : list (string * A)) (k : string) : bool :=
  match props with
  | [] => false
  | (k', _) :: rest => String.eqb k' k || has_own rest k
  end.

(** [obj[k]] for a key that is an own key of [obj] or no name that [obj]
    inherits. *)
Fixpoint obj_get (props : list (string * A)) (k : string) : A :=
  match props with
  | [] => undef
  | (k', v) :: rest => if String.eqb k' k then v else obj_get rest k
  end.

(** An array index in the sense of the language: a canonical numeral
    below [2^32 - 1].  Such keys are enumerated first, in ascending
    numeric order; the other keys follow in creation order. *)
Definition isArrayIndex (k : string) : bool :=
  Js.isIndexToken k && (Js.indexOfToken k <=? 4294967294)%N.

(** [before k' k]: an existing key [k'] stays ahead of a new key [k]. *)
Definition before (k' k : string) : bool :=
  negb (isArrayIndex k &&
        (negb (isArrayIndex k') || (Js.indexOfToken k <? Js.indexOfToken k')%N)).

Fixpoint obj_replace (props : list (string * A)) (k : string) (v : A)
  : list (string * A) :=
  match props with
  | [] => []
  | (k', v') :: rest =>
      if String.eqb k' k then (k, v) :: rest
      else (k', v') :: obj_replace rest k v
  end.

Fixpoint obj_insert (props : list (string * A)) (k : string) (v : A)
  : list (string * A) :=
  match props with
  | [] => [(k, v)]
  | (k', v') :: rest =>
      if before k' k then (k', v') :: obj_insert rest k v
      else (k, v) :: props
  end.

(** [obj[k] = v] on a fresh copy, also [{...obj, [k]: v}]: an own key
    keeps its place, a new key is created at its place in the
    enumeration order. *)
Definition obj_set (props : list (string * A)) (k : string) (v : A)
  : list (string * A) :=
  if has_own props k then obj_replace props k v else obj_insert props k v.

(** [delete obj[k]]. *)
Fixpoint obj_delete (props : list (string * A)) (k : string)
  : list (string * A) :=
  match props with
  | [] => []
  | (k', v') :: rest =>
      if String.eqb k' k then rest else (k', v') :: obj_delete rest k
  end.

End Props.

(** The same keys, each value transformed. *)
Definition mapValues {A C : Type} (f : A -> C) (props : list (string * A))
  : list (string * C) :=
  map (fun kv => (fst kv, f (snd kv))) props.

(** *** Inherited properties *)

(** The names of the properties of [Object.prototype]. *)
Definition objectPrototypeKeys : list string :=
  ["constructor"; "__defineGetter__"; "__defineSetter__"; "hasOwnProperty";
   "__lookupGetter__"; "__lookupSetter__"; "isPrototypeOf";
   "propertyIsEnumerable"; "toString"; "valueOf"; "__proto__";
   "toLocaleString"].

Definition inherited (k : string) : bool :=
  existsb (String.eqb k) objectPrototypeKeys.

(** [k in obj]: an own or an inherited property. *)
Definition has_in {A : Type} (props : list (string * A)) (k : string) : bool :=
  has_own props k || inherited k.

(** The assignment [obj[k] = v], as opposed to a key of an object
    literal.  On [__proto__], unless the object has an own property of
    that name, it runs the setter that [Object.prototype] provides, which
    creates no own property (it replaces the prototype when [v] is an
    object or [null]).  The other inherited properties are writable data
    properties, which an assignment shadows by an own property. *)
Definition obj_assign {A : Type} (props : list (string * A)) (k : string)
  (v : A) : list (string * A) :=
  if String.eqb k "__proto__" && negb (has_own props k) then props
  else obj_set props k v.

(** ** DocumentModel ([src/App.tsx]) *)

(** Modelled from the spec: [read(value, path)] has no counterpart in the
    sources.  "Walks segments; a Key segment against a non-mapping, an Index
    segment against a non-list, or an out-of-range index yields
    [undefined]; does not throw." *)
Fixpoint read (v : value) (p : path) : value :=
  match p with
  | [] => v
  | seg :: rest =>
      match v, seg with
      | VArray items, Index i => read (arr_get VUndefined items i) rest
      | VObject props, Key k => read (obj_get VUndefined props k) rest
      | _, _ => VUndefined
      end
  end.

Fixpoint updateAtPath (current : value) (p : path) (nextValue : value) : value :=
  match p with
  | [] => nextValue
  | head :: rest =>
      match current, head with
      | VArray items, Index i =>
          VArray (arr_set VUndefined items i
                    (updateAtPath (arr_get VUndefined items i) rest nextValue))
      | VObject obj, Key k =>
          VObject (obj_set obj k
                     (updateAtPath (obj_get VUndefined obj k) rest nextValue))
      | _, _ => current
      end
  end.

Fixpoint addToObjectAtPath (current : value) (objectPath : path) (key : string)
  (v : value) : value :=
  match objectPath with
  | [] =>
      match current with
      | VObject obj =>
          if has_own obj key then current else VObject (obj_set obj key v)
      | _ => current
      end
  | head :: rest =>
      match current, head with
      | VArray items, Index i =>
          VArray (arr_set VUndefined items i
                    (addToObjectAtPath (arr_get VUndefined items i) rest key v))
      | VObject obj, Key k =>
          VObject (obj_set obj k
                     (addToObjectAtPath (obj_get VUndefined obj k) rest key v))
      | _, _ => current
      end
  end.

Fixpoint addToArrayAtPath (current : value) (arrayPath : path) (v : value)
  : value :=
  match arrayPath with
  | [] =>
      match current with
      | VArray items => VArray (items ++ [v])
      | _ => current
      end
  | head :: rest =>
      match current, head with
      | VArray items, Index i =>
          VArray (arr_set VUndefined items i
                    (addToArrayAtPath (arr_get VUndefined items i) rest v))
      | VObject obj, Key k =>
          VObject (obj_set obj k
                     (addToArrayAtPath (obj_get VUndefined obj k) rest v))
      | _, _ => current
      end
  end.

Fixpoint deleteAtPath (current : value) (p : path) : value :=
  match p with
  | [] => current
  | head :: rest =>
      match rest with
      | [] =>
          match current, head with
          | VArray items, Index i =>
              if (i <? 0)%N || (N.of_nat (List.length items) <=? i)%N
              then current
              else VArray (arr_splice1 items i)
          | VObject obj, Key k =>
              if negb (has_own obj k) then current
              else VObject (obj_delete obj k)
          | _, _ => current
          end
      | _ :: _ =>
          match current, head with
          | VArray items, Index i =>
              VArray (arr_set VUndefined items i
                        (deleteAtPath (arr_get VUndefined items i) rest))
          | VObject obj, Key k =>
              VObject (obj_set obj k
                         (deleteAtPath (obj_get VUndefined obj k) rest))
          | _, _ => current
          end
      end
  end.

(** The reducer that [renameKeyAtPath] folds over [parentPath]. *)
Definition renameTargetStep (acc : value) (seg : JsonPathSegment) : value :=
  match acc with
  | VNull | VUndefined => acc
  | _ =>
      match seg, acc with
      | Index i, VArray items => arr_get VUndefined items i
      | Key k, VObject obj => obj_get VUndefined obj k
      | _, _ => acc
      end
  end.

(** The loop over [Object.entries(obj)] that rebuilds the mapping in
    [next = {}], by the assignments [next[newKey] = v] and [next[k] = v]. *)
Definition renameEntries {A : Type} (oldKey newKey : string)
  (obj : list (string * A)) : list (string * A) :=
  fold_left
    (fun next kv =>
       if String.eqb (fst kv) oldKey then obj_assign next newKey (snd kv)
       else obj_assign next (fst kv) (snd kv))
    obj [].

(** The inner [patchObject]; [obj] is the mapping found by the reducer.
    The copy of a mapping on the way takes the patched child by the
    assignment [nextObj[head] = ...]. *)
Fixpoint patchObject (oldKey newKey : string) (obj : list (string * value))
  (node : value) (pathToNode : path) : value :=
  match pathToNode with
  | [] => VObject (renameEntries oldKey newKey obj)
  | head :: rest =>
      match node, head with
      | VArray items, Index i =>
          VArray (arr_set VUndefined items i
                    (patchObject oldKey newKey obj
                       (arr_get VUndefined items i) rest))
      | VObject props, Key k =>
          VObject (obj_assign props k
                     (patchObject oldKey newKey obj
                        (obj_get VUndefined props k) rest))
      | _, _ => node
      end
  end.

(** The two tests on the keys are [oldKey in obj] and [newKey in obj]. *)
Definition renameKeyAtPath (current : value) (parentPath : path)
  (oldKey newKey : string) : value :=
  let target := fold_left renameTargetStep parentPath current in
  match target with
  | VObject obj =>
      if negb (has_in obj oldKey) then current
      else if has_in obj newKey then current
      else patchObject oldKey newKey obj current parentPath
  | _ => current
  end.

(** ** PathCodec ([src/App.tsx]) *)

Definition decodeJsonPointerToken (token : string) : string :=
  Js.replaceAll2 "~" "0" "~" (Js.replaceAll2 "~" "1" "/" token).

(** [current[idx]] and [current[part]] on a value that has been tested to
    be a list, respectively a mapping. *)
Definition elementOf (v : value) (i : N) : value :=
  match v with
  | VArray items => arr_get VUndefined items i
  | _ => VUndefined
  end.

Definition propertyOf (v : value) (k : string) : value :=
  match v with
  | VObject props => obj_get VUndefined props k
  | _ => VUndefined
  end.

(** The [for (const part of parts)] loop; [acc] is [path], grown by [push]. *)
Fixpoint pointerWalk (parts : list string) (current : value) (acc : path) : path :=
  match parts with
  | [] => acc
  | part :: parts' =>
      let isIndex := Js.isIndexToken part in
      if isArray current && isIndex then
        let idx := Js.indexOfToken part in
        pointerWalk parts' (elementOf current idx) (acc ++ [Index idx])
      else
        pointerWalk parts'
          (if isPlainObject current then propertyOf current part else VUndefined)
          (acc ++ [Key part])
  end.

(** [None] is the [null] result. *)
Definition jsonPointerToPath (pointer : string) (root : value) : option path :=
  if String.eqb pointer "" then Some []
  else if negb (Js.startsWith pointer "/") then None
  else
    let parts := map decodeJsonPointerToken (tl (Js.split "/" pointer)) in
    Some (pointerWalk parts root []).

(** Modelled from the spec: the encoder [encode(path)] has no counterpart in
    the sources (pointers are produced by the external evaluator).  "For
    each segment, stringify (integer segments as decimal, no leading zeros
    except 0 itself) and escape per the scheme above (escape [~] to [~0],
    [/] to [~1]); join with [/]; prefix with [/]; empty path gives the
    empty string."  First the escaping of one segment. *)
Fixpoint escapeToken (s : string) : string :=
  match s with
  | EmptyString => EmptyString
  | String c s' =>
      if Ascii.eqb c "~" then String "~" (String "0" (escapeToken s'))
      else if Ascii.eqb c "/" then String "~" (String "1" (escapeToken s'))
      else String c (escapeToken s')
  end.

(** Modelled from the spec: the text of a segment before escaping, "integer
    segments as decimal". *)
Definition segmentToken (seg : JsonPathSegment) : string :=
  match seg with
  | Key k => k
  | Index i => Js.decimal i
  end.

(** Modelled from the spec: [encode(path)], each escaped segment behind its
    slash. *)
Fixpoint encode (p : path) : string :=
  match p with
  | [] => ""
  | seg :: rest => "/" ++ escapeToken (segmentToken seg) ++ encode rest
  end.

(** ** Builtins taken as parameters

    [JSON.parse] ([None] when it throws), [JSON.stringify(v, null, 2)]
    ([None] when it throws), [Number(s)] and [String(n)] on numbers. *)

Record Builtins : Type := {
  JSON_parse : string -> option value;
  JSON_stringify : value -> option string;
  Number : string -> spec_float;
  String_of_number : spec_float -> string
}.

(** [Number.isFinite]. *)
Definition isFinite (n : spec_float) : bool :=
  match n with
  | S754_zero _ | S754_finite _ _ _ => true
  | S754_infinity _ | S754_nan => false
  end.

(** ** EditReconciler: the edit handlers of [App] *)

Record AppState : Type := {
  parsed : value;             (* [null] while no document is loaded *)
  error : option string;
  input : string;
  undoStack : list string;
  redoStack : list string
}.

Definition isNull (v : value) : bool :=
  match v with VNull => true | _ => false end.

(** Truthiness of [error : string | null]. *)
Definition truthy (e : option string) : bool :=
  match e with
  | Some s => negb (String.eqb s "")
  | None => false
  end.

Definition pushUndoSnapshot (st : AppState) : AppState :=
  let pushed := undoStack st ++ [input st] in
  {| parsed := parsed st;
     error := error st;
     input := input st;
     undoStack := if (100 <? List.length pushed)%nat then tl pushed else pushed;
     redoStack := [] |}.

Definition handleEditValue (B : Builtins) (p : path) (nextValue : value)
  (st : AppState) : AppState :=
  if isNull (parsed st) || truthy (error st) then st
  else
    let st1 := pushUndoSnapshot st in
    let updated := updateAtPath (parsed st) p nextValue in
    {| parsed := updated;
       error := None;
       input := match JSON_stringify B updated with
                | Some text => text
                | None => input st1
                end;
       undoStack := undoStack st1;
       redoStack := redoStack st1 |}.

Definition handleEditAtPointer (B : Builtins) (pointer : string)
  (nextValue : value) (st : AppState) : AppState :=
  if isNull (parsed st) then st
  else
    match jsonPointerToPath pointer (parsed st) with
    | None => st
    | Some p => handleEditValue B p nextValue st
    end.

(** [stack.push(x)] followed by [if (stack.length > 100) stack.shift()]. *)
Definition pushCapped (stack : list string) (x : string) : list string :=
  let pushed := stack ++ [x] in
  if (100 <? List.length pushed)%nat then tl pushed else pushed.

(** The undo and the redo branch of the [keydown] handler of [App], past
    the tests on the key and on the focused element.  [stack.pop()] takes
    the last entry.  The handler calls [setInput] alone: the document is
    parsed again from the new text by a later effect, which is not part of
    the handler. *)
Definition undoStep (st : AppState) : AppState :=
  match undoStack st with
  | [] => st
  | _ :: _ =>
      {| parsed := parsed st;
         error := error st;
         input := last (undoStack st) "";
         undoStack := removelast (undoStack st);
         redoStack := pushCapped (redoStack st) (input st) |}
  end.

Definition redoStep (st : AppState) : AppState :=
  match redoStack st with
  | [] => st
  | _ :: _ =>
      {| parsed := parsed st;
         error := error st;
         input := last (redoStack st) "";
         undoStack := pushCapped (undoStack st) (input st);
         redoStack := removelast (redoStack st) |}
  end.

(** ** The cell editor of [JsonPathTable] *)

Record CellEditor : Type := {
  pointer : string;
  originalValue : value;
  text : string
}.

(** What one call of [commitCellEditor] does. *)
Inductive CommitOutcome : Type :=
| Commit (ptr : string) (nextValue : value)
    (* [onEditAtPointer(ptr, nextValue); closeCellEditor(true)] *)
| Invalid (message : string)
    (* the editor stays open and shows [t(message)]; nothing is committed *)
| Idle.
    (* no editor is open, or no callback is given: nothing happens *)

(** [onEditAtPointer] tells whether the callback of that name is given;
    [cellEditor] is the editor state, [None] while no editor is open. *)
Definition commitCellEditor (B : Builtins) (onEditAtPointer : bool)
  (cellEditor : option CellEditor) : CommitOutcome :=
  match cellEditor with
  | None => Idle
  | Some ed =>
      if negb onEditAtPointer then Idle else
      let ptr := pointer ed in
      let trimmed := Js.trim (text ed) in
      let loose :=
        (* null/object/array/unknown: try JSON first, then loose parsing *)
        match (if String.eqb trimmed "" then None else JSON_parse B trimmed) with
        | Some parsedText => Commit ptr parsedText
        | None =>
            if String.eqb trimmed "" || String.eqb trimmed "null"
            then Commit ptr VNull
            else if String.eqb trimmed "true" then Commit ptr (VBool true)
            else if String.eqb trimmed "false" then Commit ptr (VBool false)
            else
              let maybeNum := Number B trimmed in
              if negb (String.eqb trimmed "") && isFinite maybeNum
                 && String.eqb (String_of_number B maybeNum) trimmed
              then Commit ptr (VNumber maybeNum)
              else Commit ptr (VString (text ed))
        end in
      match originalValue ed with
      | VString _ => Commit ptr (VString (text ed))
      | VNumber _ =>
          if String.eqb trimmed "" || String.eqb trimmed "null"
          then Commit ptr VNull
          else
            let num := Number B trimmed in
            if negb (isFinite num) then Invalid "jsonViewer.error.invalidNumber"
            else Commit ptr (VNumber num)
      | VBool _ =>
          if String.eqb trimmed "true" then Commit ptr (VBool true)
          else if String.eqb trimmed "false" then Commit ptr (VBool false)
          else if String.eqb trimmed "" || String.eqb trimmed "null"
          then Commit ptr VNull
          else loose
      | _ => loose
      end
  end.

(** The effect of a commit on the application: [onEditAtPointer] is
    [handleEditAtPointer]. *)
Definition applyOutcome (B : Builtins) (o : CommitOutcome) (st : AppState)
  : AppState :=
  match o with
  | Commit ptr nextValue => handleEditAtPointer B ptr nextValue st
  | Invalid _ | Idle => st
  end.

(** ** The nested decoder ([src/utils/decodeNestedJson.ts]) *)

Definition looksLikeNestedJsonString (s : string) : bool :=
  match Js.trim s with
  | EmptyString => false
  | String ch _ =>
      Ascii.eqb ch "{" || Ascii.eqb ch "[" || Ascii.eqb ch Js.doubleQuote
  end.

(** [None] is the [undefined] result. *)
Definition tryParseJson (B : Builtins) (s : string) : option value :=
  if negb (looksLikeNestedJsonString s) then None else JSON_parse B s.

(** Monadic map over the [option] of a bounded recursion. *)
Fixpoint mapM {A C : Type} (f : A -> option C) (l : list A) : option (list C) :=
  match l with
  | [] => Some []
  | x :: l' =>
      match f x, mapM f l' with
      | Some y, Some ys => Some (y :: ys)
      | _, _ => None
      end
  end.

(** The loop [for (const [key, v] of Object.entries(value))
    result[key] = decodeValue(v)], started from [result = {}]. *)
Definition buildObject (entries : list (string * value)) : list (string * value) :=
  fold_left (fun result kv => obj_assign result (fst kv) (snd kv)) entries [].

(** [decodeValue], with a bound on the depth of the recursion ([None] when
    the bound is reached; [decodeValue] below supplies a bound that is
    never reached). *)
Fixpoint decodeValueN (B : Builtins) (fuel : nat) (v : value) : option value :=
  match fuel with
  | O => None
  | S fuel' =>
      match v with
      | VString s =>
          match tryParseJson B s with
          | None => Some v
          | Some parsedText => decodeValueN B fuel' parsedText
          end
      | VArray items =>
          option_map VArray (mapM (decodeValueN B fuel') items)
      | VObject props =>
          option_map (fun entries => VObject (buildObject entries))
            (mapM (fun kv => option_map (pair (fst kv))
                               (decodeValueN B fuel' (snd kv))) props)
      | _ => Some v
      end
  end.

(** The size of the text that a value can still expand: the code units of
    its strings, one for each container. *)
Fixpoint weight (v : value) : nat :=
  match v with
  | VString s => String.length s
  | VArray items => S (list_sum (map weight items))
  | VObject props => S (list_sum (map (fun kv => weight (snd kv)) props))
  | _ => O
  end.

Definition decodeValue (B : Builtins) (v : value) : option value :=
  decodeValueN B (S (weight v)) v.

(** The outcomes of [decodeNestedJson]: a value, the exception of that
    name, or the bound of the recursion reached (which does not happen, see
    [decodeNestedJson_terminates]). *)
Inductive DecodeResult : Type :=
| Decoded (v : value)
| NestedJsonError
| Diverged.

Definition decodeNestedJson (B : Builtins) (input : string) : DecodeResult :=
  match JSON_parse B input with
  | None => NestedJsonError
  | Some root =>
      match decodeValue B root with
      | Some v => Decoded v
      | None => Diverged
      end
  end.

(** ** ExpressionContextAnalyzer ([src/components/JsonPathTable.tsx]) *)

Definition isChar (c : ascii) (o : option ascii) : bool :=
  match o with
  | Some d => Ascii.eqb d c
  | None => false
  end.

(** [prefix[i - 1]] when [i > 0], the empty string (here [None]) otherwise. *)
Definition prevChar (s : string) (i : Z) : option ascii :=
  if (0 <? i)%Z then Js.charAt s (i - 1) else None.

(** The backward loop of [findLastTopLevelDot]: [n] iterations remain, the
    next one at [i = n - 1]. *)
Fixpoint findLastTopLevelDotFrom (s : string) (n : nat) (bracketDepth : Z)
  (quote : option ascii) : Z :=
  match n with
  | O => (-1)%Z
  | S n' =>
      let i := Z.of_nat n' in
      let ch := Js.charAt s i in
      let prev := prevChar s i in
      match quote with
      | Some q =>
          if isChar q ch && negb (isChar Js.backslash prev)
          then findLastTopLevelDotFrom s n' bracketDepth None
          else findLastTopLevelDotFrom s n' bracketDepth quote
      | None =>
          if isChar Js.doubleQuote ch || isChar Js.singleQuote ch then
            if negb (isChar Js.backslash prev)
            then findLastTopLevelDotFrom s n' bracketDepth ch
            else findLastTopLevelDotFrom s n' bracketDepth None
          else if isChar "]" ch then
            findLastTopLevelDotFrom s n' (bracketDepth + 1)%Z None
          else if isChar "[" ch then
            findLastTopLevelDotFrom s n' (Z.max 0 (bracketDepth - 1)) None
          else if (0 <? bracketDepth)%Z then
            findLastTopLevelDotFrom s n' bracketDepth None
          else if isChar "." ch then i
          else findLastTopLevelDotFrom s n' bracketDepth None
      end
  end.

Definition findLastTopLevelDot (s : string) : Z :=
  findLastTopLevelDotFrom s (String.length s) 0%Z None.

(** The forward loop of [getCompletionContext]: [rest] is the text from
    index [i] on, [prev] the character before it. *)
Fixpoint lastOpenBracketFrom (rest : string) (i : Z) (prev : option ascii)
  (lastBracket : Z) (inQuote : option ascii) : Z :=
  match rest with
  | EmptyString => lastBracket
  | String ch rest' =>
      let next := lastOpenBracketFrom rest' (i + 1)%Z (Some ch) in
      match inQuote with
      | Some q =>
          if Ascii.eqb ch q && negb (isChar Js.backslash prev)
          then next lastBracket None
          else next lastBracket inQuote
      | None =>
          if (Ascii.eqb ch Js.doubleQuote || Ascii.eqb ch Js.singleQuote)
             && negb (isChar Js.backslash prev)
          then next lastBracket (Some ch)
          else if Ascii.eqb ch "[" then next i None
          else if Ascii.eqb ch "]" then next (-1)%Z None
          else next lastBracket None
      end
  end.

Definition lastOpenBracket (s : string) : Z :=
  lastOpenBracketFrom s 0%Z None (-1)%Z None.

Record Range : Type := { range_start : Z; range_end : Z }.

Inductive CompletionContext : Type :=
| CtxNone (replace : Range)
| CtxDot (base partial : string) (replace : Range)
| CtxDescendant (base partial : string) (replace : Range)
| CtxBracketString (base partial : string) (replace : Range)
| CtxBracketIndex (base partial : string) (replace : Range)
| CtxRoot (replace : Range).

Definition replaceOf (c : CompletionContext) : Range :=
  match c with
  | CtxNone r | CtxRoot r => r
  | CtxDot _ _ r | CtxDescendant _ _ r
  | CtxBracketString _ _ r | CtxBracketIndex _ _ r => r
  end.

Definition getCompletionContext (expr : string) (cursor : Z) : CompletionContext :=
  let safeCursor := Z.max 0 (Z.min cursor (Js.length expr)) in
  let prefix := Js.slice expr 0 safeCursor in
  if negb (Js.startsWith prefix "$") then
    CtxRoot {| range_start := 0; range_end := safeCursor |}
  else
    let lastDot := findLastTopLevelDot prefix in
    if (1 <=? lastDot)%Z then
      if isChar "." (Js.charAt prefix (lastDot - 1)) then
        let base := Js.slice prefix 0 (lastDot + 1) in
        let partial := Js.sliceFrom prefix (lastDot + 1) in
        CtxDescendant base partial
          {| range_start := Js.length base; range_end := safeCursor |}
      else
        let base := Js.slice prefix 0 lastDot in
        let partial := Js.sliceFrom prefix (lastDot + 1) in
        CtxDot base partial {| range_start := lastDot; range_end := safeCursor |}
    else
      let lastBracket := lastOpenBracket prefix in
      if (0 <=? lastBracket)%Z then
        let base := Js.slice prefix 0 lastBracket in
        let after := Js.sliceFrom prefix (lastBracket + 1) in
        let afterTrim := Js.trimStart after in
        if Js.startsWith afterTrim "?(" || Js.startsWith afterTrim "(" then
          CtxNone {| range_start := safeCursor; range_end := safeCursor |}
        else if Js.startsWith after (String Js.singleQuote "")
                || Js.startsWith after (String Js.doubleQuote "") then
          CtxBracketString base (Js.sliceFrom after 1)
            {| range_start := lastBracket; range_end := safeCursor |}
        else
          CtxBracketIndex base after
            {| range_start := lastBracket; range_end := safeCursor |}
      else
        CtxRoot {| range_start := 0; range_end := safeCursor |}.

(** ** Suggestions ([src/components/JsonPathTable.tsx]) *)

Definition isIdentifierStart (c : ascii) : bool :=
  let n := N_of_ascii c in
  ((65 <=? n) && (n <=? 90) || (97 <=? n) && (n <=? 122)
   || (n =? 95) || (n =? 36))%N.

Fixpoint allIdentifierParts (s : string) : bool :=
  match s with
  | EmptyString => true
  | String c s' => (isIdentifierStart c || Js.isDigit c) && allIdentifierParts s'
  end.

(** The regular-expression test of [isIdentifierKey]: a letter, an
    underscore or a dollar sign, followed by any number of letters, digits,
    underscores and dollar signs, and nothing else. *)
Definition isIdentifierKey (key : string) : bool :=
  match key with
  | EmptyString => false
  | String c s' => isIdentifierStart c && allIdentifierParts s'
  end.

(** The [replace] range that [computeSuggestions] returns.  [tryEval]
    tells whether the external evaluator gives a result for a base
    expression (it gives none when it throws): without a result the
    suggestions are those of the root, which replace the whole text. *)
Definition computeSuggestions_replace (tryEval : string -> bool)
  (expr : string) (cursor : Z) : Range :=
  let safeCursor := Z.max 0 (Z.min cursor (Js.length expr)) in
  let whole := {| range_start := 0; range_end := Js.length expr |} in
  match getCompletionContext expr safeCursor with
  | CtxRoot _ => whole
  | CtxNone replace => replace
  | CtxDescendant _ _ replace => replace
  | CtxDot base _ replace
  | CtxBracketString base _ replace
  | CtxBracketIndex base _ replace =>
      if tryEval base then replace else whole
  end.

(** The text that [applySuggestion] stores for the column: [value] is
    [item.value], [cursor] the position of the caret. *)
Definition applySuggestion (tryEval : string -> bool) (current : string)
  (cursor : Z) (value : string) : string :=
  let replace := computeSuggestions_replace tryEval current cursor in
  (Js.slice current 0 (range_start replace) ++ value
   ++ Js.sliceFrom current (range_end replace))%string.

Definition collectArraySampleLength (matches : list value) : nat :=
  fold_left
    (fun max m =>
       match m with
       | VArray items => Nat.max max (List.length items)
       | _ => max
       end)
    matches O.

Section DescendantKeys.
Context {Sample : Type} (toSample : value -> Sample).

(** The loop over [Object.entries(cur)] on the map [out]: a key keeps the
    sample of its first occurrence.  A [Map] enumerates its keys in
    insertion order. *)
Definition noteEntries (props : list (string * value))
  (out : list (string * Sample)) : list (string * Sample) :=
  fold_left
    (fun o kv =>
       if has_own o (fst kv) then o else o ++ [(fst kv, toSample (snd kv))])
    props out.

(** The [while (queue.length && seen < maxNodes)] loop; [budget] is
    [maxNodes - seen]. *)
Fixpoint collectLoop (budget : nat) (queue : list value)
  (out : list (string * Sample)) : list (string * Sample) :=
  match budget with
  | O => out
  | S budget' =>
      match queue with
      | [] => out
      | cur :: rest =>
          match cur with
          | VArray items => collectLoop budget' (rest ++ items) out
          | VObject props =>
              collectLoop budget' (rest ++ map snd props) (noteEntries props out)
          | _ => collectLoop budget' rest out
          end
      end
  end.

Definition collectDescendantKeySamples (root : value) (maxNodes : nat)
  : list (string * Sample) :=
  collectLoop maxNodes [root] [].

End DescendantKeys.

(** ** The columns of the table ([src/components/JsonPathTable.tsx],
    [src/utils/jsonPathStorage.ts]) *)

Module Columns.

Record JsonPathColumnStored : Type := { name : string; expr : string }.

Definition defaultColumns : list JsonPathColumnStored :=
  [{| name := ""; expr := "$" |}].

(** [arr.splice(start, deleteCount, ...items)], as it leaves [arr]: a
    negative [start] counts from the end, and both ends are clamped. *)
Definition splice {A : Type} (arr : list A) (start : Z) (deleteCount : nat)
  (items : list A) : list A :=
  let len := Z.of_nat (List.length arr) in
  let from :=
    Z.to_nat (if (start <? 0)%Z then Z.max (len + start) 0 else Z.min start len) in
  firstn from arr ++ items ++ skipn (from + deleteCount) arr.

Definition addColumn (prev : list JsonPathColumnStored)
  : list JsonPathColumnStored :=
  prev ++ defaultColumns.

Definition removeColumn (index : Z) (prev : list JsonPathColumnStored)
  : list JsonPathColumnStored :=
  if (List.length prev <=? 1)%nat then prev else splice prev index 1 [].

(** [item] is the element that the first [splice] removes; the guards make
    sure that there is one. *)
Definition moveColumn (fromIndex toIndex : Z) (prev : list JsonPathColumnStored)
  : list JsonPathColumnStored :=
  if (fromIndex =? toIndex)%Z then prev
  else if (fromIndex <? 0)%Z || (toIndex <? 0)%Z then prev
  else if (Z.of_nat (List.length prev) <=? fromIndex)%Z
          || (Z.of_nat (List.length prev) <=? toIndex)%Z then prev
  else
    match nth_error prev (Z.to_nat fromIndex) with
    | Some item => splice (splice prev fromIndex 1 []) toIndex 0 [item]
    | None => prev
    end.

Definition isString (v : value) : bool :=
  match v with VString _ => true | _ => false end.

Definition isStringArray (v : value) : bool :=
  match v with
  | VArray items => forallb isString items
  | _ => false
  end.

Definition isColumnsArray (v : value) : bool :=
  match v with
  | VArray items =>
      forallb
        (fun item =>
           match item with
           | VObject props =>
               has_own props "name" && has_own props "expr"
               && isString (obj_get VUndefined props "name")
               && isString (obj_get VUndefined props "expr")
           | _ => false
           end)
        items
  | _ => false
  end.

(** The text of a value that has been tested to be a string; the empty
    string takes the place of [null] and [undefined]. *)
Definition textOf (v : value) : string :=
  match v with VString s => s | _ => "" end.

Definition itemsOf (v : value) : list value :=
  match v with VArray items => items | _ => [] end.

(** [hasWindow] tells whether [window] is defined; [raw] is what
    [localStorage.getItem] returns, [None] for [null].  An exception of
    [getItem] or of [JSON.parse] ends in the same default. *)
Definition loadJsonPathColumns (B : Builtins) (hasWindow : bool)
  (raw : option string) : list JsonPathColumnStored :=
  if negb hasWindow then defaultColumns
  else
    match raw with
    | None => defaultColumns
    | Some text =>
        if String.eqb text "" then defaultColumns
        else
          match JSON_parse B text with
          | None => defaultColumns
          | Some parsedText =>
              if isStringArray parsedText then
                let migrated :=
                  map (fun e => {| name := ""; expr := textOf e |})
                    (itemsOf parsedText) in
                match migrated with
                | [] => defaultColumns
                | _ :: _ => migrated
                end
              else if negb (isColumnsArray parsedText) then defaultColumns
              else
                let cleaned :=
                  map (fun c =>
                         {| name := Js.trim (textOf (propertyOf c "name"));
                            expr := Js.trim (textOf (propertyOf c "expr")) |})
                    (itemsOf parsedText) in
                match cleaned with
                | [] => defaultColumns
                | _ :: _ => cleaned
                end
          end
    end.

End Columns.

(** ** The history of formatted inputs ([src/utils/historyStorage.ts]) *)

Module History.

Definition MAX_RECORDS : nat := 100.

Definition isNumber (v : value) : bool :=
  match v with VNumber _ => true | _ => false end.

(** The type guard of [safeParse]: an object whose [id] and [input] are
    strings and whose [createdAt] is a number. *)
Definition isFormatRecord (item : value) : bool :=
  match item with
  | VObject props =>
      Columns.isString (obj_get VUndefined props "id")
      && isNumber (obj_get VUndefined props "createdAt")
      && Columns.isString (obj_get VUndefined props "input")
  | _ => false
  end.

Definition safeParse (B : Builtins) (raw : option string) : list value :=
  match raw with
  | None => []
  | Some text =>
      if String.eqb text "" then []
      else
        match JSON_parse B text with
        | Some (VArray items) => firstn MAX_RECORDS (filter isFormatRecord items)
        | _ => []
        end
  end.

Definition loadHistory (B : Builtins) (hasWindow : bool) (raw : option string)
  : list value :=
  if negb hasWindow then [] else safeParse B raw.

(** The record that [addRecord] builds, [id] standing for the text made of
    the time and of a random suffix. *)
Definition newRecord (id : string) (now : spec_float) (input : string) : value :=
  VObject [("id", VString id); ("createdAt", VNumber now);
           ("input", VString input)].

(** [r.input !== input] on a record of the history. *)
Definition otherInput (input : string) (r : value) : bool :=
  negb (String.eqb (Columns.textOf (propertyOf r "input")) input).

(** The list that [addRecord] returns, which is also the list that it
    stores; [raw] is the stored text that [loadHistory] reads. *)
Definition addRecord (B : Builtins) (hasWindow : bool) (raw : option string)
  (id : string) (now : spec_float) (input : string) : list value :=
  let base := newRecord id now input in
  let current := loadHistory B hasWindow raw in
  let withoutDuplicate := filter (otherInput input) current in
  firstn MAX_RECORDS (base :: withoutDuplicate).

End History.

(** ** Paths of the tree view ([src/components/JsonViewer.tsx]) *)

(** [a !== b] on two segments, negated: a string and a number are never
    equal. *)
Definition segmentEq (a b : JsonPathSegment) : bool :=
  match a, b with
  | Key k, Key k' => String.eqb k k'
  | Index i, Index j => N.eqb i j
  | _, _ => false
  end.

(** [a[i]] for [i] below the length; [None] is [undefined]. *)
Definition segmentsEq (a b : option JsonPathSegment) : bool :=
  match a, b with
  | Some x, Some y => segmentEq x y
  | None, None => true
  | _, _ => false
  end.

Definition pathsEqual (a b : path) : bool :=
  if negb (Nat.eqb (List.length a) (List.length b)) then false
  else
    forallb (fun i => segmentsEq (nth_error a i) (nth_error b i))
      (seq 0 (List.length a)).

(** ** Structural sharing: the same updates with object identity

    A container is a heap cell; [===] compares cells by address.  None of
    the functions below writes to a cell after returning it, so a cell's
    content is fixed once allocated and the tree under an address can be
    carried along with it.  An update runs in the allocation monad: its
    state is the next free address. *)

Module Ref.

Definition addr := nat.

#[local] Unset Elimination Schemes.

Inductive rvalue : Type :=
| RUndefined
| RNull
| RBool (b : bool)
| RNumber (n : spec_float)
| RString (s : string)
| RArray (a : addr) (items : list rvalue)
| RObject (a : addr) (props : list (string * rvalue)).

#[local] Set Elimination Schemes.

(** The value that a labelled tree denotes. *)
Fixpoint erase (v : rvalue) : value :=
  match v with
  | RUndefined => VUndefined
  | RNull => VNull
  | RBool b => VBool b
  | RNumber n => VNumber n
  | RString s => VString s
  | RArray _ items => VArray (map erase items)
  | RObject _ props => VObject (mapValues erase props)
  end.

(** Strict equality [x === y]: by value on primitives, by address on
    containers. *)
Definition sameRef (x y : rvalue) : bool :=
  match x, y with
  | RUndefined, RUndefined | RNull, RNull => true
  | RBool b, RBool c => Bool.eqb b c
  | RNumber m, RNumber n => SFeqb m n
  | RString s, RString t => String.eqb s t
  | RArray a _, RArray b _ | RObject a _, RObject b _ => Nat.eqb a b
  | _, _ => false
  end.

(** The largest address in use in a tree, plus one. *)
Fixpoint bound (v : rvalue) : addr :=
  match v with
  | RArray a items => Nat.max (S a) (fold_right (fun x m => Nat.max (bound x) m) O items)
  | RObject a props =>
      Nat.max (S a) (fold_right (fun kv m => Nat.max (bound (snd kv)) m) O props)
  | _ => O
  end.

Definition boundItems (items : list rvalue) : addr :=
  fold_right (fun x m => Nat.max (bound x) m) O items.

Definition boundProps (props : list (string * rvalue)) : addr :=
  fold_right (fun kv m => Nat.max (bound (snd kv)) m) O props.

Definition Alloc (A : Type) : Type := addr -> A * addr.

Definition ret {A : Type} (x : A) : Alloc A := fun n => (x, n).

Definition bind {A C : Type} (m : Alloc A) (f : A -> Alloc C) : Alloc C :=
  fun n => let (x, n') := m n in f x n'.

(** Allocation of a new cell. *)
Definition fresh : Alloc addr := fun n => (n, S n).

Notation "x <- m ;; f" := (bind m (fun x => f))
  (at level 61, m at next level, right associativity).

(** Modelled from the spec: [read], on labelled trees. *)
Fixpoint read (v : rvalue) (p : path) : rvalue :=
  match p with
  | [] => v
  | seg :: rest =>
      match v, seg with
      | RArray _ items, Index i => read (arr_get RUndefined items i) rest
      | RObject _ props, Key k => read (obj_get RUndefined props k) rest
      | _, _ => RUndefined
      end
  end.

Fixpoint updateAtPath (current : rvalue) (p : path) (nextValue : rvalue)
  : Alloc rvalue :=
  match p with
  | [] => ret nextValue
  | head :: rest =>
      match current, head with
      | RArray _ items, Index i =>
          nextArr <- fresh ;;                         (* [current.slice()] *)
          x <- updateAtPath (arr_get RUndefined items i) rest nextValue ;;
          ret (RArray nextArr (arr_set RUndefined items i x))
      | RObject _ obj, Key k =>
          nextObj <- fresh ;;                         (* the object literal *)
          x <- updateAtPath (obj_get RUndefined obj k) rest nextValue ;;
          ret (RObject nextObj (obj_set obj k x))
      | _, _ => ret current
      end
  end.

Fixpoint deleteAtPath (current : rvalue) (p : path) : Alloc rvalue :=
  match p with
  | [] => ret current
  | head :: rest =>
      match rest with
      | [] =>
          match current, head with
          | RArray _ items, Index i =>
              if (i <? 0)%N || (N.of_nat (List.length items) <=? i)%N
              then ret current
              else
                nextArr <- fresh ;;                   (* [current.slice()] *)
                removed <- fresh ;;                   (* the result of [splice] *)
                ret (RArray nextArr (arr_splice1 items i))
          | RObject _ obj, Key k =>
              if negb (has_own obj k) then ret current
              else
                nextObj <- fresh ;;
                ret (RObject nextObj (obj_delete obj k))
          | _, _ => ret current
          end
      | _ :: _ =>
          match current, head with
          | RArray _ items, Index i =>
              nextArr <- fresh ;;
              x <- deleteAtPath (arr_get RUndefined items i) rest ;;
              ret (RArray nextArr (arr_set RUndefined items i x))
          | RObject _ obj, Key k =>
              nextObj <- fresh ;;
              x <- deleteAtPath (obj_get RUndefined obj k) rest ;;
              ret (RObject nextObj (obj_set obj k x))
          | _, _ => ret current
          end
      end
  end.

Fixpoint addToObjectAtPath (current : rvalue) (objectPath : path)
  (key : string) (v : rvalue) : Alloc rvalue :=
  match objectPath with
  | [] =>
      match current with
      | RObject _ obj =>
          if has_own obj key then ret current
          else
            nextObj <- fresh ;;                       (* the object literal *)
            ret (RObject nextObj (obj_set obj key v))
      | _ => ret current
      end
  | head :: rest =>
      match current, head with
      | RArray _ items, Index i =>
          nextArr <- fresh ;;                         (* [current.slice()] *)
          x <- addToObjectAtPath (arr_get RUndefined items i) rest key v ;;
          ret (RArray nextArr (arr_set RUndefined items i x))
      | RObject _ obj, Key k =>
          nextObj <- fresh ;;
          x <- addToObjectAtPath (obj_get RUndefined obj k) rest key v ;;
          ret (RObject nextObj (obj_set obj k x))
      | _, _ => ret current
      end
  end.

Fixpoint addToArrayAtPath (current : rvalue) (arrayPath : path) (v : rvalue)
  : Alloc rvalue :=
  match arrayPath with
  | [] =>
      match current with
      | RArray _ items =>
          next <- fresh ;;                            (* the array literal *)
          ret (RArray next (items ++ [v]))
      | _ => ret current
      end
  | head :: rest =>
      match current, head with
      | RArray _ items, Index i =>
          nextArr <- fresh ;;
          x <- addToArrayAtPath (arr_get RUndefined items i) rest v ;;
          ret (RArray nextArr (arr_set RUndefined items i x))
      | RObject _ obj, Key k =>
          nextObj <- fresh ;;
          x <- addToArrayAtPath (obj_get RUndefined obj k) rest v ;;
          ret (RObject nextObj (obj_set obj k x))
      | _, _ => ret current
      end
  end.

(** [renameKeyAtPath]: the reducer allocates nothing; [patchObject] makes
    the object [next] at the target and a copy of every container on the
    way, also where it then finds no container of the kind it expects. *)
Definition renameTargetStep (acc : rvalue) (seg : JsonPathSegment) : rvalue :=
  match acc with
  | RNull | RUndefined => acc
  | _ =>
      match seg, acc with
      | Index i, RArray _ items => arr_get RUndefined items i
      | Key k, RObject _ obj => obj_get RUndefined obj k
      | _, _ => acc
      end
  end.

Fixpoint patchObject (oldKey newKey : string) (obj : list (string * rvalue))
  (node : rvalue) (pathToNode : path) : Alloc rvalue :=
  match pathToNode with
  | [] =>
      next <- fresh ;;                                (* [next = {}] *)
      ret (RObject next (renameEntries oldKey newKey obj))
  | head :: rest =>
      match node, head with
      | RArray _ items, Index i =>
          nextArr <- fresh ;;                         (* [node.slice()] *)
          x <- patchObject oldKey newKey obj (arr_get RUndefined items i) rest ;;
          ret (RArray nextArr (arr_set RUndefined items i x))
      | RObject _ props, Key k =>
          nextObj <- fresh ;;                         (* the spread copy *)
          x <- patchObject oldKey newKey obj (obj_get RUndefined props k) rest ;;
          ret (RObject nextObj (obj_assign props k x))
      | _, _ => ret node
      end
  end.

Definition renameKeyAtPath (current : rvalue) (parentPath : path)
  (oldKey newKey : string) : Alloc rvalue :=
  match fold_left renameTargetStep parentPath current with
  | RObject _ obj =>
      if negb (has_in obj oldKey) then ret current
      else if has_in obj newKey then ret current
      else patchObject oldKey newKey obj current parentPath
  | _ => ret current
  end.

(** *** The structural handlers of [App]

    The state of the component with the document as the heap holds it:
    these handlers compare the updated document with the current one by
    [===]. *)

Record AppState : Type := {
  parsed : rvalue;
  error : option string;
  input : string;
  undoStack : list string;
  redoStack : list string
}.

Definition isNull (v : rvalue) : bool :=
  match v with RNull => true | _ => false end.

Definition pushUndoSnapshot (st : AppState) : AppState :=
  let pushed := undoStack st ++ [input st] in
  {| parsed := parsed st;
     error := error st;
     input := input st;
     undoStack := if (100 <? List.length pushed)%nat then tl pushed else pushed;
     redoStack := [] |}.

Definition commitParsedUpdate (B : Builtins) (updated : rvalue) (st : AppState)
  : AppState :=
  {| parsed := updated;
     error := None;
     input := match JSON_stringify B (erase updated) with
              | Some text => text
              | None => input st
              end;
     undoStack := undoStack st;
     redoStack := redoStack st |}.

Definition handleAddToObject (B : Builtins) (objectPath : path) (key : string)
  (v : rvalue) (st : AppState) : Alloc AppState :=
  if isNull (parsed st) || truthy (error st) then ret st
  else
    let trimmedKey := Js.trim key in
    if String.eqb trimmedKey "" then ret st
    else
      let st1 := pushUndoSnapshot st in
      updated <- addToObjectAtPath (parsed st) objectPath trimmedKey v ;;
      if sameRef updated (parsed st) then ret st1
      else ret (commitParsedUpdate B updated st1).

Definition handleAddToArray (B : Builtins) (arrayPath : path) (v : rvalue)
  (st : AppState) : Alloc AppState :=
  if isNull (parsed st) || truthy (error st) then ret st
  else
    let st1 := pushUndoSnapshot st in
    updated <- addToArrayAtPath (parsed st) arrayPath v ;;
    if sameRef updated (parsed st) then ret st1
    else ret (commitParsedUpdate B updated st1).

Definition handleDeleteAtPath (B : Builtins) (p : path) (st : AppState)
  : Alloc AppState :=
  if isNull (parsed st) || truthy (error st) then ret st
  else
    match p with
    | [] => ret st
    | _ :: _ =>
        let st1 := pushUndoSnapshot st in
        updated <- deleteAtPath (parsed st) p ;;
        if sameRef updated (parsed st) then ret st1
        else ret (commitParsedUpdate B updated st1)
    end.

End Ref.

(** ** Predicates used by the statements *)

(** Every segment of [p] meets a container of its kind: a list for an
    [Index], a mapping for a [Key] (the last slot itself may be missing). *)
Fixpoint resolves (v : value) (p : path) : Prop :=
  match p with
  | [] => True
  | seg :: rest =>
      match v, seg with
      | VArray items, Index i => resolves (arr_get VUndefined items i) rest
      | VObject props, Key k => resolves (obj_get VUndefined props k) rest
      | _, _ => False
      end
  end.


(** [q] leaves the chain from the root to [p]: the two paths share a
    prefix and then take different segments. *)
Definition diverges (q p : path) : Prop :=
  exists common s t q' p',
    q = common ++ s :: q' /\ p = common ++ t :: p' /\ s <> t.



(** [s.includes(c)]. *)
Fixpoint contains (c : ascii) (s : string) : bool :=
  match s with
  | EmptyString => false
  | String d s' => Ascii.eqb d c || contains c s'
  end.

(** Escaping of the tilde alone: the text between the two passes of
    [decodeJsonPointerToken] on an escaped token. *)
Fixpoint escapeTilde (s : string) : string :=
  match s with
  | EmptyString => EmptyString
  | String c s' =>
      if Ascii.eqb c "~" then String "~" (String "0" (escapeTilde s'))
      else String c (escapeTilde s')
  end.


(** The own keys of a mapping come in enumeration order: no key twice,
    and every key ahead of the keys that follow it (array indices first,
    ascending). *)
Definition precedes (k' k : string) : Prop := before k' k = true.

Definition ownKeyOrder (keys : list string) : Prop :=
  NoDup keys /\ StronglySorted precedes keys.

(** The mapping that the entries give when each is defined in turn, a new
    key going to its place in the enumeration order. *)
Definition defineAll (entries : list (string * value)) : list (string * value) :=
  fold_left (fun result kv => obj_set result (fst kv) (snd kv)) entries [].

(** The entries of a mapping with [newKey] substituted for [oldKey], each
    entry at its place. *)
Definition substituteKey (oldKey newKey : string) (props : list (string * value))
  : list (string * value) :=
  map (fun kv => (if String.eqb (fst kv) oldKey then newKey else fst kv, snd kv))
    props.

(** The entries of a mapping other than the one under [k], in order. *)
Definition siblings (k : string) (props : list (string * value))
  : list (string * value) :=
  filter (fun kv => negb (String.eqb (fst kv) k)) props.


(** The walk along [p] reaches a node that is there but is not a container
    of the kind that the next segment expects. *)
Fixpoint blocked (v : value) (p : path) : Prop :=
  match p with
  | [] => False
  | seg :: rest =>
      match v, seg with
      | VArray items, Index i =>
          (N.to_nat i < List.length items)%nat /\
          blocked (arr_get VUndefined items i) rest
      | VObject props, Key k =>
          has_own props k = true /\ blocked (obj_get VUndefined props k) rest
      | _, _ => True
      end
  end.

(** Every mapping of a value has its keys in enumeration order, as the
    mappings of the language do. *)
Fixpoint wellFormed (v : value) : Prop :=
  match v with
  | VArray items =>
      (fix all (l : list value) : Prop :=
         match l with
         | [] => True
         | x :: l' => wellFormed x /\ all l'
         end) items
  | VObject props =>
      ownKeyOrder (map fst props) /\
      (fix all (l : list (string * value)) : Prop :=
         match l with
         | [] => True
         | kv :: l' => wellFormed (snd kv) /\ all l'
         end) props
  | _ => True
  end.

(** A value on which the decoder has nothing left to do: well formed,
    without a key [__proto__] (the decoder makes none), and none of its
    strings parses as nested JSON. *)
Fixpoint settled (B : Builtins) (v : value) : Prop :=
  match v with
  | VString s => tryParseJson B s = None
  | VArray items =>
      (fix all (l : list value) : Prop :=
         match l with
         | [] => True
         | x :: l' => settled B x /\ all l'
         end) items
  | VObject props =>
      ownKeyOrder (map fst props) /\
      has_own props "__proto__" = false /\
      (fix all (l : list (string * value)) : Prop :=
         match l with
         | [] => True
         | kv :: l' => settled B (snd kv) /\ all l'
         end) props
  | _ => True
  end.

(** What an update hands back: the node it was given, or a cell that the
    call has allocated, the first one being at address [n]. *)
Definition sameOrFresh (D D' : Ref.rvalue) (n : Ref.addr) : Prop :=
  D' = D \/
  match D' with
  | Ref.RArray a _ | Ref.RObject a _ => a = n
  | _ => False
  end.

(** Both stacks of the history within their cap. *)
Definition stacksBounded (st : AppState) : Prop :=
  (List.length (undoStack st) <= 100)%nat /\
  (List.length (redoStack st) <= 100)%nat.

(** [k] is a key of some mapping inside [v]. *)
Fixpoint keyOccurs (k : string) (v : value) : Prop :=
  match v with
  | VArray items =>
      (fix any (l : list value) : Prop :=
         match l with
         | [] => False
         | x :: l' => keyOccurs k x \/ any l'
         end) items
  | VObject props =>
      has_own props k = true \/
      (fix any (l : list (string * value)) : Prop :=
         match l with
         | [] => False
         | kv :: l' => keyOccurs k (snd kv) \/ any l'
         end) props
  | _ => False
  end.

(** The number of nodes of a value: what a traversal takes from the
    queue, one at a time. *)
Fixpoint nodeCount (v : value) : nat :=
  match v with
  | VArray items => S (list_sum (map nodeCount items))
  | VObject props => S (list_sum (map (fun kv => nodeCount (snd kv)) props))
  | _ => 1
  end.

(** The literal token of a boolean. *)
Definition boolToken (b : bool) : string := if b then "true" else "false".

(** ** Sample values *)

(** The binary64 value of an integer literal. *)
Definition js_number (z : Z) : spec_float := binary_normalize 53 1024 z 0 false.

Definition num (z : Z) : value := VNumber (js_number z).

Definition pointerDoc : value :=
  VObject [("a/b", VArray [num 1; VObject [("~", num 2)]])].

Definition plainDoc : value :=
  VObject [("a", VObject [("b", num 1)]); ("c", VArray [num 10; num 20])].

Definition plainProps : list (string * value) :=
  [("a", VObject [("b", num 1)]); ("c", VArray [num 10; num 20])].



(** The JSON text of the one-element list that holds the string [[]]. *)
Definition nestedText : string :=
  String "[" (String Js.doubleQuote
    (String "[" (String "]" (String Js.doubleQuote (String "]" EmptyString))))).

(** The builtins on the inputs of the examples below: each entry is what
    the builtin returns there; elsewhere [JSON.parse] and [JSON.stringify]
    are taken to throw and [Number] to yield [NaN]. *)
Definition sampleBuiltins : Builtins :=
  {| JSON_parse := fun s =>
       if String.eqb s nestedText then Some (VArray [VString "[]"])
       else if String.eqb s "[]" then Some (VArray [])
       else if String.eqb s "{}" then Some (VObject [])
       else if String.eqb s "true" then Some (VBool true)
       else if String.eqb s "false" then Some (VBool false)
       else if String.eqb s "null" then Some VNull
       else None;
     JSON_stringify := fun v =>
       match v with
       | VNull => Some "null"
       | VBool b => Some (boolToken b)
       | VArray [] => Some "[]"
       | VObject [] => Some "{}"
       | _ => None
       end;
     Number := fun s =>
       if String.eqb s "" || String.eqb s "0" then S754_zero false
       else if String.eqb s "1" then js_number 1
       else S754_nan;
     String_of_number := fun n =>
       match n with
       | S754_zero _ => "0"
       | S754_infinity false => "Infinity"
       | S754_infinity true => "-Infinity"
       | S754_nan => "NaN"
       | S754_finite _ _ _ => "1"
       end |}.

Definition sampleState : AppState :=
  {| parsed := VObject [("a", num 1)];
     error := None;
     input := "";
     undoStack := [];
     redoStack := [] |}.

Definition numberCell (typed : string) : CellEditor :=
  {| pointer := "/a"; originalValue := num 1; text := typed |}.

Definition booleanCell (typed : string) : CellEditor :=
  {| pointer := "/a"; originalValue := VBool false; text := typed |}.

Definition listDoc : value := VObject [("c", VArray [num 10; num 20])].

(** A document with the addresses of its cells. *)
Definition rnum (z : Z) : Ref.rvalue := Ref.RNumber (js_number z).

Definition sampleDoc : Ref.rvalue :=
  Ref.RObject 0
    [("a", Ref.RObject 1 [("b", rnum 1)]);
     ("c", Ref.RArray 2 [rnum 10; rnum 20])].

(** The state of [App] around [sampleDoc]. *)
Definition sampleRefState : Ref.AppState :=
  {| Ref.parsed := sampleDoc;
     Ref.error := None;
     Ref.input := "{}";
     Ref.undoStack := [];
     Ref.redoStack := [] |}.

(** A state with one edit to undo. *)
Definition editedState : AppState :=
  {| parsed := VObject [("a", num 1)];
     error := None;
     input := "new";
     undoStack := ["old"];
     redoStack := [] |}.

Definition sampleColumns : list Columns.JsonPathColumnStored :=
  [{| Columns.name := "a"; Columns.expr := "$.a" |};
   {| Columns.name := "b"; Columns.expr := "$.b" |};
   {| Columns.name := "c"; Columns.expr := "$.c" |}].

(** A string literal of JSON: the text between double quotes. *)
Definition quoted (s : string) : string :=
  String Js.doubleQuote (s ++ String Js.doubleQuote "").

(** A stored history: one record, and an entry that is none. *)
Definition storedHistoryText : string :=
  ("[{" ++ quoted "id" ++ ":" ++ quoted "1-a" ++ ","
   ++ quoted "createdAt" ++ ":1,"
   ++ quoted "input" ++ ":" ++ quoted "{}" ++ "},null]")%string.

Definition storedHistory : value :=
  VArray [History.newRecord "1-a" (js_number 1) "{}"; VNull].

(** The builtins on the stored history: [JSON.parse] is taken to throw
    elsewhere. *)
Definition historyBuiltins : Builtins :=
  {| JSON_parse := fun s =>
       if String.eqb s storedHistoryText then Some storedHistory else None;
     JSON_stringify := fun _ => None;
     Number := fun _ => S754_nan;
     String_of_number := fun _ => "NaN" |}.

(* ================================================================== *)
(** * Part II: properties *)
(* ================================================================== *)

(** ** Arrays and mappings *)

Section ContainerFacts.
Context {A : Type} (undef : A).

Lemma nth_list_set_eq (items : list A) (n : nat) (x : A) :
  nth n (list_set undef items n x) undef = x.
Proof.
  revert items; induction n as [|n IH]; intros [|y rest]; simpl; auto.
Qed.

Lemma nth_list_set_neq (items : list A) (n m : nat) (x : A) :
  n <> m -> nth m (list_set undef items n x) undef = nth m items undef.
Proof.
  revert items m; induction n as [|n IH]; intros [|y rest] [|m] Hneq;
    simpl; try congruence; auto.
  - destruct m; reflexivity.
  - rewrite IH by congruence. destruct m; reflexivity.
Qed.

Lemma arr_get_set_eq (items : list A) (i : N) (x : A) :
  arr_get undef (arr_set undef items i x) i = x.
Proof. apply nth_list_set_eq. Qed.

Lemma arr_get_set_neq (items : list A) (i j : N) (x : A) :
  i <> j -> arr_get undef (arr_set undef items i x) j = arr_get undef items j.
Proof.
  intros Hneq. apply nth_list_set_neq. intros H. apply Hneq.
  now apply N2Nat.inj.
Qed.

Lemma list_set_same (items : list A) (n : nat) :
  (n < List.length items)%nat ->
  list_set undef items n (nth n items undef) = items.
Proof.
  revert items; induction n as [|n IH]; intros [|y rest] Hlt; simpl in *;
    try lia; auto.
  rewrite IH by lia. reflexivity.
Qed.

Lemma obj_get_replace_eq (props : list (string * A)) (k : string) (x : A) :
  has_own props k = true -> obj_get undef (obj_replace props k x) k = x.
Proof.
  induction props as [|[k' v'] rest IH]; simpl; intros Hown; [discriminate|].
  destruct (String.eqb_spec k' k) as [->|Hne]; simpl.
  - now rewrite String.eqb_refl.
  - destruct (String.eqb_spec k' k); [contradiction|]. auto.
Qed.

Lemma obj_get_insert_eq (props : list (string * A)) (k : string) (x : A) :
  has_own props k = false -> obj_get undef (obj_insert props k x) k = x.
Proof.
  induction props as [|[k' v'] rest IH]; simpl; intros Hown.
  - now rewrite String.eqb_refl.
  - apply orb_false_iff in Hown as [Hk Hrest].
    destruct (before k' k); simpl.
    + rewrite Hk. auto.
    + now rewrite String.eqb_refl.
Qed.

Lemma obj_get_set_eq (props : list (string * A)) (k : string) (x : A) :
  obj_get undef (obj_set props k x) k = x.
Proof.
  unfold obj_set. destruct (has_own props k) eqn:Hown.
  - now apply obj_get_replace_eq.
  - now apply obj_get_insert_eq.
Qed.

Lemma obj_get_replace_neq (props : list (string * A)) (k k' : string) (x : A) :
  k <> k' -> obj_get undef (obj_replace props k x) k' = obj_get undef props k'.
Proof.
  intros Hneq. induction props as [|[k0 v0] rest IH]; simpl; auto.
  destruct (String.eqb_spec k0 k) as [->|Hne]; simpl.
  - destruct (String.eqb_spec k k'); [contradiction|reflexivity].
  - now rewrite IH.
Qed.

Lemma obj_get_insert_neq (props : list (string * A)) (k k' : string) (x : A) :
  k <> k' -> obj_get undef (obj_insert props k x) k' = obj_get undef props k'.
Proof.
  intros Hneq. induction props as [|[k0 v0] rest IH]; simpl.
  - destruct (String.eqb_spec k k'); [contradiction|reflexivity].
  - destruct (before k0 k); simpl.
    + now rewrite IH.
    + destruct (String.eqb_spec k k'); [contradiction|reflexivity].
Qed.

Lemma obj_get_set_neq (props : list (string * A)) (k k' : string) (x : A) :
  k <> k' -> obj_get undef (obj_set props k x) k' = obj_get undef props k'.
Proof.
  intros Hneq. unfold obj_set. destruct (has_own props k).
  - now apply obj_get_replace_neq.
  - now apply obj_get_insert_neq.
Qed.

Lemma obj_replace_same (props : list (string * A)) (k : string) :
  has_own props k = true -> obj_replace props k (obj_get undef props k) = props.
Proof.
  induction props as [|[k' v'] rest IH]; simpl; intros Hown; [discriminate|].
  destruct (String.eqb_spec k' k) as [->|Hne]; simpl in *.
  - reflexivity.
  - now rewrite IH.
Qed.

End ContainerFacts.

(** ** Structural sharing of [updateAtPath] *)

Lemma erase_arr_get (items : list Ref.rvalue) (i : N) :
  Ref.erase (arr_get Ref.RUndefined items i)
  = arr_get VUndefined (map Ref.erase items) i.
Proof.
  unfold arr_get. rewrite <- (map_nth Ref.erase). reflexivity.
Qed.

Lemma erase_obj_get (props : list (string * Ref.rvalue)) (k : string) :
  Ref.erase (obj_get Ref.RUndefined props k)
  = obj_get VUndefined (mapValues Ref.erase props) k.
Proof.
  induction props as [|[k' v'] rest IH]; simpl; auto.
  destruct (String.eqb k' k); auto.
Qed.

Lemma diverges_cons_inv (s t : JsonPathSegment) (q p : path) :
  diverges (s :: q) (t :: p) -> s <> t \/ (s = t /\ diverges q p).
Proof.
  intros (common & s' & t' & q' & p' & Hq & Hp & Hneq).
  destruct common as [|c cs]; simpl in *.
  - left. injection Hq as -> _. injection Hp as -> _. exact Hneq.
  - right. injection Hq as -> ->. injection Hp as -> ->.
    split; [reflexivity|]. now exists cs, s', t', q', p'.
Qed.

Lemma diverges_nonempty (q p : path) : diverges q p -> q <> [] /\ p <> [].
Proof.
  intros (common & s & t & q' & p' & -> & -> & _).
  split; now destruct common.
Qed.

(** Off the chain from the root to the target nothing is copied: what is
    read there after the write is the very cell that was there before. *)
Lemma updateAtPath_frame (p : path) :
  forall (D v : Ref.rvalue) (n : Ref.addr) (q : path),
    diverges q p ->
    Ref.read (fst (Ref.updateAtPath D p v n)) q = Ref.read D q.
Proof.
  induction p as [|head rest IH]; intros D v n q Hdiv.
  - now destruct (diverges_nonempty _ _ Hdiv) as [_ []].
  - destruct q as [|s q']; [now destruct (diverges_nonempty _ _ Hdiv) as [[] _]|].
    apply diverges_cons_inv in Hdiv.
    destruct D as [| | | | |a items|a obj]; try reflexivity;
      destruct head as [k|i]; try reflexivity; simpl;
      unfold Ref.bind, Ref.fresh, Ref.ret;
      match goal with
      | |- context [Ref.updateAtPath ?c rest v ?m] =>
          specialize (IH c v m); destruct (Ref.updateAtPath c rest v m) as [x n']
      end; simpl in *.
    + destruct s as [k'|j]; [reflexivity|].
      destruct Hdiv as [Hneq|[Heq Hdiv]].
      * rewrite arr_get_set_neq by congruence. reflexivity.
      * injection Heq as ->. rewrite arr_get_set_eq. now apply IH.
    + destruct s as [k'|j]; [|reflexivity].
      destruct Hdiv as [Hneq|[Heq Hdiv]].
      * rewrite obj_get_set_neq by congruence. reflexivity.
      * injection Heq as ->. rewrite obj_get_set_eq. now apply IH.
Qed.

Lemma updateAtPath_read_back (p : path) :
  forall (D v : Ref.rvalue) (n : Ref.addr),
    resolves (Ref.erase D) p ->
    Ref.read (fst (Ref.updateAtPath D p v n)) p = v.
Proof.
  induction p as [|head rest IH]; intros D v n Hres; [reflexivity|].
  destruct D as [| | | | |a items|a obj]; simpl in Hres; try contradiction;
    destruct head as [k|i]; try contradiction; simpl;
    unfold Ref.bind, Ref.fresh, Ref.ret;
    match goal with
    | |- context [Ref.updateAtPath ?c rest v ?m] =>
        specialize (IH c v m); destruct (Ref.updateAtPath c rest v m) as [x n']
    end; simpl in *.
  - rewrite arr_get_set_eq. apply IH. now rewrite erase_arr_get.
  - rewrite obj_get_set_eq. apply IH. now rewrite erase_obj_get.
Qed.

(** C1 (as amended).  For every document [D], every non-empty path [P]
    whose segments each meet a container of their kind in [D] (a list for
    an Index, a mapping for a Key), and every value [v]: reading [P] back
    after [updateAtPath D P v] yields [v], and every subtree that leaves
    the chain from the root to [P] is, after the write, the same cell with
    the same content as before. *)
Theorem updateAtPath_read_back_and_sharing
  (D : Ref.rvalue) (P : path) (v : Ref.rvalue) (n : Ref.addr) :
  P <> [] ->
  resolves (Ref.erase D) P ->
  let D' := fst (Ref.updateAtPath D P v n) in
  Ref.read D' P = v /\
  (forall Q, diverges Q P -> Ref.read D' Q = Ref.read D Q).
Proof.
  intros _ Hres D'. split.
  - now apply updateAtPath_read_back.
  - intros Q HQ. now apply updateAtPath_frame.
Qed.

(** The labelled update denotes the plain one. *)
Lemma map_list_set {A C : Type} (f : A -> C) (u : A) (items : list A)
  (n : nat) (x : A) :
  map f (list_set u items n x) = list_set (f u) (map f items) n (f x).
Proof.
  revert items; induction n as [|n IH]; intros [|y rest]; simpl; auto.
  - now rewrite (IH []).
  - now rewrite IH.
Qed.

Section MapProps.
Context {A C : Type} (f : A -> C).

Lemma has_own_mapValues (props : list (string * A)) (k : string) :
  has_own (mapValues f props) k = has_own props k.
Proof.
  induction props as [|[k' v'] rest IH]; simpl; auto. now rewrite IH.
Qed.

Lemma obj_set_mapValues (props : list (string * A)) (k : string) (x : A) :
  mapValues f (obj_set props k x) = obj_set (mapValues f props) k (f x).
Proof.
  unfold obj_set. rewrite has_own_mapValues. destruct (has_own props k).
  - induction props as [|[k' v'] rest IH]; simpl; auto.
    destruct (String.eqb k' k); simpl; auto. now rewrite IH.
  - induction props as [|[k' v'] rest IH]; simpl; auto.
    destruct (before k' k); simpl; auto. now rewrite IH.
Qed.

Lemma obj_delete_mapValues (props : list (string * A)) (k : string) :
  mapValues f (obj_delete props k) = obj_delete (mapValues f props) k.
Proof.
  induction props as [|[k' v'] rest IH]; simpl; auto.
  destruct (String.eqb k' k); simpl; auto. now rewrite IH.
Qed.

End MapProps.

Lemma erase_updateAtPath (p : path) :
  forall (D v : Ref.rvalue) (n : Ref.addr),
    Ref.erase (fst (Ref.updateAtPath D p v n))
    = updateAtPath (Ref.erase D) p (Ref.erase v).
Proof.
  induction p as [|head rest IH]; intros D v n; [reflexivity|].
  destruct D as [| | | | |a items|a obj]; try reflexivity;
    destruct head as [k|i]; try reflexivity; simpl;
    unfold Ref.bind, Ref.fresh, Ref.ret;
    match goal with
    | |- context [Ref.updateAtPath ?c rest v ?m] =>
        specialize (IH c v m); destruct (Ref.updateAtPath c rest v m) as [x n']
    end; simpl in *.
  - unfold arr_set. rewrite map_list_set, IH, erase_arr_get. reflexivity.
  - rewrite obj_set_mapValues, IH, erase_obj_get. reflexivity.
Qed.

Lemma deleteAtPath_deep (current : value) (head seg : JsonPathSegment)
  (rest : path) :
  deleteAtPath current (head :: seg :: rest)
  = match current, head with
    | VArray items, Index i =>
        VArray (arr_set VUndefined items i
                  (deleteAtPath (arr_get VUndefined items i) (seg :: rest)))
    | VObject obj, Key k =>
        VObject (obj_set obj k
                   (deleteAtPath (obj_get VUndefined obj k) (seg :: rest)))
    | _, _ => current
    end.
Proof. reflexivity. Qed.

Lemma ref_deleteAtPath_deep (current : Ref.rvalue) (head seg : JsonPathSegment)
  (rest : path) (n : Ref.addr) :
  Ref.deleteAtPath current (head :: seg :: rest) n
  = match current, head with
    | Ref.RArray _ items, Index i =>
        let (x, n') :=
          Ref.deleteAtPath (arr_get Ref.RUndefined items i) (seg :: rest) (S n) in
        (Ref.RArray n (arr_set Ref.RUndefined items i x), n')
    | Ref.RObject _ obj, Key k =>
        let (x, n') :=
          Ref.deleteAtPath (obj_get Ref.RUndefined obj k) (seg :: rest) (S n) in
        (Ref.RObject n (obj_set obj k x), n')
    | _, _ => (current, n)
    end.
Proof.
  destruct current as [| | | | |a items|a obj]; try reflexivity;
    destruct head; reflexivity.
Qed.

Lemma erase_deleteAtPath (p : path) :
  forall (D : Ref.rvalue) (n : Ref.addr),
    Ref.erase (fst (Ref.deleteAtPath D p n)) = deleteAtPath (Ref.erase D) p.
Proof.
  induction p as [|head rest IH]; intros D n; [reflexivity|].
  destruct rest as [|seg rest'].
  - destruct D as [| | | | |a items|a obj]; try reflexivity;
      destruct head as [k|i]; try reflexivity; simpl.
    + rewrite length_map.
      destruct ((i <? 0)%N || (N.of_nat (List.length items) <=? i)%N);
        [reflexivity|]. simpl. unfold arr_splice1.
      now rewrite map_app, firstn_map, skipn_map.
    + rewrite has_own_mapValues. destruct (has_own obj k); cbn [negb fst];
        [|reflexivity].
      unfold Ref.bind, Ref.fresh, Ref.ret. cbn [fst Ref.erase].
      now rewrite obj_delete_mapValues.
  - rewrite deleteAtPath_deep, ref_deleteAtPath_deep.
    destruct D as [| | | | |a items|a obj]; try reflexivity;
      destruct head as [k|i]; try reflexivity;
      match goal with
      | |- context [Ref.deleteAtPath ?c (seg :: rest') ?m] =>
          specialize (IH c m);
          destruct (Ref.deleteAtPath c (seg :: rest') m) as [x n']
      end; cbn [fst Ref.erase] in *.
    + unfold arr_set. rewrite map_list_set, IH, erase_arr_get. reflexivity.
    + rewrite obj_set_mapValues, IH, erase_obj_get. reflexivity.
Qed.

(** The container at the root of a write that goes through is a new cell. *)
Lemma updateAtPath_root_is_fresh (D v : Ref.rvalue) (head : JsonPathSegment)
  (rest : path) (n : Ref.addr) :
  resolves (Ref.erase D) (head :: rest) ->
  exists D', fst (Ref.updateAtPath D (head :: rest) v n) = D' /\
    match D' with
    | Ref.RArray a _ | Ref.RObject a _ => a = n
    | _ => False
    end.
Proof.
  intros Hres. eexists; split; [reflexivity|].
  destruct D as [| | | | |a items|a obj]; simpl in Hres; try contradiction;
    destruct head as [k|i]; try contradiction; simpl;
    unfold Ref.bind, Ref.fresh, Ref.ret;
    match goal with
    | |- context [Ref.updateAtPath ?c rest v ?m] =>
        destruct (Ref.updateAtPath c rest v m) as [x n']
    end; reflexivity.
Qed.

(** The addresses stay in order: an update of a tree below the next free
    address returns a tree below the new one, so the cells of the next
    update are new as well. *)
Lemma bound_arr_get (items : list Ref.rvalue) (i : N) :
  (Ref.bound (arr_get Ref.RUndefined items i) <= Ref.boundItems items)%nat.
Proof.
  unfold arr_get. generalize (N.to_nat i) as n.
  induction items as [|x l IH]; intros [|n]; simpl; try lia.
  specialize (IH n). lia.
Qed.

Lemma boundItems_list_set (items : list Ref.rvalue) (n : nat) (x : Ref.rvalue) :
  (Ref.boundItems (list_set Ref.RUndefined items n x)
   <= Nat.max (Ref.boundItems items) (Ref.bound x))%nat.
Proof.
  revert items; induction n as [|n IH]; intros [|y l]; simpl; try lia.
  - specialize (IH []). simpl in IH. lia.
  - specialize (IH l). lia.
Qed.

Lemma bound_obj_get (props : list (string * Ref.rvalue)) (k : string) :
  (Ref.bound (obj_get Ref.RUndefined props k) <= Ref.boundProps props)%nat.
Proof.
  induction props as [|[k' v'] l IH]; simpl; [lia|].
  destruct (String.eqb k' k); simpl; lia.
Qed.

Lemma boundProps_obj_set (props : list (string * Ref.rvalue)) (k : string)
  (x : Ref.rvalue) :
  (Ref.boundProps (obj_set props k x)
   <= Nat.max (Ref.boundProps props) (Ref.bound x))%nat.
Proof.
  unfold obj_set. destruct (has_own props k).
  - induction props as [|[k' v'] l IH]; simpl; [lia|].
    destruct (String.eqb k' k); simpl; lia.
  - induction props as [|[k' v'] l IH]; simpl; [lia|].
    destruct (before k' k); simpl; lia.
Qed.

Lemma updateAtPath_bound (p : path) :
  forall (D v : Ref.rvalue) (n : Ref.addr),
    (Ref.bound D <= n)%nat -> (Ref.bound v <= n)%nat ->
    (n <= snd (Ref.updateAtPath D p v n))%nat /\
    (Ref.bound (fst (Ref.updateAtPath D p v n))
     <= snd (Ref.updateAtPath D p v n))%nat.
Proof.
  induction p as [|head rest IH]; intros D v n HD Hv; [simpl; lia|].
  destruct D as [| | | | |a items|a obj]; try (simpl; lia);
    destruct head as [k|i]; try (simpl in *; lia);
    cbn [Ref.updateAtPath]; unfold Ref.bind, Ref.fresh, Ref.ret.
  - change (Ref.bound (Ref.RArray a items))
      with (Nat.max (S a) (Ref.boundItems items)) in HD.
    pose proof (bound_arr_get items i) as Hget.
    destruct (IH (arr_get Ref.RUndefined items i) v (S n)) as [Hmono Hb]; try lia.
    destruct (Ref.updateAtPath (arr_get Ref.RUndefined items i) rest v (S n))
      as [x n']. cbn [fst snd] in *.
    change (Ref.bound (Ref.RArray n (arr_set Ref.RUndefined items i x)))
      with (Nat.max (S n) (Ref.boundItems (arr_set Ref.RUndefined items i x))).
    pose proof (boundItems_list_set items (N.to_nat i) x). unfold arr_set. lia.
  - change (Ref.bound (Ref.RObject a obj))
      with (Nat.max (S a) (Ref.boundProps obj)) in HD.
    pose proof (bound_obj_get obj k) as Hget.
    destruct (IH (obj_get Ref.RUndefined obj k) v (S n)) as [Hmono Hb]; try lia.
    destruct (Ref.updateAtPath (obj_get Ref.RUndefined obj k) rest v (S n))
      as [x n']. cbn [fst snd] in *.
    change (Ref.bound (Ref.RObject n (obj_set obj k x)))
      with (Nat.max (S n) (Ref.boundProps (obj_set obj k x))).
    pose proof (boundProps_obj_set obj k x). lia.
Qed.

Lemma updateAtPath_read_back_and_sharing_witness :
  [Key "a"; Key "b"] <> [] /\
  resolves (Ref.erase sampleDoc) [Key "a"; Key "b"] /\
  Ref.read (fst (Ref.updateAtPath sampleDoc [Key "a"; Key "b"] (rnum 7) 3))
    [Key "a"; Key "b"] = rnum 7 /\
  (forall Q, diverges Q [Key "a"; Key "b"] ->
     Ref.read (fst (Ref.updateAtPath sampleDoc [Key "a"; Key "b"] (rnum 7) 3)) Q
     = Ref.read sampleDoc Q).
Proof.
  split; [discriminate|]. split; [exact I|].
  apply (updateAtPath_read_back_and_sharing sampleDoc [Key "a"; Key "b"] (rnum 7) 3).
  - discriminate.
  - exact I.
Defined.

(** With every address of [D] below the next free one, the root of such a
    write is not the root of [D]. *)
Lemma updateAtPath_copies_root (D v : Ref.rvalue) (head : JsonPathSegment)
  (rest : path) (n : Ref.addr) :
  resolves (Ref.erase D) (head :: rest) ->
  (Ref.bound D <= n)%nat ->
  Ref.sameRef (fst (Ref.updateAtPath D (head :: rest) v n)) D = false.
Proof.
  intros Hres Hbound.
  destruct (updateAtPath_root_is_fresh D v head rest n Hres) as (D' & -> & Hroot).
  destruct D as [| | | | |a items|a obj]; simpl in Hres; try contradiction;
    destruct head; try contradiction; cbn [Ref.bound] in Hbound;
    destruct D' as [| | | | |a' ?|a' ?]; try contradiction; try reflexivity;
    subst a'; simpl; apply Nat.eqb_neq; lia.
Qed.

(** C1 as stated fails: a scalar on the way makes the write a no-op, so the
    value written is not read back. *)
Lemma updateAtPath_read_back_counterexample :
  [Key "c"; Index 0; Key "x"] <> [] /\
  Ref.read sampleDoc [Key "c"; Index 0; Key "x"] <> rnum 7 /\
  Ref.read (fst (Ref.updateAtPath sampleDoc [Key "c"; Index 0; Key "x"] (rnum 7) 3))
    [Key "c"; Index 0; Key "x"] <> rnum 7.
Proof.
  repeat split; vm_compute; discriminate.
Qed.

(** ** [deleteAtPath] on a path that addresses nothing *)

(** On a path that addresses a node the deletion is as the specification
    has it. *)
Example delete_first_item :
  deleteAtPath plainDoc [Key "c"; Index 0]
  = VObject [("a", VObject [("b", num 1)]); ("c", VArray [num 20])].
Proof. reflexivity. Qed.

(** Whatever the rest of the path addresses, a deletion two or more
    segments deep copies the container at the root. *)
Lemma deleteAtPath_deep_copies_root (D : Ref.rvalue) (head seg : JsonPathSegment)
  (rest : path) (n : Ref.addr) :
  resolves (Ref.erase D) [head] ->
  (Ref.bound D <= n)%nat ->
  Ref.sameRef (fst (Ref.deleteAtPath D (head :: seg :: rest) n)) D = false.
Proof.
  intros Hres Hbound. rewrite ref_deleteAtPath_deep.
  destruct D as [| | | | |a items|a obj]; simpl in Hres; try contradiction;
    destruct head; try contradiction; cbn [Ref.bound] in Hbound;
    match goal with
    | |- context [Ref.deleteAtPath ?c ?q ?m] =>
        destruct (Ref.deleteAtPath c q m) as [x n']
    end; simpl; apply Nat.eqb_neq; lia.
Qed.

(** C2 (the defect).  The path [c/5/x] addresses nothing in
    [{"c":[10,20]}], yet [deleteAtPath] returns a different document: the
    list has grown to six slots.  And where the value is kept, as for
    [a/z] in the sample document, the result is a new cell, not the
    input. *)
Theorem deleteAtPath_missing_target_not_identity :
  read listDoc [Key "c"; Index 5; Key "x"] = VUndefined /\
  deleteAtPath listDoc [Key "c"; Index 5; Key "x"]
  = VObject [("c", VArray [num 10; num 20; VUndefined; VUndefined;
                           VUndefined; VUndefined])] /\
  deleteAtPath listDoc [Key "c"; Index 5; Key "x"] <> listDoc /\
  Ref.read sampleDoc [Key "a"; Key "z"] = Ref.RUndefined /\
  Ref.erase (fst (Ref.deleteAtPath sampleDoc [Key "a"; Key "z"] 3))
  = Ref.erase sampleDoc /\
  Ref.sameRef (fst (Ref.deleteAtPath sampleDoc [Key "a"; Key "z"] 3)) sampleDoc
  = false.
Proof.
  repeat split; try reflexivity. vm_compute. discriminate.
Qed.

(** ** The expression-context analyzer *)

Lemma length_substring_0 (s : string) (n : nat) :
  (n <= String.length s)%nat -> String.length (String.substring 0 n s) = n.
Proof.
  revert n; induction s as [|c s IH]; intros [|n] Hle; simpl in *;
    try reflexivity; try lia.
  rewrite IH by lia. reflexivity.
Qed.

Lemma length_slice_0 (s : string) (k : Z) :
  (0 <= k <= Js.length s)%Z -> Js.length (Js.slice s 0 k) = k.
Proof.
  intros Hk. unfold Js.slice, Js.clampIndex, Js.length in *.
  replace (0 <? 0)%Z with false by reflexivity.
  destruct (k <? 0)%Z eqn:Hneg; [apply Z.ltb_lt in Hneg; lia|].
  rewrite Z.min_l, Z.min_l by lia. change (Z.to_nat 0) with O.
  rewrite length_substring_0 by lia. lia.
Qed.

Lemma findLastTopLevelDotFrom_range (s : string) (n : nat) :
  forall (depth : Z) (quote : option ascii),
    (-1 <= findLastTopLevelDotFrom s n depth quote < Z.of_nat n)%Z.
Proof.
  induction n as [|n IH]; intros depth quote; simpl findLastTopLevelDotFrom.
  - lia.
  - assert (Hstep : forall d q,
               (-1 <= findLastTopLevelDotFrom s n d q < Z.of_nat (S n))%Z)
      by (intros d q; specialize (IH d q); lia).
    destruct quote as [q|].
    + destruct (_ && _); apply Hstep.
    + repeat match goal with
             | |- context [if ?b then _ else _] => destruct b
             end; try apply Hstep; lia.
Qed.

Lemma findLastTopLevelDot_range (s : string) :
  (-1 <= findLastTopLevelDot s < Js.length s)%Z.
Proof. apply findLastTopLevelDotFrom_range. Qed.

Lemma lastOpenBracketFrom_range (rest : string) :
  forall (i : Z) (prev : option ascii) (lastBracket : Z) (inQuote : option ascii),
    (-1 <= lastBracket < i)%Z -> (0 <= i)%Z ->
    (-1 <= lastOpenBracketFrom rest i prev lastBracket inQuote
     < i + Z.of_nat (String.length rest))%Z.
Proof.
  induction rest as [|ch rest IH]; intros i prev lastBracket inQuote Hlb Hi;
    simpl lastOpenBracketFrom.
  - simpl. lia.
  - assert (Hstep : forall lb q, (-1 <= lb < i + 1)%Z ->
               (-1 <= lastOpenBracketFrom rest (i + 1) (Some ch) lb q
                < i + Z.of_nat (String.length (String ch rest)))%Z).
    { intros lb q Hlb'. specialize (IH (i + 1)%Z (Some ch) lb q Hlb').
      simpl String.length. lia. }
    destruct inQuote as [q|].
    + destruct (_ && _); apply Hstep; lia.
    + repeat match goal with
             | |- context [if ?b then _ else _] => destruct b
             end; apply Hstep; lia.
Qed.

Lemma lastOpenBracket_range (s : string) :
  (-1 <= lastOpenBracket s < Js.length s \/ lastOpenBracket s = -1)%Z.
Proof.
  unfold lastOpenBracket, Js.length.
  pose proof (lastOpenBracketFrom_range s 0%Z None (-1)%Z None) as H.
  left. apply H; lia.
Qed.

(** C10.  For every expression and every integer cursor,
    [getCompletionContext] returns a context (the function is total), and
    the replace range of that context satisfies
    [0 <= start <= end <= length(expr)], its end being the cursor clamped
    into [[0, length(expr)]]. *)
Theorem getCompletionContext_replace_range (expr : string) (cursor : Z) :
  (0 <= range_start (replaceOf (getCompletionContext expr cursor))
   <= range_end (replaceOf (getCompletionContext expr cursor)))%Z /\
  (range_end (replaceOf (getCompletionContext expr cursor)) <= Js.length expr)%Z /\
  range_end (replaceOf (getCompletionContext expr cursor))
  = Z.max 0 (Z.min cursor (Js.length expr)).
Proof.
  unfold getCompletionContext.
  set (safeCursor := Z.max 0 (Z.min cursor (Js.length expr))).
  assert (Hsafe : (0 <= safeCursor <= Js.length expr)%Z)
    by (unfold safeCursor, Js.length; lia).
  set (prefix := Js.slice expr 0 safeCursor).
  assert (Hlen : Js.length prefix = safeCursor) by now apply length_slice_0.
  pose proof (findLastTopLevelDot_range prefix) as Hdot.
  pose proof (lastOpenBracket_range prefix) as Hbr.
  destruct (negb (Js.startsWith prefix "$")); [simpl; lia|].
  destruct (1 <=? findLastTopLevelDot prefix)%Z eqn:Hge.
  - apply Z.leb_le in Hge.
    destruct (isChar "." _); simpl; [|lia].
    rewrite length_slice_0 by lia. lia.
  - destruct (0 <=? lastOpenBracket prefix)%Z eqn:Hge'; [|simpl; lia].
    apply Z.leb_le in Hge'.
    destruct (_ || _); [simpl; lia|].
    destruct (_ || _); simpl; lia.
Qed.

(** The bracket branch, when the dot scan lets it run: a filter or script
    segment behind the last open bracket yields the empty context. *)
Lemma trimStart_filter (after : string) :
  Js.startsWith after "?(" = true \/ Js.startsWith after "(" = true ->
  Js.trimStart after = after.
Proof.
  destruct after as [|c rest]; [reflexivity|]. simpl.
  intros [H|H]; apply andb_true_iff in H as [Hc _];
    apply Ascii.eqb_eq in Hc; subst c; reflexivity.
Qed.

Lemma getCompletionContext_filter_segment (expr : string) (cursor : Z) :
  Js.startsWith expr "$" = true ->
  (findLastTopLevelDot expr < 1)%Z ->
  (0 <= lastOpenBracket expr)%Z ->
  (Js.length expr <= cursor)%Z ->
  Js.startsWith (Js.sliceFrom expr (lastOpenBracket expr + 1)) "?(" = true
  \/ Js.startsWith (Js.sliceFrom expr (lastOpenBracket expr + 1)) "(" = true ->
  getCompletionContext expr cursor
  = CtxNone {| range_start := Js.length expr; range_end := Js.length expr |}.
Proof.
  intros Hroot Hdot Hbr Hcur Hfilter. unfold getCompletionContext.
  assert (Hlen : (0 <= Js.length expr)%Z) by (unfold Js.length; lia).
  replace (Z.max 0 (Z.min cursor (Js.length expr))) with (Js.length expr) by lia.
  assert (Hwhole : Js.slice expr 0 (Js.length expr) = expr).
  { unfold Js.slice, Js.clampIndex.
    destruct (Js.length expr <? 0)%Z eqn:Hneg; [apply Z.ltb_lt in Hneg; lia|].
    replace (0 <? 0)%Z with false by reflexivity.
    rewrite Z.min_l, Z.min_id, Z.sub_0_r, Z.max_l by lia.
    unfold Js.length. rewrite Nat2Z.id. change (Z.to_nat 0) with O.
    clear. induction expr as [|c e IH]; simpl; [reflexivity|now rewrite IH]. }
  rewrite Hwhole, Hroot. cbn [negb].
  destruct (1 <=? findLastTopLevelDot expr)%Z eqn:H1;
    [apply Z.leb_le in H1; lia|].
  destruct (0 <=? lastOpenBracket expr)%Z eqn:H0;
    [|apply Z.leb_gt in H0; lia].
  rewrite (trimStart_filter _ Hfilter).
  destruct Hfilter as [-> | ->]; [reflexivity|now rewrite orb_true_r].
Qed.

Example getCompletionContext_filter_without_dot :
  getCompletionContext "$[?(@" 5
  = CtxNone {| range_start := 5; range_end := 5 |}.
Proof. reflexivity. Qed.

(** C3 (the defect).  On [$.arr[?(@.x] with the cursor at the end, the
    backward scan takes the dot of [@.x] for a top-level dot, because the
    bracket that encloses it is still open; the context is a dot segment
    with base [$.arr[?(@] and partial [x], not the empty context. *)
Theorem getCompletionContext_inside_filter :
  findLastTopLevelDot "$.arr[?(@.x" = 9%Z /\
  getCompletionContext "$.arr[?(@.x" 11
  = CtxDot "$.arr[?(@" "x" {| range_start := 9; range_end := 11 |} /\
  (forall r, getCompletionContext "$.arr[?(@.x" 11 <> CtxNone r).
Proof.
  repeat split; try reflexivity. intros r. vm_compute. discriminate.
Qed.

(** ** PathCodec *)




(** *** Escaping and un-escaping *)

Lemma replaceAll2_other (a b r c : ascii) (s : string) :
  Ascii.eqb c a = false ->
  Js.replaceAll2 a b r (String c s) = String c (Js.replaceAll2 a b r s).
Proof.
  intros Hc. destruct s as [|d s]; simpl; [reflexivity|]. now rewrite Hc.
Qed.

Lemma replaceAll2_match (a b r : ascii) (s : string) :
  Js.replaceAll2 a b r (String a (String b s)) = String r (Js.replaceAll2 a b r s).
Proof. simpl. now rewrite !Ascii.eqb_refl. Qed.

Lemma replaceAll2_mismatch (a b r d : ascii) (s : string) :
  Ascii.eqb d b = false ->
  Js.replaceAll2 a b r (String a (String d s))
  = String a (Js.replaceAll2 a b r (String d s)).
Proof. intros Hd. simpl. now rewrite Hd, andb_false_r. Qed.

(** The first pass turns the escaped slashes back and leaves the escaped
    tildes alone. *)
Lemma unescape_first_pass (s : string) :
  Js.replaceAll2 "~" "1" "/" (escapeToken s) = escapeTilde s.
Proof.
  induction s as [|c s IH]; [reflexivity|]. simpl.
  destruct (Ascii.eqb_spec c "~") as [->|Htilde].
  - rewrite replaceAll2_mismatch by reflexivity.
    rewrite replaceAll2_other by reflexivity. now rewrite IH.
  - destruct (Ascii.eqb_spec c "/") as [->|Hslash].
    + rewrite replaceAll2_match. now rewrite IH.
    + rewrite replaceAll2_other by now apply Ascii.eqb_neq. now rewrite IH.
Qed.

Lemma unescape_second_pass (s : string) :
  Js.replaceAll2 "~" "0" "~" (escapeTilde s) = s.
Proof.
  induction s as [|c s IH]; [reflexivity|]. simpl.
  destruct (Ascii.eqb_spec c "~") as [->|Htilde].
  - rewrite replaceAll2_match. now rewrite IH.
  - rewrite replaceAll2_other by now apply Ascii.eqb_neq. now rewrite IH.
Qed.

Lemma decodeJsonPointerToken_escapeToken (s : string) :
  decodeJsonPointerToken (escapeToken s) = s.
Proof.
  unfold decodeJsonPointerToken.
  now rewrite unescape_first_pass, unescape_second_pass.
Qed.

Lemma contains_escapeToken (s : string) : contains "/" (escapeToken s) = false.
Proof.
  induction s as [|c s IH]; [reflexivity|]. simpl.
  destruct (Ascii.eqb_spec c "~") as [->|Htilde]; [exact IH|].
  destruct (Ascii.eqb_spec c "/") as [->|Hslash]; [exact IH|].
  simpl. rewrite IH, orb_false_r. now apply Ascii.eqb_neq.
Qed.

(** *** Splitting an encoded pointer *)

Lemma append_empty_r (s : string) : (s ++ "")%string = s.
Proof. induction s as [|c s IH]; simpl; [reflexivity|now rewrite IH]. Qed.

Lemma split_append (sep : ascii) (t r h : string) (rest : list string) :
  contains sep t = false ->
  Js.split sep r = h :: rest ->
  Js.split sep (t ++ r)%string = (t ++ h)%string :: rest.
Proof.
  intros Ht Hr. induction t as [|c t IH]; simpl in *; [exact Hr|].
  apply orb_false_iff in Ht as [Hc Ht]. rewrite Hc, (IH Ht). reflexivity.
Qed.

Lemma split_encode (p : path) :
  Js.split "/" (encode p)
  = "" :: map (fun seg => escapeToken (segmentToken seg)) p.
Proof.
  induction p as [|seg rest IH]; [reflexivity|].
  cbn [encode map]. change ("/" ++ ?x)%string with (String "/" x).
  cbn [Js.split]. rewrite Ascii.eqb_refl. f_equal.
  rewrite (split_append "/" _ _ "" _ (contains_escapeToken _) IH).
  now rewrite append_empty_r.
Qed.

(** *** Decimal numerals *)

Lemma allDigits_string_of_uint (d : Decimal.uint) :
  Js.allDigits (NilEmpty.string_of_uint d) = true.
Proof. induction d; simpl; auto. Qed.

Lemma isIndexToken_unorm (d : Decimal.uint) :
  Js.isIndexToken (NilZero.string_of_uint (Decimal.unorm d)) = true.
Proof.
  unfold Decimal.unorm.
  pose proof (nzhead_nonzero d) as Hnz.
  destruct (Decimal.nzhead d) as [|u|u|u|u|u|u|u|u|u|u]; try reflexivity;
    try (now destruct (Hnz u));
    simpl; apply allDigits_string_of_uint.
Qed.

Lemma to_uint_unorm (n : N) : Decimal.unorm (N.to_uint n) = N.to_uint n.
Proof.
  rewrite <- DecimalN.Unsigned.to_of, DecimalN.Unsigned.of_to. reflexivity.
Qed.

Lemma isIndexToken_decimal (n : N) : Js.isIndexToken (Js.decimal n) = true.
Proof.
  unfold Js.decimal. rewrite <- to_uint_unorm. apply isIndexToken_unorm.
Qed.

Lemma indexOfToken_decimal (n : N) : Js.indexOfToken (Js.decimal n) = n.
Proof.
  unfold Js.indexOfToken, Js.decimal.
  rewrite NilZero.usu.
  - apply DecimalN.Unsigned.of_to.
  - rewrite <- to_uint_unorm. apply unorm_nonnil.
Qed.

Lemma isDigit_not_special (c : ascii) :
  Js.isDigit c = true -> Ascii.eqb c "~" = false /\ Ascii.eqb c "/" = false.
Proof.
  intros Hd. split.
  - destruct (Ascii.eqb_spec c "~") as [->|]; [discriminate|reflexivity].
  - destruct (Ascii.eqb_spec c "/") as [->|]; [discriminate|reflexivity].
Qed.

Lemma escapeToken_digits (s : string) :
  Js.allDigits s = true -> escapeToken s = s.
Proof.
  induction s as [|c s IH]; [reflexivity|]. simpl. intros Hd.
  apply andb_true_iff in Hd as [Hc Hs].
  destruct (isDigit_not_special c Hc) as [-> ->]. now rewrite IH.
Qed.

Lemma allDigits_decimal (n : N) : Js.allDigits (Js.decimal n) = true.
Proof.
  unfold Js.decimal, NilZero.string_of_uint.
  destruct (N.to_uint n); try reflexivity; apply allDigits_string_of_uint.
Qed.

(** *** The decoder *)









(** *** The round trip *)

Lemma pointerWalk_resolves (p : path) :
  forall (current : value) (acc : path),
    resolves current p ->
    pointerWalk (map segmentToken p) current acc = acc ++ p.
Proof.
  induction p as [|seg rest IH]; intros current acc Hres; simpl.
  - now rewrite List.app_nil_r.
  - destruct current; simpl in Hres; try contradiction;
      destruct seg as [k|i]; try contradiction; simpl.
    + rewrite isIndexToken_decimal, indexOfToken_decimal.
      rewrite (IH _ _ Hres), <- List.app_assoc. reflexivity.
    + rewrite (IH _ _ Hres), <- List.app_assoc. reflexivity.
Qed.

Lemma encode_nonempty (seg : JsonPathSegment) (rest : path) :
  String.eqb (encode (seg :: rest)) "" = false /\
  Js.startsWith (encode (seg :: rest)) "/" = true.
Proof. split; reflexivity. Qed.

(** C8.  For every path [P] and document [D] such that every segment of
    [P] meets in [D] a node of the container kind it expects (a list for
    an Index, a mapping for a Key), decoding the encoding of [P] against
    [D] yields [P]: [jsonPointerToPath (encode P) D = P]. *)
Theorem pointer_round_trip (D : value) (P : path) :
  resolves D P -> jsonPointerToPath (encode P) D = Some P.
Proof.
  intros Hres. destruct P as [|seg rest]; [reflexivity|].
  unfold jsonPointerToPath.
  destruct (encode_nonempty seg rest) as [-> ->]. cbn [negb].
  rewrite split_encode. cbn [tl]. rewrite map_map.
  rewrite (map_ext _ segmentToken).
  - now rewrite pointerWalk_resolves.
  - intros [k|i]; simpl.
    + apply decodeJsonPointerToken_escapeToken.
    + rewrite escapeToken_digits by apply allDigits_decimal.
      rewrite <- (escapeToken_digits (Js.decimal i)) at 1
        by apply allDigits_decimal.
      apply decodeJsonPointerToken_escapeToken.
Qed.

Lemma pointer_round_trip_witness :
  resolves pointerDoc [Key "a/b"; Index 1; Key "~"] /\
  encode [Key "a/b"; Index 1; Key "~"] = "/a~1b/1/~0" /\
  jsonPointerToPath (encode [Key "a/b"; Index 1; Key "~"]) pointerDoc
  = Some [Key "a/b"; Index 1; Key "~"].
Proof.
  split; [exact I|]. split; [reflexivity|].
  apply (pointer_round_trip pointerDoc [Key "a/b"; Index 1; Key "~"]).
  exact I.
Defined.

(** ** [renameKeyAtPath] *)

Lemma renameTarget_undefined (p : path) :
  fold_left renameTargetStep p VUndefined = VUndefined.
Proof. induction p as [|seg p IH]; simpl; auto. Qed.

Lemma nth_undefined_beyond (items : list value) (n : nat) :
  (List.length items <= n)%nat -> nth n items VUndefined = VUndefined.
Proof. intros H. now apply nth_overflow. Qed.

Lemma obj_get_not_own (props : list (string * value)) (k : string) :
  has_own props k = false -> obj_get VUndefined props k = VUndefined.
Proof.
  induction props as [|[k' v'] rest IH]; simpl; [reflexivity|].
  intros H. apply orb_false_iff in H as [-> H]. auto.
Qed.

Lemma read_undefined (p : path) : read VUndefined p = VUndefined.
Proof. now destruct p. Qed.

Lemma obj_get_own (props : list (string * value)) (k : string) :
  obj_get VUndefined props k <> VUndefined -> has_own props k = true.
Proof.
  intros H. destruct (has_own props k) eqn:E; [reflexivity|].
  exfalso; apply H. now apply obj_get_not_own.
Qed.

Lemma read_defined_head (v : value) (p : path) :
  read v p <> VUndefined -> v <> VUndefined.
Proof. intros H E; subst v. now rewrite read_undefined in H. Qed.

(** The reducer follows [read] wherever [read] finds a node. *)
Lemma renameTarget_addressed (p : path) :
  forall D : value,
    read D p <> VUndefined -> fold_left renameTargetStep p D = read D p.
Proof.
  induction p as [|seg rest IH]; intros D H; simpl in *; [reflexivity|].
  destruct D; try (now elim H); destruct seg; try (now elim H); simpl; auto.
Qed.

Lemma renameTarget_read (p : path) :
  forall (D : value) (props : list (string * value)),
    read D p = VObject props -> fold_left renameTargetStep p D = VObject props.
Proof.
  intros D props H. rewrite renameTarget_addressed; [exact H|].
  rewrite H. discriminate.
Qed.

(** *** Assignments *)

Lemma inherited_proto : inherited "__proto__" = true.
Proof. reflexivity. Qed.

Lemma obj_assign_own {A : Type} (props : list (string * A)) (k : string) (v : A) :
  has_own props k = true -> obj_assign props k v = obj_set props k v.
Proof. intros H. unfold obj_assign. now rewrite H, andb_false_r. Qed.

Lemma obj_assign_plain {A : Type} (props : list (string * A)) (k : string)
  (v : A) :
  k <> "__proto__" -> obj_assign props k v = obj_set props k v.
Proof.
  intros H. unfold obj_assign. now rewrite (proj2 (String.eqb_neq _ _) H).
Qed.

Lemma has_own_head_neq {A : Type} (props : list (string * A)) (k k' : string)
  (v : A) :
  has_own ((k', v) :: props) k = false -> k' <> k /\ has_own props k = false.
Proof.
  simpl. intros H. apply orb_false_iff in H as [H1 H2].
  split; [now apply String.eqb_neq|exact H2].
Qed.


(** *** Rebuilding a mapping entry by entry *)

Lemma has_own_false_iff (props : list (string * value)) (k : string) :
  has_own props k = false <-> ~ In k (map fst props).
Proof.
  induction props as [|[k' v'] rest IH]; simpl; [tauto|].
  rewrite orb_false_iff, IH.
  destruct (String.eqb_spec k' k); intuition congruence.
Qed.

Lemma obj_insert_last (props : list (string * value)) (k : string) (v : value) :
  Forall (fun k' => before k' k = true) (map fst props) ->
  obj_insert props k v = props ++ [(k, v)].
Proof.
  induction props as [|[k' v'] rest IH]; simpl; intros H; [reflexivity|].
  inversion H as [|? ? Hk Hrest]; subst. rewrite Hk, IH by assumption.
  reflexivity.
Qed.

Lemma sorted_before_middle (l1 l2 : list string) (k : string) :
  StronglySorted precedes (l1 ++ k :: l2) ->
  Forall (fun k' => before k' k = true) l1.
Proof.
  induction l1 as [|a l1 IH]; simpl; intros H; [constructor|].
  apply StronglySorted_inv in H as [Hs Hall]. constructor.
  - rewrite Forall_forall in Hall. apply Hall, in_elt.
  - now apply IH.
Qed.

Lemma rebuild_in_order (entries : list (string * value)) :
  forall acc : list (string * value),
    ownKeyOrder (map fst (acc ++ entries)) ->
    fold_left (fun result kv => obj_set result (fst kv) (snd kv)) entries acc
    = acc ++ entries.
Proof.
  induction entries as [|[k v] entries IH]; intros acc [Hnodup Hsorted]; simpl.
  - now rewrite List.app_nil_r.
  - rewrite map_app in Hnodup, Hsorted. simpl in Hnodup, Hsorted.
    assert (Hfresh : has_own acc k = false).
    { apply has_own_false_iff. intros Hin.
      apply NoDup_remove_2 in Hnodup. apply Hnodup, in_or_app. now left. }
    unfold obj_set at 2. rewrite Hfresh.
    rewrite obj_insert_last by (eapply sorted_before_middle, Hsorted).
    rewrite IH; rewrite <- List.app_assoc; [reflexivity|].
    split; now rewrite map_app.
Qed.

Lemma defineAll_in_order (props : list (string * value)) :
  ownKeyOrder (map fst props) -> defineAll props = props.
Proof. intros H. apply (rebuild_in_order props []), H. Qed.

(** Without a sibling key [__proto__] the assignments of the loop define
    the entries. *)
Lemma renameEntries_defineAll (oldKey newKey : string)
  (props : list (string * value)) :
  has_own (siblings oldKey props) "__proto__" = false ->
  newKey <> "__proto__" ->
  renameEntries oldKey newKey props
  = defineAll (substituteKey oldKey newKey props).
Proof.
  intros Hproto Hnew. unfold renameEntries, defineAll, substituteKey.
  generalize (@nil (string * value)).
  induction props as [|[k v] rest IH]; intros acc; simpl; [reflexivity|].
  cbn [siblings filter fst] in Hproto.
  destruct (String.eqb k oldKey); cbn [negb] in Hproto.
  - rewrite <- (IH Hproto). now rewrite obj_assign_plain.
  - apply has_own_head_neq in Hproto as [Hk Hrest].
    rewrite <- (IH Hrest). now rewrite obj_assign_plain.
Qed.

Lemma before_substitute (oldKey newKey k' k : string) :
  isArrayIndex oldKey = false -> isArrayIndex newKey = false ->
  before (if String.eqb k' oldKey then newKey else k')
         (if String.eqb k oldKey then newKey else k)
  = before k' k.
Proof.
  intros Hold Hnew. unfold before.
  destruct (String.eqb_spec k oldKey) as [->|_];
    destruct (String.eqb_spec k' oldKey) as [->|_];
    rewrite ?Hold, ?Hnew; reflexivity.
Qed.

Lemma NoDup_substitute (oldKey newKey : string) (keys : list string) :
  ~ In newKey keys -> NoDup keys ->
  NoDup (map (fun k => if String.eqb k oldKey then newKey else k) keys).
Proof.
  intros Hnotin Hnodup. induction keys as [|k keys IH]; simpl; [constructor|].
  inversion Hnodup as [|? ? Hk Hrest]; subst. constructor.
  - rewrite in_map_iff. intros (k' & Heq & Hin).
    destruct (String.eqb_spec k oldKey) as [E1|E1];
      destruct (String.eqb_spec k' oldKey) as [E2|E2].
    + apply Hk. rewrite E1, <- E2. exact Hin.
    + apply Hnotin. right. rewrite <- Heq. exact Hin.
    + apply Hnotin. left. now symmetry.
    + apply Hk. rewrite <- Heq. exact Hin.
  - apply IH; [simpl in Hnotin; tauto|assumption].
Qed.

Lemma ownKeyOrder_substitute (oldKey newKey : string) (keys : list string) :
  isArrayIndex oldKey = false -> isArrayIndex newKey = false ->
  ~ In newKey keys -> ownKeyOrder keys ->
  ownKeyOrder (map (fun k => if String.eqb k oldKey then newKey else k) keys).
Proof.
  intros Hold Hnew Hnotin [Hnodup Hsorted]. split.
  - now apply NoDup_substitute.
  - clear Hnodup Hnotin. induction Hsorted as [|k keys Hs IH Hall]; simpl;
      constructor; [assumption|].
    rewrite Forall_map. eapply Forall_impl; [|exact Hall].
    intros k' Hb. unfold precedes in *. now rewrite before_substitute.
Qed.

Lemma map_fst_substituteKey (oldKey newKey : string)
  (props : list (string * value)) :
  map fst (substituteKey oldKey newKey props)
  = map (fun k => if String.eqb k oldKey then newKey else k) (map fst props).
Proof. unfold substituteKey. now rewrite !map_map. Qed.

(** A mapping in enumeration order is rebuilt entry for entry when the two
    keys are not array indices. *)
Lemma renameEntries_in_place (oldKey newKey : string)
  (props : list (string * value)) :
  has_own (siblings oldKey props) "__proto__" = false ->
  newKey <> "__proto__" ->
  ownKeyOrder (map fst props) ->
  isArrayIndex oldKey = false -> isArrayIndex newKey = false ->
  has_own props newKey = false ->
  renameEntries oldKey newKey props = substituteKey oldKey newKey props.
Proof.
  intros Hproto Hnp Horder Hold Hnew Hfresh.
  rewrite renameEntries_defineAll by assumption. apply defineAll_in_order.
  rewrite map_fst_substituteKey. apply ownKeyOrder_substitute; auto.
  now apply has_own_false_iff.
Qed.

(** *** Array-index keys: what the rebuild keeps in every case *)






Lemma has_own_obj_insert (props : list (string * value)) (k k' : string)
  (v : value) :
  has_own (obj_insert props k v) k' = String.eqb k k' || has_own props k'.
Proof.
  induction props as [|[k0 v0] rest IH]; simpl; [reflexivity|].
  destruct (before k0 k); simpl; [|reflexivity].
  rewrite IH. now destruct (String.eqb k0 k'), (String.eqb k k').
Qed.





Lemma siblings_all (k : string) (props : list (string * value)) :
  has_own props k = false -> siblings k props = props.
Proof.
  induction props as [|[k0 v0] rest IH]; simpl; [reflexivity|].
  intros H. apply orb_false_iff in H as [-> H]. simpl. now rewrite IH.
Qed.


Lemma sorted_siblings (k : string) (props : list (string * value)) :
  StronglySorted precedes (map fst props) ->
  StronglySorted precedes (map fst (siblings k props)).
Proof.
  induction props as [|[k0 v0] rest IH]; simpl; intros H; [constructor|].
  apply StronglySorted_inv in H as [Hs Hall].
  destruct (String.eqb k0 k); simpl; [now apply IH|].
  constructor; [now apply IH|].
  rewrite Forall_forall in *. intros x Hx. apply Hall.
  rewrite in_map_iff in *. destruct Hx as (kv & <- & Hin).
  exists kv. split; [reflexivity|]. unfold siblings in Hin.
  now apply filter_In in Hin.
Qed.





(** The value of every key after the rebuild. *)
Lemma has_own_obj_set (props : list (string * value)) (k k' : string) (v : value) :
  has_own (obj_set props k v) k' = String.eqb k k' || has_own props k'.
Proof.
  unfold obj_set. destruct (has_own props k) eqn:Hown.
  - induction props as [|[k0 v0] rest IH]; simpl in *; [discriminate|].
    destruct (String.eqb_spec k0 k) as [->|Hne]; simpl.
    + now destruct (String.eqb k k').
    + rewrite IH by exact Hown. now destruct (String.eqb k0 k'), (String.eqb k k').
  - apply has_own_obj_insert.
Qed.

Lemma obj_get_rebuild (k : string) (entries : list (string * value)) :
  forall acc : list (string * value),
    NoDup (map fst entries) ->
    obj_get VUndefined
      (fold_left (fun result kv => obj_set result (fst kv) (snd kv)) entries acc) k
    = if has_own entries k then obj_get VUndefined entries k
      else obj_get VUndefined acc k.
Proof.
  induction entries as [|[k' v'] entries IH]; intros acc Hnodup; simpl;
    [reflexivity|].
  inversion Hnodup as [|? ? Hk Hnodup']; subst. rewrite IH by exact Hnodup'.
  destruct (String.eqb_spec k' k) as [->|Hne]; simpl.
  - replace (has_own entries k) with false
      by (symmetry; now apply has_own_false_iff).
    apply obj_get_set_eq.
  - destruct (has_own entries k); [reflexivity|]. now apply obj_get_set_neq.
Qed.

Lemma has_own_rebuild (k : string) (entries : list (string * value)) :
  forall acc : list (string * value),
    has_own
      (fold_left (fun result kv => obj_set result (fst kv) (snd kv)) entries acc) k
    = has_own entries k || has_own acc k.
Proof.
  induction entries as [|[k' v'] entries IH]; intros acc; simpl; [reflexivity|].
  rewrite IH, has_own_obj_set.
  now destruct (String.eqb k' k), (has_own entries k).
Qed.

Lemma obj_get_substituteKey (oldKey newKey : string)
  (props : list (string * value)) :
  has_own props newKey = false ->
  obj_get VUndefined (substituteKey oldKey newKey props) newKey
  = obj_get VUndefined props oldKey /\
  has_own (substituteKey oldKey newKey props) newKey = has_own props oldKey.
Proof.
  induction props as [|[k v] rest IH]; simpl; [now split|].
  intros H. apply orb_false_iff in H as [Hk H]. destruct (IH H) as [IH1 IH2].
  destruct (String.eqb k oldKey); simpl.
  - rewrite String.eqb_refl. now split.
  - rewrite Hk. now split.
Qed.

Lemma has_own_substituteKey_old (oldKey newKey : string)
  (props : list (string * value)) :
  oldKey <> newKey -> has_own (substituteKey oldKey newKey props) oldKey = false.
Proof.
  intros Hne. induction props as [|[k v] rest IH]; simpl; [reflexivity|].
  rewrite IH, orb_false_r.
  destruct (String.eqb_spec k oldKey) as [->|Hk]; apply String.eqb_neq; congruence.
Qed.

(** *** The entries of the rebuilt mapping *)




Lemma inherited_not_proto (k : string) : inherited k = false -> k <> "__proto__".
Proof. intros H ->. discriminate. Qed.


(** *** The labelled rename *)


Section MapAssign.
Context {A C : Type} (f : A -> C).




End MapAssign.







(** The end-to-end example of the specification. *)
Example rename_then_read :
  read (renameKeyAtPath plainDoc [] "a" "z") [Key "z"; Key "b"] = num 1.
Proof. reflexivity. Qed.

(** ** The pointer-driven edit *)

Lemma updateAtPath_blocked (p : path) :
  forall (D v : value), blocked D p -> updateAtPath D p v = D.
Proof.
  induction p as [|seg rest IH]; intros D v Hb; simpl in *; [contradiction|].
  destruct D as [| | | | |items|props]; try reflexivity;
    destruct seg as [k|i]; try reflexivity; destruct Hb as [Hin Hb].
  - rewrite (IH _ _ Hb). unfold arr_set, arr_get. now rewrite list_set_same.
  - rewrite (IH _ _ Hb). unfold obj_set. rewrite Hin. now rewrite obj_replace_same.
Qed.

Lemma blocked_read_undefined (p : path) :
  forall D : value, blocked D p -> read D p = VUndefined.
Proof.
  induction p as [|seg rest IH]; intros D Hb; simpl in *; [contradiction|].
  destruct D; try reflexivity; destruct seg; try reflexivity;
    destruct Hb as [_ Hb]; now apply IH.
Qed.

(** C6 (as amended).  A malformed pointer drops the edit: the state stays
    as it was.  A well-formed pointer never raises: the document becomes
    [updateAtPath parsed path v] for the decoded path (unless no document
    is loaded or an error is shown).  That leaves the document unchanged
    when the path addresses nothing because it runs into a node that is
    there but is not a container of the kind the next segment expects. *)
Theorem handleEditAtPointer_spec (B : Builtins) (ptr : string) (v : value)
  (st : AppState) :
  (jsonPointerToPath ptr (parsed st) = None ->
   handleEditAtPointer B ptr v st = st) /\
  (forall p, jsonPointerToPath ptr (parsed st) = Some p ->
     parsed (handleEditAtPointer B ptr v st)
     = if isNull (parsed st) || truthy (error st) then parsed st
       else updateAtPath (parsed st) p v) /\
  (forall p, jsonPointerToPath ptr (parsed st) = Some p ->
     blocked (parsed st) p ->
     read (parsed st) p = VUndefined /\
     parsed (handleEditAtPointer B ptr v st) = parsed st).
Proof.
  unfold handleEditAtPointer, handleEditValue.
  destruct (isNull (parsed st)) eqn:Hnull; simpl.
  - split; [reflexivity|]. split; [reflexivity|].
    intros p _ Hb. split; [now apply blocked_read_undefined|reflexivity].
  - split; [now intros ->|]. split.
    + intros p ->. now destruct (truthy (error st)).
    + intros p -> Hb. split; [now apply blocked_read_undefined|].
      destruct (truthy (error st)); [reflexivity|]. simpl.
      now apply updateAtPath_blocked.
Qed.

Lemma handleEditAtPointer_spec_witness :
  jsonPointerToPath "/a/b" (parsed sampleState) = Some [Key "a"; Key "b"] /\
  blocked (parsed sampleState) [Key "a"; Key "b"] /\
  read (parsed sampleState) [Key "a"; Key "b"] = VUndefined /\
  parsed (handleEditAtPointer sampleBuiltins "/a/b" (num 2) sampleState)
  = parsed sampleState.
Proof.
  split; [reflexivity|]. split; [now split|].
  apply (proj2 (proj2 (handleEditAtPointer_spec sampleBuiltins "/a/b" (num 2)
                         sampleState)) [Key "a"; Key "b"] eq_refl).
  now split.
Defined.

(** C6 as stated fails: the pointer [/b] addresses nothing in [{"a":1}],
    and the edit creates the entry. *)
Lemma handleEditAtPointer_creates_entry :
  jsonPointerToPath "/b" (parsed sampleState) = Some [Key "b"] /\
  read (parsed sampleState) [Key "b"] = VUndefined /\
  parsed (handleEditAtPointer sampleBuiltins "/b" (num 2) sampleState)
  = VObject [("a", num 1); ("b", num 2)] /\
  parsed (handleEditAtPointer sampleBuiltins "/b" (num 2) sampleState)
  <> parsed sampleState.
Proof.
  repeat split; try reflexivity. vm_compute. discriminate.
Qed.

(** ** The cell editor *)

(** C7 (as amended).  For a cell whose original value is a number: empty
    text and the token [null] commit [null]; any other text is parsed as a
    number, a result that is not finite raises the validation message and
    commits nothing (the application state stays as it was), a finite one
    is committed.  For a cell whose original value is a boolean, the
    replacement is a boolean exactly when the trimmed text is the literal
    token [true] or [false]. *)
Theorem commitCellEditor_typed (B : Builtins) (ed : CellEditor) :
  (forall s b, JSON_parse B (Js.trim s) = Some (VBool b) ->
               Js.trim s = boolToken b) ->
  (forall n, originalValue ed = VNumber n ->
     commitCellEditor B true (Some ed)
     = if String.eqb (Js.trim (text ed)) "" || String.eqb (Js.trim (text ed)) "null"
       then Commit (pointer ed) VNull
       else if isFinite (Number B (Js.trim (text ed)))
            then Commit (pointer ed) (VNumber (Number B (Js.trim (text ed))))
            else Invalid "jsonViewer.error.invalidNumber") /\
  (forall msg st, applyOutcome B (Invalid msg) st = st) /\
  (forall b0 b, originalValue ed = VBool b0 ->
     (commitCellEditor B true (Some ed) = Commit (pointer ed) (VBool b)
      <-> Js.trim (text ed) = boolToken b)).
Proof.
  intros Hparse. split; [|split].
  - intros n Horig. unfold commitCellEditor. rewrite Horig.
    destruct (_ || _); [reflexivity|].
    now destruct (isFinite _).
  - reflexivity.
  - intros b0 b Horig. unfold commitCellEditor. rewrite Horig.
    set (trimmed := Js.trim (text ed)).
    destruct (String.eqb_spec trimmed "true") as [Ht|Ht].
    { rewrite Ht. destruct b; simpl; split; congruence. }
    destruct (String.eqb_spec trimmed "false") as [Hf|Hf].
    { rewrite Hf. destruct b; simpl; split; congruence. }
    assert (Hno : trimmed <> boolToken b) by (destruct b; assumption).
    split; [|intros Heq; contradiction].
    intros Hcommit. exfalso.
    destruct (String.eqb trimmed "" || String.eqb trimmed "null") eqn:Hnull.
    { discriminate. }
    destruct (String.eqb trimmed "") eqn:Hempty; [discriminate|].
    simpl in Hcommit.
    destruct (JSON_parse B trimmed) as [parsedText|] eqn:Hp.
    + injection Hcommit as ->. apply Hno, Hparse, Hp.
    + repeat match type of Hcommit with
             | context [if ?c then _ else _] => destruct c
             end; discriminate.
Qed.

Lemma sampleBuiltins_boolean (s : string) (b : bool) :
  JSON_parse sampleBuiltins (Js.trim s) = Some (VBool b) ->
  Js.trim s = boolToken b.
Proof.
  simpl. repeat match goal with
                | |- context [String.eqb ?x ?y] =>
                    destruct (String.eqb_spec x y) as [->|?]
                end; intros [=]; subst; reflexivity.
Qed.

Lemma commitCellEditor_typed_witness :
  (forall s b, JSON_parse sampleBuiltins (Js.trim s) = Some (VBool b) ->
               Js.trim s = boolToken b) /\
  (forall n, originalValue (numberCell "abc") = VNumber n ->
     commitCellEditor sampleBuiltins true (Some (numberCell "abc"))
     = if String.eqb (Js.trim (text (numberCell "abc"))) ""
          || String.eqb (Js.trim (text (numberCell "abc"))) "null"
       then Commit (pointer (numberCell "abc")) VNull
       else if isFinite (Number sampleBuiltins (Js.trim (text (numberCell "abc"))))
            then Commit (pointer (numberCell "abc"))
                   (VNumber (Number sampleBuiltins (Js.trim (text (numberCell "abc")))))
            else Invalid "jsonViewer.error.invalidNumber") /\
  (forall msg st, applyOutcome sampleBuiltins (Invalid msg) st = st) /\
  (forall b0 b, originalValue (numberCell "abc") = VBool b0 ->
     (commitCellEditor sampleBuiltins true (Some (numberCell "abc"))
      = Commit (pointer (numberCell "abc")) (VBool b)
      <-> Js.trim (text (numberCell "abc")) = boolToken b)).
Proof.
  split; [exact sampleBuiltins_boolean|].
  exact (commitCellEditor_typed sampleBuiltins (numberCell "abc")
           sampleBuiltins_boolean).
Defined.

Example commitCellEditor_rejects_text :
  commitCellEditor sampleBuiltins true (Some (numberCell "abc"))
  = Invalid "jsonViewer.error.invalidNumber".
Proof. reflexivity. Qed.

Example commitCellEditor_boolean_token :
  commitCellEditor sampleBuiltins true (Some (booleanCell " true "))
  = Commit "/a" (VBool true).
Proof. reflexivity. Qed.

(** C7 as stated fails: in a number cell the text [null] is not a number
    ([Number] yields [NaN] on it), yet the edit does not fail: [null] is
    committed and the document changes. *)
Lemma commitCellEditor_null_counterexample :
  isFinite (Number sampleBuiltins (Js.trim "null")) = false /\
  commitCellEditor sampleBuiltins true (Some (numberCell "null")) = Commit "/a" VNull /\
  parsed (applyOutcome sampleBuiltins
            (commitCellEditor sampleBuiltins true (Some (numberCell "null")))
            sampleState)
  = VObject [("a", VNull)].
Proof. repeat split. Qed.

(** ** The nested decoder *)

Section NestedDecoder.
Variable B : Builtins.

Lemma wellFormed_array (items : list value) :
  wellFormed (VArray items) <-> Forall wellFormed items.
Proof.
  simpl. induction items as [|x l IH]; [now split|].
  rewrite IH. split; [intros []; now constructor|now inversion 1].
Qed.

Lemma wellFormed_object (props : list (string * value)) :
  wellFormed (VObject props)
  <-> ownKeyOrder (map fst props) /\ Forall (fun kv => wellFormed (snd kv)) props.
Proof.
  simpl. apply and_iff_compat_l.
  induction props as [|x l IH]; [now split|].
  rewrite IH. split; [intros []; now constructor|now inversion 1].
Qed.

Lemma settled_array (items : list value) :
  settled B (VArray items) <-> Forall (settled B) items.
Proof.
  simpl. induction items as [|x l IH]; [now split|].
  rewrite IH. split; [intros []; now constructor|now inversion 1].
Qed.

Lemma settled_object (props : list (string * value)) :
  settled B (VObject props)
  <-> ownKeyOrder (map fst props) /\ has_own props "__proto__" = false
      /\ Forall (fun kv => settled B (snd kv)) props.
Proof.
  cbn [settled]. apply and_iff_compat_l, and_iff_compat_l.
  induction props as [|x l IH]; [now split|].
  rewrite IH. split; [intros []; now constructor|now inversion 1].
Qed.

(** The loop of the decoder leaves out an entry under [__proto__], whose
    assignment runs the inherited setter, and defines the others. *)
Lemma assign_skips_proto (entries : list (string * value)) :
  forall acc : list (string * value),
    has_own acc "__proto__" = false ->
    fold_left (fun result kv => obj_assign result (fst kv) (snd kv)) entries acc
    = fold_left (fun result kv => obj_set result (fst kv) (snd kv))
        (siblings "__proto__" entries) acc.
Proof.
  induction entries as [|[k v] entries IH]; intros acc Hacc; [reflexivity|].
  cbn [fold_left siblings filter fst snd].
  destruct (String.eqb_spec k "__proto__") as [->|Hk]; cbn [negb].
  - unfold obj_assign. rewrite Hacc. cbn. now apply IH.
  - cbn [fold_left fst snd]. rewrite obj_assign_plain by exact Hk.
    apply IH. rewrite has_own_obj_set, Hacc.
    now rewrite (proj2 (String.eqb_neq _ _) Hk).
Qed.

Lemma NoDup_siblings (k : string) (props : list (string * value)) :
  NoDup (map fst props) -> NoDup (map fst (siblings k props)).
Proof.
  induction props as [|[k0 v0] rest IH]; simpl; intros H; [constructor|].
  inversion H as [|? ? Hk Hrest]; subst.
  destruct (String.eqb k0 k); simpl; [now apply IH|].
  constructor; [|now apply IH].
  intros Hin. apply Hk. rewrite in_map_iff in *.
  destruct Hin as (kv & E & Hin). exists kv. split; [exact E|].
  unfold siblings in Hin. now apply filter_In in Hin.
Qed.

Lemma has_own_siblings (k : string) (props : list (string * value)) :
  has_own (siblings k props) k = false.
Proof.
  induction props as [|[k0 v0] rest IH]; simpl; [reflexivity|].
  destruct (String.eqb k0 k) eqn:E; simpl; [exact IH|]. now rewrite E.
Qed.

Lemma Forall_siblings (P : string * value -> Prop) (k : string)
  (props : list (string * value)) :
  Forall P props -> Forall P (siblings k props).
Proof.
  rewrite !Forall_forall. intros H kv Hin. apply H.
  unfold siblings in Hin. now apply filter_In in Hin.
Qed.

Lemma buildObject_in_order (props : list (string * value)) :
  ownKeyOrder (map fst props) -> buildObject props = siblings "__proto__" props.
Proof.
  intros [Hnodup Hsorted]. unfold buildObject.
  rewrite assign_skips_proto by reflexivity.
  apply (rebuild_in_order _ []). split;
    [now apply NoDup_siblings | now apply sorted_siblings].
Qed.

Hypothesis parse_wellFormed :
  forall s v, JSON_parse B s = Some v -> wellFormed v.

(** What the decoder returns is settled. *)
Lemma decodeValueN_settled (fuel : nat) :
  forall v V, wellFormed v -> decodeValueN B fuel v = Some V -> settled B V.
Proof.
  induction fuel as [|fuel IH]; intros v V Hwf Hdec; [discriminate|].
  destruct v as [| | | |s|items|props]; simpl in Hdec;
    try (injection Hdec as <-; exact I).
  - destruct (tryParseJson B s) as [parsedText|] eqn:Hp.
    + apply (IH parsedText V); [|exact Hdec].
      unfold tryParseJson in Hp. destruct (negb _); [discriminate|].
      eapply parse_wellFormed, Hp.
    + injection Hdec as <-. exact Hp.
  - destruct (mapM (decodeValueN B fuel) items) as [Vs|] eqn:Hm; [|discriminate].
    injection Hdec as <-. apply settled_array.
    apply wellFormed_array in Hwf. clear -IH Hwf Hm.
    revert Vs Hm; induction Hwf as [|x l Hx Hl IHl]; intros Vs Hm; simpl in Hm.
    + injection Hm as <-. constructor.
    + destruct (decodeValueN B fuel x) eqn:Hx'; [|discriminate].
      destruct (mapM (decodeValueN B fuel) l); [|discriminate].
      injection Hm as <-. constructor; [eapply IH; eassumption|now apply IHl].
  - destruct (mapM _ props) as [entries|] eqn:Hm; [|discriminate].
    injection Hdec as <-. apply wellFormed_object in Hwf as [Horder Hwf].
    assert (Hkeys : map fst entries = map fst props
                    /\ Forall (fun kv => settled B (snd kv)) entries).
    { clear Horder. revert entries Hm.
      induction Hwf as [|[k x] l Hx Hl IHl]; intros entries Hm; simpl in Hm.
      - injection Hm as <-. now split.
      - destruct (decodeValueN B fuel x) eqn:Hx'; [|discriminate]. simpl in Hm.
        destruct (mapM _ l); [|discriminate].
        injection Hm as <-. destruct (IHl _ eq_refl) as [Hk Hs].
        split; [simpl; now rewrite Hk|].
        constructor; [simpl; eapply IH; eassumption|exact Hs]. }
    destruct Hkeys as [Hkeys Hsettled].
    rewrite buildObject_in_order by now rewrite Hkeys.
    rewrite <- Hkeys in Horder. destruct Horder as [Hnodup Hsorted].
    apply settled_object. split; [split|split].
    + now apply NoDup_siblings.
    + now apply sorted_siblings.
    + apply has_own_siblings.
    + now apply Forall_siblings.
Qed.

Lemma weight_item (items : list value) (x : value) :
  In x items -> (weight x <= list_sum (map weight items))%nat.
Proof.
  induction items as [|y l IH]; simpl; [contradiction|].
  intros [->|Hin]; [lia|]. specialize (IH Hin). lia.
Qed.

Lemma weight_entry (props : list (string * value)) (kv : string * value) :
  In kv props ->
  (weight (snd kv) <= list_sum (map (fun kv => weight (snd kv)) props))%nat.
Proof.
  induction props as [|y l IH]; simpl; [contradiction|].
  intros [->|Hin]; [lia|]. specialize (IH Hin). lia.
Qed.

Lemma mapM_fixed {A : Type} (f : A -> option A) (l : list A) :
  Forall (fun x => f x = Some x) l -> mapM f l = Some l.
Proof.
  induction 1 as [|x l Hx Hl IH]; simpl; [reflexivity|]. now rewrite Hx, IH.
Qed.

(** The decoder leaves a settled value as it is. *)
Lemma decodeValueN_fixed (fuel : nat) :
  forall V, settled B V -> (weight V < fuel)%nat -> decodeValueN B fuel V = Some V.
Proof.
  induction fuel as [|fuel IH]; intros V Hs Hfuel; [lia|].
  destruct V as [| | | |s|items|props]; simpl; try reflexivity.
  - simpl in Hs. now rewrite Hs.
  - apply settled_array in Hs. rewrite mapM_fixed; [reflexivity|].
    rewrite Forall_forall in *. intros x Hin. apply IH; [now apply Hs|].
    pose proof (weight_item _ _ Hin). simpl in Hfuel. lia.
  - apply settled_object in Hs as (Horder & Hproto & Hs).
    rewrite mapM_fixed.
    + simpl. now rewrite buildObject_in_order, siblings_all.
    + rewrite Forall_forall in *. intros [k x] Hin. simpl.
      rewrite IH; [reflexivity|exact (Hs _ Hin)|].
      pose proof (weight_entry _ _ Hin). simpl in *. lia.
Qed.

End NestedDecoder.

(** C9.  Whenever [decodeNestedJson] succeeds on an input with result [V],
    decoding [V] again changes nothing: [decodeValue V = V].  ([JSON.parse]
    is any function whose results are well formed.) *)
Theorem decodeNestedJson_idempotent (B : Builtins) (input : string) (V : value) :
  (forall s v, JSON_parse B s = Some v -> wellFormed v) ->
  decodeNestedJson B input = Decoded V ->
  decodeValue B V = Some V.
Proof.
  intros Hwf Hdec. unfold decodeNestedJson in Hdec.
  destruct (JSON_parse B input) as [root|] eqn:Hroot; [|discriminate].
  destruct (decodeValue B root) as [V'|] eqn:HV; [|discriminate].
  injection Hdec as ->. unfold decodeValue in *.
  apply decodeValueN_fixed; [|lia].
  eapply decodeValueN_settled; [exact Hwf|eapply Hwf, Hroot|exact HV].
Qed.

(** The bound of [decodeValue] is never reached: every parse consumes some
    of the text that is left to expand. *)
Lemma mapM_total {A C : Type} (f : A -> option C) (l : list A) :
  Forall (fun x => exists y, f x = Some y) l -> exists r, mapM f l = Some r.
Proof.
  induction 1 as [|x l [y Hy] Hl [r Hr]]; simpl; [now exists []|].
  rewrite Hy, Hr. now exists (y :: r).
Qed.

Lemma decodeValueN_total (B : Builtins) (fuel : nat) :
  (forall s v, JSON_parse B s = Some v -> (weight v < String.length s)%nat) ->
  forall v, (weight v < fuel)%nat -> exists V, decodeValueN B fuel v = Some V.
Proof.
  intros Hsmaller. induction fuel as [|fuel IH]; intros v Hfuel; [lia|].
  destruct v as [| | | |s|items|props]; simpl; try (eexists; reflexivity).
  - destruct (tryParseJson B s) as [parsedText|] eqn:Hp; [|eexists; reflexivity].
    apply IH. unfold tryParseJson in Hp. destruct (negb _); [discriminate|].
    apply Hsmaller in Hp. simpl in Hfuel. lia.
  - destruct (mapM_total (decodeValueN B fuel) items) as [r ->];
      [|eexists; reflexivity].
    apply Forall_forall. intros x Hin. apply IH.
    pose proof (weight_item _ _ Hin). simpl in Hfuel. lia.
  - destruct (mapM_total
                (fun kv => option_map (pair (fst kv)) (decodeValueN B fuel (snd kv)))
                props) as [r ->]; [|eexists; reflexivity].
    apply Forall_forall. intros kv Hin.
    destruct (IH (snd kv)) as [V ->]; [|eexists; reflexivity].
    pose proof (weight_entry _ _ Hin). simpl in Hfuel. lia.
Qed.

Lemma decodeNestedJson_terminates (B : Builtins) (input : string) :
  (forall s v, JSON_parse B s = Some v -> (weight v < String.length s)%nat) ->
  decodeNestedJson B input <> Diverged.
Proof.
  intros Hsmaller. unfold decodeNestedJson, decodeValue.
  destruct (JSON_parse B input) as [root|]; [|discriminate].
  destruct (decodeValueN_total B (S (weight root)) Hsmaller root) as [V ->];
    [lia|discriminate].
Qed.

Lemma sampleBuiltins_wellFormed (s : string) (v : value) :
  JSON_parse sampleBuiltins s = Some v -> wellFormed v.
Proof.
  simpl. repeat match goal with
                | |- context [String.eqb ?x ?y] => destruct (String.eqb x y)
                end; intros [= <-]; simpl; auto.
  repeat constructor.
Qed.

Lemma sampleBuiltins_smaller (s : string) (v : value) :
  JSON_parse sampleBuiltins s = Some v -> (weight v < String.length s)%nat.
Proof.
  simpl. repeat match goal with
                | |- context [String.eqb ?x ?y] =>
                    destruct (String.eqb_spec x y) as [->|?]
                end; intros [= <-]; simpl; lia.
Qed.

Example sampleBuiltins_terminates (input : string) :
  decodeNestedJson sampleBuiltins input <> Diverged.
Proof. apply decodeNestedJson_terminates, sampleBuiltins_smaller. Qed.

Lemma decodeNestedJson_idempotent_witness :
  (forall s v, JSON_parse sampleBuiltins s = Some v -> wellFormed v) /\
  decodeNestedJson sampleBuiltins nestedText = Decoded (VArray [VArray []]) /\
  decodeValue sampleBuiltins (VArray [VArray []]) = Some (VArray [VArray []]).
Proof.
  split; [exact sampleBuiltins_wellFormed|]. split; [reflexivity|].
  exact (decodeNestedJson_idempotent sampleBuiltins nestedText
           (VArray [VArray []]) sampleBuiltins_wellFormed eq_refl).
Defined.

(* ================================================================== *)
(** * Part III: further properties of the code *)
(* ================================================================== *)

(** ** The algebra of the updates *)

Section ContainerAlgebra.
Context {A : Type} (undef : A).

Lemma list_set_twice (items : list A) (n : nat) (x y : A) :
  list_set undef (list_set undef items n x) n y = list_set undef items n y.
Proof.
  revert items; induction n as [|n IH]; intros [|z items]; simpl;
    try reflexivity; now rewrite IH.
Qed.

Lemma arr_set_twice (items : list A) (i : N) (x y : A) :
  arr_set undef (arr_set undef items i x) i y = arr_set undef items i y.
Proof. apply list_set_twice. Qed.

Lemma has_own_replace (props : list (string * A)) (k : string) (x : A) :
  has_own (obj_replace props k x) k = has_own props k.
Proof.
  induction props as [|[k' v'] rest IH]; simpl; [reflexivity|].
  destruct (String.eqb k' k) eqn:E; simpl.
  - now rewrite String.eqb_refl.
  - now rewrite E, IH.
Qed.

Lemma has_own_insert (props : list (string * A)) (k : string) (x : A) :
  has_own (obj_insert props k x) k = true.
Proof.
  induction props as [|[k' v'] rest IH]; simpl.
  - now rewrite String.eqb_refl.
  - destruct (before k' k); simpl.
    + now rewrite IH, orb_true_r.
    + now rewrite String.eqb_refl.
Qed.

Lemma has_own_set (props : list (string * A)) (k : string) (x : A) :
  has_own (obj_set props k x) k = true.
Proof.
  unfold obj_set. destruct (has_own props k) eqn:E.
  - now rewrite has_own_replace.
  - apply has_own_insert.
Qed.

Lemma obj_replace_twice (props : list (string * A)) (k : string) (x y : A) :
  obj_replace (obj_replace props k x) k y = obj_replace props k y.
Proof.
  induction props as [|[k' v'] rest IH]; simpl; [reflexivity|].
  destruct (String.eqb k' k) eqn:E; simpl.
  - now rewrite String.eqb_refl.
  - now rewrite E, IH.
Qed.

Lemma obj_replace_insert (props : list (string * A)) (k : string) (x y : A) :
  has_own props k = false ->
  obj_replace (obj_insert props k x) k y = obj_insert props k y.
Proof.
  induction props as [|[k' v'] rest IH]; simpl; intros H.
  - now rewrite String.eqb_refl.
  - apply orb_false_iff in H as [E H].
    destruct (before k' k); simpl.
    + now rewrite E, IH.
    + now rewrite String.eqb_refl.
Qed.

Lemma obj_set_twice (props : list (string * A)) (k : string) (x y : A) :
  obj_set (obj_set props k x) k y = obj_set props k y.
Proof.
  unfold obj_set at 1. rewrite has_own_set.
  unfold obj_set. destruct (has_own props k) eqn:E.
  - apply obj_replace_twice.
  - now apply obj_replace_insert.
Qed.

Lemma obj_delete_insert (props : list (string * A)) (k : string) (x : A) :
  has_own props k = false -> obj_delete (obj_insert props k x) k = props.
Proof.
  induction props as [|[k' v'] rest IH]; simpl; intros H.
  - now rewrite String.eqb_refl.
  - apply orb_false_iff in H as [E H].
    destruct (before k' k); simpl.
    + now rewrite E, IH.
    + now rewrite String.eqb_refl.
Qed.

Lemma obj_set_same (props : list (string * A)) (k : string) :
  has_own props k = true -> obj_set props k (obj_get undef props k) = props.
Proof.
  intros H. unfold obj_set. rewrite H. now apply obj_replace_same.
Qed.

Lemma has_own_In (props : list (string * A)) (k : string) :
  has_own props k = true <-> In k (map fst props).
Proof.
  induction props as [|[k' v] props IH]; simpl; [split; [discriminate|tauto]|].
  rewrite orb_true_iff, IH, String.eqb_eq. tauto.
Qed.

End ContainerAlgebra.

Lemma arr_get_in_range (items : list value) (i : N) :
  arr_get VUndefined items i <> VUndefined ->
  (N.to_nat i < List.length items)%nat.
Proof.
  intros H. destruct (Nat.lt_ge_cases (N.to_nat i) (List.length items)) as [L|L];
    [exact L|].
  exfalso; apply H. now apply nth_undefined_beyond.
Qed.

(** Writing back the element, respectively the entry, that a defined read
    has gone through leaves the container as it was. *)
Lemma arr_set_read (items : list value) (i : N) (rest : path) :
  read (arr_get VUndefined items i) rest <> VUndefined ->
  arr_set VUndefined items i (arr_get VUndefined items i) = items.
Proof.
  intros H. unfold arr_set, arr_get.
  apply list_set_same, arr_get_in_range. exact (read_defined_head _ _ H).
Qed.

Lemma obj_set_read (props : list (string * value)) (k : string) (rest : path) :
  read (obj_get VUndefined props k) rest <> VUndefined ->
  obj_set props k (obj_get VUndefined props k) = props.
Proof.
  intros H. apply obj_set_same, obj_get_own. exact (read_defined_head _ _ H).
Qed.

Lemma read_defined_resolves (p : path) :
  forall D, read D p <> VUndefined -> resolves D p.
Proof.
  induction p as [|seg rest IH]; intros D H; simpl; [exact I|].
  simpl in H. destruct D, seg; try (now elim H); now apply IH.
Qed.

Lemma read_updateAtPath (p : path) :
  forall D v, resolves D p -> read (updateAtPath D p v) p = v.
Proof.
  induction p as [|seg rest IH]; intros D v H; simpl; [reflexivity|].
  simpl in H. destruct D, seg; try (now elim H).
  - rewrite arr_get_set_eq. now apply IH.
  - rewrite obj_get_set_eq. now apply IH.
Qed.

Lemma updateAtPath_restore (P : path) :
  forall (D x : value),
    read D P <> VUndefined ->
    updateAtPath (updateAtPath D P x) P (read D P) = D.
Proof.
  induction P as [|seg rest IH]; intros D x H; simpl; [reflexivity|].
  simpl in H. destruct D, seg; try reflexivity.
  - now rewrite arr_get_set_eq, arr_set_twice, (IH _ _ H), (arr_set_read _ _ _ H).
  - now rewrite obj_get_set_eq, obj_set_twice, (IH _ _ H), (obj_set_read _ _ _ H).
Qed.

(** X1.  Last write wins: for every document [D], path [P] and values [a]
    and [b], writing [a] and then [b] at [P] gives the document that
    writing [b] alone gives, also where the path meets no container. *)
Theorem updateAtPath_last_write_wins (P : path) :
  forall (D a b : value),
    updateAtPath (updateAtPath D P a) P b = updateAtPath D P b.
Proof.
  induction P as [|seg rest IH]; intros D a b; simpl; [reflexivity|].
  destruct D, seg; try reflexivity.
  - rewrite arr_get_set_eq, arr_set_twice. now rewrite IH.
  - rewrite obj_get_set_eq, obj_set_twice. now rewrite IH.
Qed.

(** X2.  Writing back what is there changes nothing: when [P] addresses a
    node of [D] (the read is not [undefined]), [updateAtPath] with the
    value read at [P] returns a document equal to [D]. *)
Theorem updateAtPath_write_back (P : path) :
  forall D : value,
    read D P <> VUndefined -> updateAtPath D P (read D P) = D.
Proof.
  induction P as [|seg rest IH]; intros D H; simpl; [reflexivity|].
  simpl in H. destruct D, seg; try reflexivity.
  - now rewrite (IH _ H), (arr_set_read _ _ _ H).
  - now rewrite (IH _ H), (obj_set_read _ _ _ H).
Qed.

Lemma updateAtPath_write_back_witness :
  read plainDoc [Key "c"; Index 1] <> VUndefined /\
  updateAtPath plainDoc [Key "c"; Index 1] (read plainDoc [Key "c"; Index 1])
  = plainDoc.
Proof.
  assert (H : read plainDoc [Key "c"; Index 1] <> VUndefined)
    by (cbn; discriminate).
  split; [exact H|].
  exact (updateAtPath_write_back [Key "c"; Index 1] plainDoc H).
Defined.

Lemma deleteAtPath_cons_app (D : value) (seg s : JsonPathSegment) (rest : path) :
  deleteAtPath D (seg :: rest ++ [s])
  = match D, seg with
    | VArray items, Index i =>
        VArray (arr_set VUndefined items i
                  (deleteAtPath (arr_get VUndefined items i) (rest ++ [s])))
    | VObject obj, Key k =>
        VObject (obj_set obj k
                   (deleteAtPath (obj_get VUndefined obj k) (rest ++ [s])))
    | _, _ => D
    end.
Proof.
  destruct (rest ++ [s]) as [|s' tail] eqn:E; [now destruct rest|].
  apply deleteAtPath_deep.
Qed.



(** ** Adding and deleting *)

Lemma nth_splice1 (items : list value) (i j : nat) :
  (i < List.length items)%nat ->
  nth j (firstn i items ++ skipn (S i) items) VUndefined
  = nth (if (j <? i)%nat then j else S j) items VUndefined.
Proof.
  revert items j; induction i as [|i IH]; intros [|x items] j H; simpl in H;
    try lia.
  - reflexivity.
  - destruct j as [|j]; [reflexivity|].
    cbn [firstn skipn app nth]. rewrite IH by lia.
    change (S j <? S i)%nat with (j <? i)%nat.
    now destruct (j <? i)%nat.
Qed.

Lemma obj_get_delete_neq {A : Type} (undef : A) (props : list (string * A))
  (k k' : string) :
  k <> k' -> obj_get undef (obj_delete props k) k' = obj_get undef props k'.
Proof.
  intros N. induction props as [|[h v] rest IH]; simpl; [reflexivity|].
  destruct (String.eqb h k) eqn:E.
  - apply String.eqb_eq in E; subst h.
    now rewrite (proj2 (String.eqb_neq k k') N).
  - simpl. now rewrite IH.
Qed.

Lemma obj_get_delete_eq (props : list (string * value)) (k : string) :
  NoDup (map fst props) ->
  obj_get VUndefined (obj_delete props k) k = VUndefined.
Proof.
  induction props as [|[h v] rest IH]; simpl; intros ND; [reflexivity|].
  inversion ND as [|? ? NI ND']; subst.
  destruct (String.eqb h k) eqn:E.
  - apply String.eqb_eq in E; subst h.
    apply obj_get_not_own. now apply has_own_false_iff.
  - simpl. rewrite E. now apply IH.
Qed.

Lemma splice1_last (items : list value) (v : value) :
  arr_splice1 (items ++ [v]) (N.of_nat (List.length items)) = items.
Proof.
  unfold arr_splice1. rewrite Nat2N.id.
  rewrite firstn_app, Nat.sub_diag, firstn_all. cbn [firstn].
  rewrite List.app_nil_r.
  rewrite skipn_all2 by (rewrite length_app; simpl; lia).
  apply List.app_nil_r.
Qed.

(** X4.  A key added to a mapping can be read back: when the node at [P]
    is a mapping without the key [k], after [addToObjectAtPath] the value
    [v] is read at [P] extended by [k], and every other key of that
    mapping reads as before. *)
Theorem addToObjectAtPath_read_back (P : path) :
  forall (D : value) (props : list (string * value)) (k : string) (v : value),
    read D P = VObject props ->
    has_own props k = false ->
    read (addToObjectAtPath D P k v) (P ++ [Key k]) = v
    /\ forall k', k' <> k ->
         read (addToObjectAtPath D P k v) (P ++ [Key k'])
         = read D (P ++ [Key k']).
Proof.
  induction P as [|seg rest IH]; intros D props k v HR HK.
  - simpl in HR; subst D. cbn [addToObjectAtPath app read]. rewrite HK.
    cbn [read]. split.
    + apply obj_get_set_eq.
    + intros k' N. apply obj_get_set_neq. congruence.
  - cbn [read] in HR. cbn [addToObjectAtPath app read].
    destruct D, seg; try discriminate; cbn [read].
    + rewrite arr_get_set_eq. now apply IH with (props := props).
    + rewrite obj_get_set_eq. now apply IH with (props := props).
Qed.

Lemma addToObjectAtPath_read_back_witness :
  read plainDoc [Key "a"] = VObject [("b", num 1)] /\
  has_own [("b", num 1)] "x" = false /\
  read (addToObjectAtPath plainDoc [Key "a"] "x" VNull) ([Key "a"] ++ [Key "x"])
  = VNull.
Proof.
  split; [reflexivity|]. split; [reflexivity|].
  exact (proj1 (addToObjectAtPath_read_back [Key "a"] plainDoc [("b", num 1)]
                  "x" VNull eq_refl eq_refl)).
Defined.

(** X5.  [addToObjectAtPath] never overwrites: when [P] addresses a node
    that is not a mapping, or a mapping that has the key already, the
    result is a document equal to [D]. *)
Theorem addToObjectAtPath_keeps_existing (P : path) :
  forall (D : value) (k : string) (v : value),
    read D P <> VUndefined ->
    (forall props, read D P = VObject props -> has_own props k = true) ->
    addToObjectAtPath D P k v = D.
Proof.
  induction P as [|seg rest IH]; intros D k v HD HK.
  - cbn [read] in *. cbn [addToObjectAtPath].
    destruct D; try reflexivity. now rewrite (HK _ eq_refl).
  - cbn [read] in HD, HK. cbn [addToObjectAtPath].
    destruct D, seg; try reflexivity.
    + now rewrite (IH _ _ _ HD HK), (arr_set_read _ _ _ HD).
    + now rewrite (IH _ _ _ HD HK), (obj_set_read _ _ _ HD).
Qed.

Lemma addToObjectAtPath_keeps_existing_witness :
  read plainDoc [Key "a"] <> VUndefined /\
  (forall props, read plainDoc [Key "a"] = VObject props ->
     has_own props "b" = true) /\
  addToObjectAtPath plainDoc [Key "a"] "b" VNull = plainDoc.
Proof.
  assert (H1 : read plainDoc [Key "a"] <> VUndefined) by (cbn; discriminate).
  assert (H2 : forall props, read plainDoc [Key "a"] = VObject props ->
                 has_own props "b" = true)
    by (intros props E; injection E as <-; reflexivity).
  split; [exact H1|]. split; [exact H2|].
  exact (addToObjectAtPath_keeps_existing [Key "a"] plainDoc "b" VNull H1 H2).
Defined.

(** X6.  [addToArrayAtPath] appends: when the node at [P] is a list, the
    node at [P] afterwards is that list with [v] added at its end. *)
Theorem addToArrayAtPath_appends (P : path) :
  forall (D : value) (items : list value) (v : value),
    read D P = VArray items ->
    read (addToArrayAtPath D P v) P = VArray (items ++ [v]).
Proof.
  induction P as [|seg rest IH]; intros D items v HR.
  - simpl in HR; subst D. reflexivity.
  - cbn [read] in HR. cbn [addToArrayAtPath read].
    destruct D, seg; try discriminate; cbn [read].
    + rewrite arr_get_set_eq. now apply IH.
    + rewrite obj_get_set_eq. now apply IH.
Qed.

Lemma addToArrayAtPath_appends_witness :
  read plainDoc [Key "c"] = VArray [num 10; num 20] /\
  read (addToArrayAtPath plainDoc [Key "c"] VNull) [Key "c"]
  = VArray ([num 10; num 20] ++ [VNull]).
Proof.
  split; [reflexivity|].
  exact (addToArrayAtPath_appends [Key "c"] plainDoc [num 10; num 20] VNull
           eq_refl).
Defined.

(** X7.  Adding a key and deleting it again is the identity: when the node
    at [P] is a mapping without the key [k], [deleteAtPath] at [P]
    extended by [k] undoes [addToObjectAtPath], and the document is equal
    to [D] again, the order of the keys included. *)
Theorem addToObjectAtPath_then_delete (P : path) :
  forall (D : value) (props : list (string * value)) (k : string) (v : value),
    read D P = VObject props ->
    has_own props k = false ->
    deleteAtPath (addToObjectAtPath D P k v) (P ++ [Key k]) = D.
Proof.
  induction P as [|seg rest IH]; intros D props k v HR HK.
  - simpl in HR; subst D. cbn [addToObjectAtPath app]. rewrite HK.
    cbn [deleteAtPath]. rewrite has_own_set. cbn [negb].
    unfold obj_set. rewrite HK. now rewrite obj_delete_insert.
  - assert (HD : read D (seg :: rest) <> VUndefined) by (rewrite HR; discriminate).
    cbn [read] in HR, HD. cbn [addToObjectAtPath].
    change ((seg :: rest) ++ [Key k]) with (seg :: rest ++ [Key k]).
    destruct D, seg; try discriminate; rewrite deleteAtPath_cons_app.
    + now rewrite arr_get_set_eq, arr_set_twice, (IH _ _ _ _ HR HK),
        (arr_set_read _ _ _ HD).
    + now rewrite obj_get_set_eq, obj_set_twice, (IH _ _ _ _ HR HK),
        (obj_set_read _ _ _ HD).
Qed.

Lemma addToObjectAtPath_then_delete_witness :
  read plainDoc [Key "a"] = VObject [("b", num 1)] /\
  has_own [("b", num 1)] "0" = false /\
  deleteAtPath (addToObjectAtPath plainDoc [Key "a"] "0" VNull)
    ([Key "a"] ++ [Key "0"]) = plainDoc.
Proof.
  split; [reflexivity|]. split; [reflexivity|].
  exact (addToObjectAtPath_then_delete [Key "a"] plainDoc [("b", num 1)] "0"
           VNull eq_refl eq_refl).
Defined.

(** X8.  Appending an element and deleting the last slot is the identity:
    when the node at [P] is a list of [n] elements, [deleteAtPath] at [P]
    extended by the index [n] undoes [addToArrayAtPath]. *)
Theorem addToArrayAtPath_then_delete (P : path) :
  forall (D : value) (items : list value) (v : value),
    read D P = VArray items ->
    deleteAtPath (addToArrayAtPath D P v)
      (P ++ [Index (N.of_nat (List.length items))]) = D.
Proof.
  induction P as [|seg rest IH]; intros D items v HR.
  - simpl in HR; subst D. cbn [addToArrayAtPath app deleteAtPath].
    replace ((N.of_nat (List.length items) <? 0)%N) with false
      by (symmetry; apply N.ltb_ge; lia).
    replace ((N.of_nat (List.length (items ++ [v]))
              <=? N.of_nat (List.length items))%N) with false
      by (symmetry; apply N.leb_gt; rewrite length_app; simpl; lia).
    cbn [orb]. now rewrite splice1_last.
  - assert (HD : read D (seg :: rest) <> VUndefined) by (rewrite HR; discriminate).
    cbn [read] in HR, HD. cbn [addToArrayAtPath].
    change ((seg :: rest) ++ [Index (N.of_nat (List.length items))])
      with (seg :: rest ++ [Index (N.of_nat (List.length items))]).
    destruct D, seg; try discriminate; rewrite deleteAtPath_cons_app.
    + now rewrite arr_get_set_eq, arr_set_twice, (IH _ _ _ HR),
        (arr_set_read _ _ _ HD).
    + now rewrite obj_get_set_eq, obj_set_twice, (IH _ _ _ HR),
        (obj_set_read _ _ _ HD).
Qed.

Lemma addToArrayAtPath_then_delete_witness :
  read plainDoc [Key "c"] = VArray [num 10; num 20] /\
  deleteAtPath (addToArrayAtPath plainDoc [Key "c"] VNull)
    ([Key "c"] ++ [Index (N.of_nat (List.length [num 10; num 20]))])
  = plainDoc.
Proof.
  split; [reflexivity|].
  exact (addToArrayAtPath_then_delete [Key "c"] plainDoc [num 10; num 20] VNull
           eq_refl).
Defined.

(** X9.  Deleting an element of a list shifts the later ones: when the
    node at [P] is a list and [i] is one of its indices, after
    [deleteAtPath] at [P] extended by [i] the slot [j] of that list holds
    what the slot [j] held for [j] below [i], and what the slot [j + 1]
    held otherwise. *)
Theorem deleteAtPath_shifts_items (P : path) :
  forall (D : value) (items : list value) (i j : N),
    read D P = VArray items ->
    (N.to_nat i < List.length items)%nat ->
    read (deleteAtPath D (P ++ [Index i])) (P ++ [Index j])
    = read D (P ++ [Index (if (j <? i)%N then j else (j + 1)%N)]).
Proof.
  induction P as [|seg rest IH]; intros D items i j HR HI.
  - simpl in HR; subst D. cbn [app deleteAtPath read].
    replace ((i <? 0)%N) with false by (symmetry; apply N.ltb_ge; lia).
    replace ((N.of_nat (List.length items) <=? i)%N) with false
      by (symmetry; apply N.leb_gt; lia).
    cbn [orb read]. unfold arr_get, arr_splice1.
    rewrite nth_splice1 by exact HI.
    destruct (N.ltb_spec j i) as [L|L].
    + now replace ((N.to_nat j <? N.to_nat i)%nat) with true
        by (symmetry; apply Nat.ltb_lt; lia).
    + replace ((N.to_nat j <? N.to_nat i)%nat) with false
        by (symmetry; apply Nat.ltb_ge; lia).
      f_equal. lia.
  - cbn [read] in HR.
    change ((seg :: rest) ++ [Index i]) with (seg :: rest ++ [Index i]).
    rewrite deleteAtPath_cons_app. cbn [app read].
    destruct D, seg; try discriminate; cbn [read].
    + rewrite arr_get_set_eq. now apply IH with (items := items).
    + rewrite obj_get_set_eq. now apply IH with (items := items).
Qed.

Lemma deleteAtPath_shifts_items_witness :
  read plainDoc [Key "c"] = VArray [num 10; num 20] /\
  (N.to_nat 0 < List.length [num 10; num 20])%nat /\
  read (deleteAtPath plainDoc ([Key "c"] ++ [Index 0])) ([Key "c"] ++ [Index 0])
  = read plainDoc ([Key "c"] ++ [Index 1]).
Proof.
  assert (H : (N.to_nat 0 < List.length [num 10; num 20])%nat) by (simpl; lia).
  split; [reflexivity|]. split; [exact H|].
  exact (deleteAtPath_shifts_items [Key "c"] plainDoc [num 10; num 20] 0%N 0%N
           eq_refl H).
Defined.

(** X10.  Deleting a key removes that entry and no other: when the node at
    [P] is a mapping (no key twice), after [deleteAtPath] at [P] extended
    by [k] the key [k] reads [undefined] there, and every other key reads
    as before; this holds as well when the key was missing. *)
Theorem deleteAtPath_removes_key (P : path) :
  forall (D : value) (props : list (string * value)) (k : string),
    read D P = VObject props ->
    NoDup (map fst props) ->
    read (deleteAtPath D (P ++ [Key k])) (P ++ [Key k]) = VUndefined
    /\ forall k', k' <> k ->
         read (deleteAtPath D (P ++ [Key k])) (P ++ [Key k'])
         = read D (P ++ [Key k']).
Proof.
  induction P as [|seg rest IH]; intros D props k HR ND.
  - simpl in HR; subst D. cbn [app deleteAtPath].
    destruct (has_own props k) eqn:HK; cbn [negb read].
    + split.
      * now apply obj_get_delete_eq.
      * intros k' N. apply obj_get_delete_neq. congruence.
    + split; [now apply obj_get_not_own | reflexivity].
  - cbn [read] in HR.
    change ((seg :: rest) ++ [Key k]) with (seg :: rest ++ [Key k]).
    rewrite deleteAtPath_cons_app.
    destruct D, seg; try discriminate.
    + destruct (IH _ _ k HR ND) as [A B]. split.
      * cbn [read]. now rewrite arr_get_set_eq.
      * intros k' N. cbn [app read]. rewrite arr_get_set_eq. now apply B.
    + destruct (IH _ _ k HR ND) as [A B]. split.
      * cbn [read]. now rewrite obj_get_set_eq.
      * intros k' N. cbn [app read]. rewrite obj_get_set_eq. now apply B.
Qed.

Lemma deleteAtPath_removes_key_witness :
  read plainDoc [] = VObject plainProps /\
  NoDup (map fst plainProps) /\
  read (deleteAtPath plainDoc ([] ++ [Key "a"])) ([] ++ [Key "a"]) = VUndefined.
Proof.
  assert (ND : NoDup (map fst plainProps)).
  { repeat constructor; simpl; intuition discriminate. }
  split; [reflexivity|]. split; [exact ND|].
  exact (proj1 (deleteAtPath_removes_key [] plainDoc plainProps "a" eq_refl ND)).
Defined.

(** ** Structural sharing of the other edits *)









(** ** Renaming there and back *)

Lemma patchObject_as_update (oldKey newKey : string)
  (obj : list (string * value)) (P : path) :
  forall D : value,
    read D P <> VUndefined ->
    patchObject oldKey newKey obj D P
    = updateAtPath D P (VObject (renameEntries oldKey newKey obj)).
Proof.
  induction P as [|seg rest IH]; intros D H; [reflexivity|].
  cbn [patchObject updateAtPath]. cbn [read] in H.
  destruct D, seg; try reflexivity.
  - now rewrite (IH _ H).
  - rewrite (IH _ H). f_equal. apply obj_assign_own, obj_get_own.
    exact (read_defined_head _ _ H).
Qed.

Lemma renameKeyAtPath_as_update (D : value) (P : path) (oldKey newKey : string)
  (props : list (string * value)) :
  read D P = VObject props ->
  has_own props oldKey = true -> has_own props newKey = false ->
  inherited newKey = false ->
  renameKeyAtPath D P oldKey newKey
  = updateAtPath D P (VObject (renameEntries oldKey newKey props)).
Proof.
  intros HR HO HN HI. unfold renameKeyAtPath, has_in.
  rewrite (renameTarget_read _ _ _ HR), HO, HN, HI. cbn [negb orb].
  apply patchObject_as_update. rewrite HR. discriminate.
Qed.

Lemma substituteKey_back (oldKey newKey : string)
  (props : list (string * value)) :
  has_own props newKey = false ->
  substituteKey newKey oldKey (substituteKey oldKey newKey props) = props.
Proof.
  unfold substituteKey. intros H.
  induction props as [|[k v] props IH]; [reflexivity|].
  cbn [has_own] in H. apply orb_false_iff in H as [E H].
  cbn [map]. rewrite (IH H). cbn [fst snd]. f_equal. f_equal.
  destruct (String.eqb k oldKey) eqn:EO.
  - rewrite String.eqb_refl. apply String.eqb_eq in EO. now subst.
  - now rewrite E.
Qed.

Lemma has_own_substituteKey_other (oldKey newKey k : string)
  (props : list (string * value)) :
  k <> oldKey -> k <> newKey ->
  has_own (substituteKey oldKey newKey props) k = has_own props k.
Proof.
  intros HO HN. induction props as [|[k' v] props IH]; [reflexivity|].
  cbn [substituteKey map has_own fst snd]. fold (substituteKey oldKey newKey props).
  rewrite IH. f_equal.
  destruct (String.eqb_spec k' oldKey) as [->|E]; [|reflexivity].
  rewrite (proj2 (String.eqb_neq newKey k)) by congruence.
  now rewrite (proj2 (String.eqb_neq oldKey k)) by congruence.
Qed.

(** X12.  Renaming a key and renaming it back is the identity: when the
    node at [P] is a mapping (keys in enumeration order) that has
    [oldKey] and not [newKey], neither of them an array index or the name
    of a property of [Object.prototype], and no key of the mapping is
    [__proto__], the two calls of [renameKeyAtPath] give a document equal
    to [D], the order of the keys included. *)
Theorem renameKeyAtPath_there_and_back (D : value) (P : path)
  (oldKey newKey : string) (props : list (string * value)) :
  read D P = VObject props ->
  ownKeyOrder (map fst props) ->
  has_own props oldKey = true -> has_own props newKey = false ->
  isArrayIndex oldKey = false -> isArrayIndex newKey = false ->
  inherited oldKey = false -> inherited newKey = false ->
  has_own props "__proto__" = false ->
  renameKeyAtPath (renameKeyAtPath D P oldKey newKey) P newKey oldKey = D.
Proof.
  intros HR HOrd HO HN IO IN HIO HIN HP.
  assert (NE : oldKey <> newKey) by (intros ->; congruence).
  assert (HD : read D P <> VUndefined) by (rewrite HR; discriminate).
  pose proof (inherited_not_proto _ HIO) as PO.
  pose proof (inherited_not_proto _ HIN) as PN.
  assert (HS : forall k l, has_own l "__proto__" = false ->
                           has_own (siblings k l) "__proto__" = false).
  { intros k l H. induction l as [|[k0 v0] l IH]; [reflexivity|].
    apply has_own_head_neq in H as [H0 H]. cbn [siblings filter fst].
    destruct (String.eqb k0 k); cbn [negb]; [now apply IH|].
    cbn [has_own]. rewrite (proj2 (String.eqb_neq _ _) H0). now apply IH. }
  rewrite (renameKeyAtPath_as_update D P oldKey newKey props HR HO HN HIN).
  rewrite (renameEntries_in_place _ _ _ (HS _ _ HP) PN HOrd IO IN HN).
  set (props' := substituteKey oldKey newKey props).
  assert (HR' : read (updateAtPath D P (VObject props')) P = VObject props')
    by (apply read_updateAtPath; now apply read_defined_resolves).
  assert (HO' : has_own props' newKey = true).
  { subst props'. rewrite (proj2 (obj_get_substituteKey _ _ _ HN)). exact HO. }
  assert (HN' : has_own props' oldKey = false)
    by (now apply has_own_substituteKey_old).
  assert (HP' : has_own props' "__proto__" = false).
  { subst props'. rewrite has_own_substituteKey_other; auto. }
  rewrite (renameKeyAtPath_as_update _ P newKey oldKey props' HR' HO' HN' HIO).
  rewrite renameEntries_in_place; try assumption; try (now apply HS).
  - subst props'. rewrite (substituteKey_back _ _ _ HN), <- HR.
    now apply updateAtPath_restore.
  - subst props'. rewrite map_fst_substituteKey.
    apply ownKeyOrder_substitute; try assumption.
    now apply has_own_false_iff.
Qed.

Lemma renameKeyAtPath_there_and_back_witness :
  read plainDoc [] = VObject plainProps /\
  ownKeyOrder (map fst plainProps) /\
  has_own plainProps "a" = true /\ has_own plainProps "z" = false /\
  isArrayIndex "a" = false /\ isArrayIndex "z" = false /\
  inherited "a" = false /\ inherited "z" = false /\
  has_own plainProps "__proto__" = false /\
  renameKeyAtPath (renameKeyAtPath plainDoc [] "a" "z") [] "z" "a" = plainDoc.
Proof.
  assert (Horder : ownKeyOrder (map fst plainProps)).
  { split.
    - repeat constructor; simpl; intuition discriminate.
    - repeat constructor. }
  repeat (split; [first [reflexivity | exact Horder]|]).
  exact (renameKeyAtPath_there_and_back plainDoc [] "a" "z" plainProps
           eq_refl Horder eq_refl eq_refl eq_refl eq_refl eq_refl eq_refl
           eq_refl).
Defined.

(** ** An edit addressed by an encoded pointer *)

(** X13.  An edit addressed by the encoding of a path lands on that path:
    with a document loaded and no error shown, when every segment of [P]
    meets a container of its kind, [handleEditAtPointer] on [encode P]
    stores [updateAtPath] at [P], and [v] is read back at [P]. *)
Theorem handleEditAtPointer_encoded (B : Builtins) (P : path) (v : value)
  (st : AppState) :
  isNull (parsed st) || truthy (error st) = false ->
  resolves (parsed st) P ->
  parsed (handleEditAtPointer B (encode P) v st) = updateAtPath (parsed st) P v
  /\ read (parsed (handleEditAtPointer B (encode P) v st)) P = v.
Proof.
  intros Hg Hres.
  assert (Hdec : jsonPointerToPath (encode P) (parsed st) = Some P).
  { destruct P as [|seg rest]; [reflexivity|].
    unfold jsonPointerToPath.
    destruct (encode_nonempty seg rest) as [-> ->]. cbn [negb].
    rewrite split_encode. cbn [tl]. rewrite map_map.
    rewrite (map_ext _ segmentToken).
    - now rewrite pointerWalk_resolves.
    - intros [k|i]; simpl.
      + apply decodeJsonPointerToken_escapeToken.
      + rewrite escapeToken_digits by apply allDigits_decimal.
        rewrite <- (escapeToken_digits (Js.decimal i)) at 1
          by apply allDigits_decimal.
        apply decodeJsonPointerToken_escapeToken. }
  apply orb_false_iff in Hg as [Hnull Herr].
  unfold handleEditAtPointer, handleEditValue.
  rewrite Hnull, Hdec, Herr. cbn [orb parsed].
  split; [reflexivity | now apply read_updateAtPath].
Qed.

Lemma handleEditAtPointer_encoded_witness :
  isNull (parsed sampleState) || truthy (error sampleState) = false /\
  resolves (parsed sampleState) [Key "a"] /\
  read (parsed (handleEditAtPointer sampleBuiltins (encode [Key "a"]) (num 2)
                  sampleState)) [Key "a"] = num 2.
Proof.
  split; [reflexivity|]. split; [exact I|].
  exact (proj2 (handleEditAtPointer_encoded sampleBuiltins [Key "a"] (num 2)
                  sampleState eq_refl I)).
Defined.

(** ** The structural handlers *)

Lemma erase_addToObjectAtPath (p : path) :
  forall (D : Ref.rvalue) (k : string) (v : Ref.rvalue) (n : Ref.addr),
    Ref.erase (fst (Ref.addToObjectAtPath D p k v n))
    = addToObjectAtPath (Ref.erase D) p k (Ref.erase v).
Proof.
  induction p as [|head rest IH]; intros D k v n.
  - destruct D as [| | | | |a items|a obj]; try reflexivity.
    cbn [Ref.addToObjectAtPath Ref.erase addToObjectAtPath].
    rewrite has_own_mapValues. destruct (has_own obj k); [reflexivity|].
    unfold Ref.bind, Ref.fresh, Ref.ret. cbn [fst Ref.erase].
    now rewrite obj_set_mapValues.
  - destruct D as [| | | | |a items|a obj]; try reflexivity;
      destruct head as [h|i]; try reflexivity; simpl;
      unfold Ref.bind, Ref.fresh, Ref.ret;
      match goal with
      | |- context [Ref.addToObjectAtPath ?c rest k v ?m] =>
          specialize (IH c k v m);
          destruct (Ref.addToObjectAtPath c rest k v m) as [x n']
      end; simpl in *.
    + unfold arr_set. rewrite map_list_set, IH, erase_arr_get. reflexivity.
    + rewrite obj_set_mapValues, IH, erase_obj_get. reflexivity.
Qed.

Lemma erase_addToArrayAtPath (p : path) :
  forall (D v : Ref.rvalue) (n : Ref.addr),
    Ref.erase (fst (Ref.addToArrayAtPath D p v n))
    = addToArrayAtPath (Ref.erase D) p (Ref.erase v).
Proof.
  induction p as [|head rest IH]; intros D v n.
  - destruct D as [| | | | |a items|a obj]; try reflexivity.
    cbn. now rewrite map_app.
  - destruct D as [| | | | |a items|a obj]; try reflexivity;
      destruct head as [h|i]; try reflexivity; simpl;
      unfold Ref.bind, Ref.fresh, Ref.ret;
      match goal with
      | |- context [Ref.addToArrayAtPath ?c rest v ?m] =>
          specialize (IH c v m);
          destruct (Ref.addToArrayAtPath c rest v m) as [x n']
      end; simpl in *.
    + unfold arr_set. rewrite map_list_set, IH, erase_arr_get. reflexivity.
    + rewrite obj_set_mapValues, IH, erase_obj_get. reflexivity.
Qed.

Lemma addToObjectAtPath_sameOrFresh (D : Ref.rvalue) (p : path) (k : string)
  (v : Ref.rvalue) (n : Ref.addr) :
  sameOrFresh D (fst (Ref.addToObjectAtPath D p k v n)) n.
Proof.
  destruct p as [|head rest].
  - destruct D as [| | | | |a items|a obj]; try (now left).
    cbn [Ref.addToObjectAtPath]. destruct (has_own obj k); [now left|].
    right. reflexivity.
  - destruct D as [| | | | |a items|a obj]; try (now left);
      destruct head as [h|i]; try (now left); right; simpl;
      unfold Ref.bind, Ref.fresh, Ref.ret;
      match goal with
      | |- context [Ref.addToObjectAtPath ?c rest k v ?m] =>
          destruct (Ref.addToObjectAtPath c rest k v m) as [x n']
      end; reflexivity.
Qed.

Lemma addToArrayAtPath_sameOrFresh (D : Ref.rvalue) (p : path)
  (v : Ref.rvalue) (n : Ref.addr) :
  sameOrFresh D (fst (Ref.addToArrayAtPath D p v n)) n.
Proof.
  destruct p as [|head rest].
  - destruct D as [| | | | |a items|a obj]; try (now left). right. reflexivity.
  - destruct D as [| | | | |a items|a obj]; try (now left);
      destruct head as [h|i]; try (now left); right; simpl;
      unfold Ref.bind, Ref.fresh, Ref.ret;
      match goal with
      | |- context [Ref.addToArrayAtPath ?c rest v ?m] =>
          destruct (Ref.addToArrayAtPath c rest v m) as [x n']
      end; reflexivity.
Qed.

Lemma deleteAtPath_sameOrFresh (D : Ref.rvalue) (p : path) (n : Ref.addr) :
  sameOrFresh D (fst (Ref.deleteAtPath D p n)) n.
Proof.
  destruct p as [|head [|seg rest]].
  - now left.
  - destruct D as [| | | | |a items|a obj]; try (now left);
      destruct head as [h|i]; try (now left); cbn [Ref.deleteAtPath].
    + destruct ((i <? 0)%N || (N.of_nat (List.length items) <=? i)%N);
        [now left | now right].
    + destruct (has_own obj h); [now right | now left].
  - rewrite ref_deleteAtPath_deep.
    destruct D as [| | | | |a items|a obj]; try (now left);
      destruct head as [h|i]; try (now left); right;
      unfold Ref.bind, Ref.fresh, Ref.ret;
      match goal with
      | |- context [Ref.deleteAtPath ?c ?q ?m] =>
          destruct (Ref.deleteAtPath c q m) as [x n']
      end; reflexivity.
Qed.

(** A cell allocated by the call is not the cell of the document. *)
Lemma sameRef_sameOrFresh (D D' : Ref.rvalue) (n : Ref.addr) :
  sameOrFresh D D' n -> (Ref.bound D <= n)%nat ->
  Ref.sameRef D' D = true -> D' = D.
Proof.
  intros [E|F] Hb Hs; [exact E|].
  destruct D' as [| | | | |a' items'|a' obj']; try contradiction; subst a';
    destruct D as [| | | | |a items|a obj]; try discriminate;
    cbn [Ref.bound] in Hb; simpl in Hs; apply Nat.eqb_eq in Hs; lia.
Qed.

(** The snapshot: the text before goes on top of the undo stack, and the
    oldest entry leaves a stack that held a hundred or more. *)
Lemma ref_pushUndoSnapshot_undoStack (st : Ref.AppState) :
  Ref.undoStack (Ref.pushUndoSnapshot st)
  = (if (List.length (Ref.undoStack st) <? 100)%nat then Ref.undoStack st
     else tl (Ref.undoStack st)) ++ [Ref.input st].
Proof.
  unfold Ref.pushUndoSnapshot. cbn [Ref.undoStack].
  rewrite length_app. cbn [List.length].
  destruct (Nat.ltb_spec (List.length (Ref.undoStack st)) 100) as [L|L].
  - now replace (100 <? List.length (Ref.undoStack st) + 1)%nat with false
      by (symmetry; apply Nat.ltb_ge; lia).
  - replace (100 <? List.length (Ref.undoStack st) + 1)%nat with true
      by (symmetry; apply Nat.ltb_lt; lia).
    destruct (Ref.undoStack st); [simpl in L; lia | reflexivity].
Qed.

(** The two ends of a structural handler: the document comes back by
    reference and only the snapshot is taken, or the update is committed. *)
Ltac handler_outcome He Hf Hb updated :=
  let Hs := fresh "Hs" in
  destruct (Ref.sameRef updated _) eqn:Hs; cbn [Ref.ret fst];
  [ rewrite (sameRef_sameOrFresh _ _ _ Hf Hb Hs) in He;
    split; [exact He|];
    split; [apply ref_pushUndoSnapshot_undoStack|];
    split; [reflexivity | now left]
  | split; [exact He|];
    split; [apply ref_pushUndoSnapshot_undoStack|];
    split; [reflexivity|];
    cbn [Ref.commitParsedUpdate Ref.pushUndoSnapshot Ref.parsed
           Ref.undoStack Ref.redoStack Ref.input];
    destruct (JSON_stringify _ (Ref.erase updated)); [now right | now left] ].

(** X14.  [handleAddToObject], with a document loaded, no error shown and
    a key that is not blank: the document afterwards is worth
    [addToObjectAtPath] of the document before, with the trimmed key; the
    text before is the new last entry of the undo stack, whose first entry
    has left it when it held a hundred or more, and the redo stack is
    empty, also when nothing was added; the text is the one before, or the
    rendering of the new document. *)
Theorem handleAddToObject_spec (B : Builtins) (P : path) (key : string)
  (v : Ref.rvalue) (st : Ref.AppState) (n : Ref.addr) :
  Ref.isNull (Ref.parsed st) || truthy (Ref.error st) = false ->
  Js.trim key <> "" ->
  (Ref.bound (Ref.parsed st) <= n)%nat ->
  let st' := fst (Ref.handleAddToObject B P key v st n) in
  Ref.erase (Ref.parsed st')
  = addToObjectAtPath (Ref.erase (Ref.parsed st)) P (Js.trim key) (Ref.erase v)
  /\ Ref.undoStack st'
     = (if (List.length (Ref.undoStack st) <? 100)%nat then Ref.undoStack st
        else tl (Ref.undoStack st)) ++ [Ref.input st]
  /\ Ref.redoStack st' = []
  /\ (Ref.input st' = Ref.input st
      \/ JSON_stringify B (Ref.erase (Ref.parsed st')) = Some (Ref.input st')).
Proof.
  intros Hg Hk Hb st'. subst st'. unfold Ref.handleAddToObject.
  rewrite Hg. rewrite (proj2 (String.eqb_neq _ _) Hk).
  pose proof (erase_addToObjectAtPath P (Ref.parsed st) (Js.trim key) v n) as He.
  pose proof (addToObjectAtPath_sameOrFresh (Ref.parsed st) P (Js.trim key) v n)
    as Hf.
  unfold Ref.bind.
  destruct (Ref.addToObjectAtPath (Ref.parsed st) P (Js.trim key) v n)
    as [updated n'].
  cbn [fst] in He, Hf. handler_outcome He Hf Hb updated.
Qed.

Lemma handleAddToObject_spec_witness :
  Ref.isNull (Ref.parsed sampleRefState) || truthy (Ref.error sampleRefState)
  = false /\
  Js.trim " b " <> "" /\
  (Ref.bound (Ref.parsed sampleRefState) <= 3)%nat /\
  Ref.undoStack
    (fst (Ref.handleAddToObject sampleBuiltins [Key "a"] " b " Ref.RNull
            sampleRefState 3)) = ["{}"].
Proof.
  assert (Hk : Js.trim " b " <> "") by (vm_compute; discriminate).
  assert (Hb : (Ref.bound (Ref.parsed sampleRefState) <= 3)%nat)
    by (vm_compute; lia).
  split; [reflexivity|]. split; [exact Hk|]. split; [exact Hb|].
  exact (proj1 (proj2
           (handleAddToObject_spec sampleBuiltins [Key "a"] " b " Ref.RNull
              sampleRefState 3 eq_refl Hk Hb))).
Defined.

(** X15.  [handleAddToArray], with a document loaded and no error shown:
    the document afterwards is worth [addToArrayAtPath] of the document
    before; the text before is the new last entry of the undo stack, whose
    first entry has left it when it held a hundred or more, and the redo
    stack is empty, also when nothing was appended; the text is the one
    before, or the rendering of the new document. *)
Theorem handleAddToArray_spec (B : Builtins) (P : path) (v : Ref.rvalue)
  (st : Ref.AppState) (n : Ref.addr) :
  Ref.isNull (Ref.parsed st) || truthy (Ref.error st) = false ->
  (Ref.bound (Ref.parsed st) <= n)%nat ->
  let st' := fst (Ref.handleAddToArray B P v st n) in
  Ref.erase (Ref.parsed st')
  = addToArrayAtPath (Ref.erase (Ref.parsed st)) P (Ref.erase v)
  /\ Ref.undoStack st'
     = (if (List.length (Ref.undoStack st) <? 100)%nat then Ref.undoStack st
        else tl (Ref.undoStack st)) ++ [Ref.input st]
  /\ Ref.redoStack st' = []
  /\ (Ref.input st' = Ref.input st
      \/ JSON_stringify B (Ref.erase (Ref.parsed st')) = Some (Ref.input st')).
Proof.
  intros Hg Hb st'. subst st'. unfold Ref.handleAddToArray. rewrite Hg.
  pose proof (erase_addToArrayAtPath P (Ref.parsed st) v n) as He.
  pose proof (addToArrayAtPath_sameOrFresh (Ref.parsed st) P v n) as Hf.
  unfold Ref.bind.
  destruct (Ref.addToArrayAtPath (Ref.parsed st) P v n) as [updated n'].
  cbn [fst] in He, Hf. handler_outcome He Hf Hb updated.
Qed.

Lemma handleAddToArray_spec_witness :
  Ref.isNull (Ref.parsed sampleRefState) || truthy (Ref.error sampleRefState)
  = false /\
  (Ref.bound (Ref.parsed sampleRefState) <= 3)%nat /\
  Ref.undoStack
    (fst (Ref.handleAddToArray sampleBuiltins [Key "c"] Ref.RNull
            sampleRefState 3)) = ["{}"].
Proof.
  assert (Hb : (Ref.bound (Ref.parsed sampleRefState) <= 3)%nat)
    by (vm_compute; lia).
  split; [reflexivity|]. split; [exact Hb|].
  exact (proj1 (proj2
           (handleAddToArray_spec sampleBuiltins [Key "c"] Ref.RNull
              sampleRefState 3 eq_refl Hb))).
Defined.

(** X16.  [handleDeleteAtPath], with a document loaded, no error shown and
    a path that is not empty: the document afterwards is worth
    [deleteAtPath] of the document before; the text before is the new last
    entry of the undo stack, whose first entry has left it when it held a
    hundred or more, and the redo stack is empty, also when nothing was
    deleted; the text is the one before, or the rendering of the new
    document. *)
Theorem handleDeleteAtPath_spec (B : Builtins) (P : path)
  (st : Ref.AppState) (n : Ref.addr) :
  Ref.isNull (Ref.parsed st) || truthy (Ref.error st) = false ->
  P <> [] ->
  (Ref.bound (Ref.parsed st) <= n)%nat ->
  let st' := fst (Ref.handleDeleteAtPath B P st n) in
  Ref.erase (Ref.parsed st') = deleteAtPath (Ref.erase (Ref.parsed st)) P
  /\ Ref.undoStack st'
     = (if (List.length (Ref.undoStack st) <? 100)%nat then Ref.undoStack st
        else tl (Ref.undoStack st)) ++ [Ref.input st]
  /\ Ref.redoStack st' = []
  /\ (Ref.input st' = Ref.input st
      \/ JSON_stringify B (Ref.erase (Ref.parsed st')) = Some (Ref.input st')).
Proof.
  intros Hg Hp Hb st'. subst st'. unfold Ref.handleDeleteAtPath. rewrite Hg.
  destruct P as [|head rest]; [contradiction|].
  pose proof (erase_deleteAtPath (head :: rest) (Ref.parsed st) n) as He.
  pose proof (deleteAtPath_sameOrFresh (Ref.parsed st) (head :: rest) n) as Hf.
  unfold Ref.bind.
  destruct (Ref.deleteAtPath (Ref.parsed st) (head :: rest) n) as [updated n'].
  cbn [fst] in He, Hf. handler_outcome He Hf Hb updated.
Qed.

Lemma handleDeleteAtPath_spec_witness :
  Ref.isNull (Ref.parsed sampleRefState) || truthy (Ref.error sampleRefState)
  = false /\
  [Key "z"] <> [] /\
  (Ref.bound (Ref.parsed sampleRefState) <= 3)%nat /\
  Ref.undoStack
    (fst (Ref.handleDeleteAtPath sampleBuiltins [Key "z"] sampleRefState 3))
  = ["{}"].
Proof.
  assert (Hp : [Key "z"] <> []) by discriminate.
  assert (Hb : (Ref.bound (Ref.parsed sampleRefState) <= 3)%nat)
    by (vm_compute; lia).
  split; [reflexivity|]. split; [exact Hp|]. split; [exact Hb|].
  exact (proj1 (proj2
           (handleDeleteAtPath_spec sampleBuiltins [Key "z"] sampleRefState 3
              eq_refl Hp Hb))).
Defined.

(** ** The history of edits *)

Lemma pushCapped_length (stack : list string) (x : string) :
  (List.length stack <= 100)%nat ->
  (List.length (pushCapped stack x) <= 100)%nat.
Proof.
  intros H. unfold pushCapped.
  destruct (Nat.ltb_spec 100 (List.length (stack ++ [x]))) as [L|L]; [|exact L].
  rewrite length_app in L. simpl in L.
  destruct stack as [|y stack]; simpl in *; [lia|].
  rewrite length_app. simpl. lia.
Qed.

Lemma pushCapped_nonempty (stack : list string) (x : string) :
  pushCapped stack x <> [].
Proof.
  unfold pushCapped.
  destruct (Nat.ltb_spec 100 (List.length (stack ++ [x]))) as [L|L].
  - destruct (stack ++ [x]) as [|a [|b l]] eqn:E; simpl in L; try lia.
    discriminate.
  - now destruct stack.
Qed.

Lemma last_tl (l : list string) (d : string) :
  (2 <= List.length l)%nat -> last (tl l) d = last l d.
Proof.
  destruct l as [|a [|b l]]; simpl; intros H; try lia. reflexivity.
Qed.

Lemma pushCapped_last (stack : list string) (x d : string) :
  last (pushCapped stack x) d = x.
Proof.
  unfold pushCapped.
  destruct (Nat.ltb_spec 100 (List.length (stack ++ [x]))) as [L|L].
  - rewrite last_tl by lia. apply last_last.
  - apply last_last.
Qed.

Lemma pushCapped_removelast (stack : list string) (x : string) :
  (List.length stack < 100)%nat -> removelast (pushCapped stack x) = stack.
Proof.
  intros H. unfold pushCapped.
  replace (100 <? List.length (stack ++ [x]))%nat with false
    by (symmetry; apply Nat.ltb_ge; rewrite length_app; simpl; lia).
  apply removelast_last.
Qed.

Lemma pushCapped_restore (stack : list string) :
  stack <> [] -> (List.length stack <= 100)%nat ->
  pushCapped (removelast stack) (last stack "") = stack.
Proof.
  intros NE H. unfold pushCapped.
  rewrite <- (app_removelast_last "" NE).
  now replace (100 <? List.length stack)%nat with false
    by (symmetry; apply Nat.ltb_ge; lia).
Qed.

Lemma removelast_length_le (l : list string) :
  (List.length (removelast l) <= List.length l)%nat.
Proof.
  induction l as [|a [|b l] IH]; simpl in *; lia.
Qed.

Lemma pushUndoSnapshot_undoStack (st : AppState) :
  undoStack (pushUndoSnapshot st) = pushCapped (undoStack st) (input st).
Proof. reflexivity. Qed.

(** X17.  Undo and redo are inverse to each other: with both stacks within
    their cap of 100, a redo step after an undo step gives the state
    before them when the redo stack had room for one more entry, and an
    undo step after a redo step when the undo stack had. *)
Theorem undo_redo_inverse (st : AppState) :
  stacksBounded st ->
  (undoStack st <> [] -> (List.length (redoStack st) < 100)%nat ->
   redoStep (undoStep st) = st)
  /\ (redoStack st <> [] -> (List.length (undoStack st) < 100)%nat ->
      undoStep (redoStep st) = st).
Proof.
  intros [HU HR]. destruct st as [doc err text undo redo]; cbn in *. split.
  - intros NE L. unfold undoStep; cbn.
    destruct undo as [|u undo']; [contradiction|].
    unfold redoStep; cbn [redoStack undoStack input parsed error].
    destruct (pushCapped redo text) eqn:E;
      [now apply pushCapped_nonempty in E|]. rewrite <- E.
    rewrite pushCapped_last, pushCapped_removelast by exact L.
    now rewrite pushCapped_restore.
  - intros NE L. unfold redoStep; cbn.
    destruct redo as [|r redo']; [contradiction|].
    unfold undoStep; cbn [redoStack undoStack input parsed error].
    destruct (pushCapped undo text) eqn:E;
      [now apply pushCapped_nonempty in E|]. rewrite <- E.
    rewrite pushCapped_last, pushCapped_removelast by exact L.
    now rewrite pushCapped_restore.
Qed.

Lemma undo_redo_inverse_witness :
  stacksBounded editedState /\
  undoStack editedState <> [] /\
  (List.length (redoStack editedState) < 100)%nat /\
  redoStep (undoStep editedState) = editedState.
Proof.
  assert (HB : stacksBounded editedState) by (split; simpl; lia).
  assert (HN : undoStack editedState <> []) by discriminate.
  assert (HL : (List.length (redoStack editedState) < 100)%nat)
    by (simpl; lia).
  split; [exact HB|]. split; [exact HN|]. split; [exact HL|].
  exact (proj1 (undo_redo_inverse editedState HB) HN HL).
Defined.

(** X18.  An edit can be undone: with a document loaded and no error
    shown, the undo step after [handleEditValue] restores the text that
    was there before the edit, and the redo stack holds the text of the
    edited document alone. *)
Theorem handleEditValue_then_undo (B : Builtins) (p : path) (v : value)
  (st : AppState) :
  isNull (parsed st) || truthy (error st) = false ->
  let edited := handleEditValue B p v st in
  input (undoStep edited) = input st
  /\ redoStack (undoStep edited) = [input edited].
Proof.
  intros Hg edited. subst edited. unfold handleEditValue. rewrite Hg.
  unfold undoStep. cbn [undoStack redoStack input parsed error].
  rewrite pushUndoSnapshot_undoStack.
  destruct (pushCapped (undoStack st) (input st)) eqn:E;
    [now apply pushCapped_nonempty in E|]. rewrite <- E.
  cbn [input redoStack pushUndoSnapshot]. split.
  - apply pushCapped_last.
  - reflexivity.
Qed.

Lemma handleEditValue_then_undo_witness :
  isNull (parsed editedState) || truthy (error editedState) = false /\
  input (undoStep (handleEditValue sampleBuiltins [Key "a"] VNull editedState))
  = input editedState.
Proof.
  split; [reflexivity|].
  exact (proj1 (handleEditValue_then_undo sampleBuiltins [Key "a"] VNull
                  editedState eq_refl)).
Defined.

(** X19.  The history stays within its cap: when neither stack holds more
    than 100 entries, the same is true after [pushUndoSnapshot], after
    [handleEditValue], after an undo step and after a redo step. *)
Theorem history_stays_bounded (B : Builtins) (p : path) (v : value)
  (st : AppState) :
  stacksBounded st ->
  stacksBounded (pushUndoSnapshot st)
  /\ stacksBounded (handleEditValue B p v st)
  /\ stacksBounded (undoStep st)
  /\ stacksBounded (redoStep st).
Proof.
  intros [HU HR].
  assert (HP : stacksBounded (pushUndoSnapshot st)).
  { split; [now apply pushCapped_length | cbn; lia]. }
  split; [exact HP|]. split; [|split].
  - unfold handleEditValue.
    destruct (isNull (parsed st) || truthy (error st));
      [split; assumption | exact HP].
  - unfold undoStep. destruct (undoStack st) as [|u us] eqn:E;
      [split; [rewrite E|]; assumption|].
    split; cbn [undoStack redoStack].
    + pose proof (removelast_length_le (u :: us)). lia.
    + now apply pushCapped_length.
  - unfold redoStep. destruct (redoStack st) as [|r rs] eqn:E;
      [split; [|rewrite E]; assumption|].
    split; cbn [undoStack redoStack].
    + now apply pushCapped_length.
    + pose proof (removelast_length_le (r :: rs)). lia.
Qed.

Lemma history_stays_bounded_witness :
  stacksBounded editedState /\
  stacksBounded (undoStep editedState).
Proof.
  assert (HB : stacksBounded editedState) by (split; simpl; lia).
  split; [exact HB|].
  exact (proj1 (proj2 (proj2
           (history_stays_bounded sampleBuiltins [] VNull editedState HB)))).
Defined.

(** ** What the analyzer reads, and how it cuts the prefix *)

Lemma substring_0_app (s t : string) :
  String.substring 0 (String.length s) (s ++ t)%string = s.
Proof. induction s as [|c s IH]; simpl; [now destruct t | now rewrite IH]. Qed.

Lemma length_append (s t : string) :
  String.length (s ++ t)%string = (String.length s + String.length t)%nat.
Proof. induction s as [|c s IH]; simpl; [reflexivity | now rewrite IH]. Qed.

Lemma slice_0_app (s t : string) : Js.slice (s ++ t)%string 0 (Js.length s) = s.
Proof.
  unfold Js.slice, Js.clampIndex, Js.length. rewrite length_append.
  replace (0 <? 0)%Z with false by reflexivity.
  replace (Z.of_nat (String.length s) <? 0)%Z with false
    by (symmetry; apply Z.ltb_ge; lia).
  rewrite Z.min_l, Z.min_l, Z.sub_0_r, Z.max_l by lia.
  change (Z.to_nat 0) with O. rewrite Nat2Z.id. apply substring_0_app.
Qed.

Lemma slice_0_all (s : string) : Js.slice s 0 (Js.length s) = s.
Proof.
  rewrite <- (append_empty_r s) at 1. apply slice_0_app.
Qed.

Lemma getCompletionContext_app (s t : string) :
  getCompletionContext (s ++ t)%string (Js.length s)
  = getCompletionContext s (Js.length s).
Proof.
  unfold getCompletionContext.
  replace (Z.max 0 (Z.min (Js.length s) (Js.length (s ++ t)%string)))
    with (Js.length s)
    by (unfold Js.length; rewrite length_append; lia).
  replace (Z.max 0 (Z.min (Js.length s) (Js.length s))) with (Js.length s)
    by (unfold Js.length; lia).
  now rewrite slice_0_app, slice_0_all.
Qed.

Lemma isChar_true (c : ascii) (o : option ascii) :
  isChar c o = true -> o = Some c.
Proof.
  destruct o as [d|]; simpl; [|discriminate].
  intros E. apply Ascii.eqb_eq in E. now subst d.
Qed.

Lemma findLastTopLevelDotFrom_dot (s : string) (n : nat) :
  forall (depth : Z) (quote : option ascii),
    (0 <= findLastTopLevelDotFrom s n depth quote)%Z ->
    Js.charAt s (findLastTopLevelDotFrom s n depth quote) = Some "."%char.
Proof.
  induction n as [|n IH]; intros depth quote; simpl findLastTopLevelDotFrom.
  - lia.
  - destruct quote as [q|].
    + destruct (_ && _); apply IH.
    + destruct (_ || _); [destruct (negb _); apply IH|].
      destruct (isChar "]" _); [apply IH|].
      destruct (isChar "[" _); [apply IH|].
      destruct (0 <? depth)%Z; [apply IH|].
      destruct (isChar "." (Js.charAt s (Z.of_nat n))) eqn:E; [|apply IH].
      intros _. now apply isChar_true.
Qed.

Lemma get_app_length (pre rest : string) (ch : ascii) :
  String.get (String.length pre) (pre ++ String ch rest)%string = Some ch.
Proof. induction pre as [|c pre IH]; simpl; [reflexivity | exact IH]. Qed.

Lemma charAt_app_length (pre rest : string) (ch : ascii) :
  Js.charAt (pre ++ String ch rest)%string (Js.length pre) = Some ch.
Proof.
  unfold Js.charAt, Js.length.
  replace (Z.of_nat (String.length pre) <? 0)%Z with false
    by (symmetry; apply Z.ltb_ge; lia).
  rewrite Nat2Z.id. apply get_app_length.
Qed.

Lemma append_assoc (a b c : string) :
  ((a ++ b) ++ c)%string = (a ++ (b ++ c))%string.
Proof. induction a as [|x a IH]; simpl; [reflexivity | now rewrite IH]. Qed.

Lemma lastOpenBracketFrom_bracket (rest : string) :
  forall (pre : string) (prev : option ascii) (lastBracket : Z)
         (inQuote : option ascii),
    (lastBracket = -1 \/
     Js.charAt (pre ++ rest)%string lastBracket = Some "["%char)%Z ->
    (lastOpenBracketFrom rest (Js.length pre) prev lastBracket inQuote = -1 \/
     Js.charAt (pre ++ rest)%string
       (lastOpenBracketFrom rest (Js.length pre) prev lastBracket inQuote)
     = Some "["%char)%Z.
Proof.
  induction rest as [|ch rest IH]; intros pre prev lastBracket inQuote Hlb;
    simpl lastOpenBracketFrom.
  - exact Hlb.
  - assert (Hstep : forall lb q,
               (lb = -1 \/
                Js.charAt (pre ++ String ch rest)%string lb = Some "["%char)%Z ->
               (lastOpenBracketFrom rest (Js.length pre + 1) (Some ch) lb q = -1 \/
                Js.charAt (pre ++ String ch rest)%string
                  (lastOpenBracketFrom rest (Js.length pre + 1) (Some ch) lb q)
                = Some "["%char)%Z).
    { intros lb q Hlb'.
      replace (pre ++ String ch rest)%string
        with ((pre ++ String ch "") ++ rest)%string in *
        by (now rewrite append_assoc).
      replace (Js.length pre + 1)%Z with (Js.length (pre ++ String ch ""))
        by (unfold Js.length; rewrite length_append; simpl; lia).
      now apply IH. }
    destruct inQuote as [q|].
    + destruct (_ && _); now apply Hstep.
    + destruct (_ && _); [now apply Hstep|].
      destruct (Ascii.eqb ch "[") eqn:E.
      * apply Hstep. right. apply Ascii.eqb_eq in E. subst ch.
        apply charAt_app_length.
      * destruct (Ascii.eqb ch "]"); apply Hstep; [now left | exact Hlb].
Qed.

Lemma lastOpenBracket_bracket (s : string) :
  (0 <= lastOpenBracket s)%Z ->
  Js.charAt s (lastOpenBracket s) = Some "["%char.
Proof.
  intros H. unfold lastOpenBracket in *.
  destruct (lastOpenBracketFrom_bracket s "" None (-1)%Z None) as [E|E];
    [now left | |exact E].
  change (Js.length "") with 0%Z in E. lia.
Qed.

Lemma substring_cut (s : string) (n : nat) (c : ascii) :
  String.get n s = Some c ->
  s = (String.substring 0 n s
       ++ String c (String.substring (S n) (String.length s - S n) s))%string.
Proof.
  revert n; induction s as [|d s IH]; intros n H; [now destruct n|].
  destruct n as [|n]; simpl in H.
  - injection H as ->. simpl. f_equal. rewrite Nat.sub_0_r.
    clear IH. induction s as [|e s IH]; simpl; [reflexivity|]. now f_equal.
  - cbn [String.substring String.length append]. f_equal.
    change (S (String.length s) - S (S n))%nat with (String.length s - S n)%nat.
    now apply IH.
Qed.

Lemma get_in_range (s : string) (n : nat) (c : ascii) :
  String.get n s = Some c -> (n < String.length s)%nat.
Proof.
  revert n; induction s as [|d s IH]; intros [|n] H; simpl in *;
    try discriminate; try lia.
  apply IH in H. lia.
Qed.

Lemma slice_cut (s : string) (i : Z) (c : ascii) :
  Js.charAt s i = Some c ->
  s = (Js.slice s 0 i ++ String c (Js.sliceFrom s (i + 1)))%string.
Proof.
  unfold Js.charAt. destruct (Z.ltb_spec i 0) as [L|L]; [discriminate|].
  intros H. pose proof (get_in_range _ _ _ H) as R.
  unfold Js.sliceFrom, Js.slice, Js.clampIndex, Js.length.
  replace (0 <? 0)%Z with false by reflexivity.
  replace (i <? 0)%Z with false by (symmetry; apply Z.ltb_ge; lia).
  replace (i + 1 <? 0)%Z with false by (symmetry; apply Z.ltb_ge; lia).
  replace (Z.of_nat (String.length s) <? 0)%Z with false
    by (symmetry; apply Z.ltb_ge; lia).
  rewrite !Z.min_l by lia.
  change (Z.to_nat 0) with O.
  replace (Z.to_nat (Z.max (i - 0) 0)) with (Z.to_nat i) by lia.
  replace (Z.to_nat (i + 1)) with (S (Z.to_nat i)) by lia.
  replace (Z.to_nat (Z.max (Z.of_nat (String.length s) - (i + 1)) 0))
    with (String.length s - S (Z.to_nat i))%nat by lia.
  now apply substring_cut.
Qed.

Lemma substring_0_snoc (s : string) (n : nat) (c : ascii) :
  String.get n s = Some c ->
  String.substring 0 (S n) s = (String.substring 0 n s ++ String c "")%string.
Proof.
  revert n; induction s as [|d s IH]; intros n H; [now destruct n|].
  destruct n as [|n]; simpl in H.
  - injection H as ->. simpl. now destruct s.
  - cbn [String.substring append]. f_equal. now apply IH.
Qed.

Lemma slice_0_snoc (s : string) (i : Z) (c : ascii) :
  Js.charAt s i = Some c ->
  Js.slice s 0 (i + 1) = (Js.slice s 0 i ++ String c "")%string.
Proof.
  unfold Js.charAt. destruct (Z.ltb_spec i 0) as [L|L]; [discriminate|].
  intros H. pose proof (get_in_range _ _ _ H) as R.
  unfold Js.slice, Js.clampIndex, Js.length.
  replace (0 <? 0)%Z with false by reflexivity.
  replace (i <? 0)%Z with false by (symmetry; apply Z.ltb_ge; lia).
  replace (i + 1 <? 0)%Z with false by (symmetry; apply Z.ltb_ge; lia).
  rewrite !Z.min_l by lia. change (Z.to_nat 0) with O.
  replace (Z.to_nat (Z.max (i - 0) 0)) with (Z.to_nat i) by lia.
  replace (Z.to_nat (Z.max (i + 1 - 0) 0)) with (S (Z.to_nat i)) by lia.
  now apply substring_0_snoc.
Qed.

Lemma substring_split (s : string) (k : nat) :
  (k <= String.length s)%nat ->
  s = (String.substring 0 k s
       ++ String.substring k (String.length s - k) s)%string.
Proof.
  revert k; induction s as [|d s IH]; intros [|k] H; simpl in *;
    try reflexivity; try lia.
  - f_equal. clear. induction s as [|e s IH]; simpl; [reflexivity|]. now f_equal.
  - f_equal. apply IH. lia.
Qed.

Lemma slice_split (s : string) (k : Z) :
  (0 <= k <= Js.length s)%Z ->
  s = (Js.slice s 0 k ++ Js.sliceFrom s k)%string.
Proof.
  intros H. unfold Js.sliceFrom, Js.slice, Js.clampIndex, Js.length in *.
  replace (0 <? 0)%Z with false by reflexivity.
  replace (k <? 0)%Z with false by (symmetry; apply Z.ltb_ge; lia).
  replace (Z.of_nat (String.length s) <? 0)%Z with false
    by (symmetry; apply Z.ltb_ge; lia).
  rewrite !Z.min_l by lia. change (Z.to_nat 0) with O.
  replace (Z.to_nat (Z.max (k - 0) 0)) with (Z.to_nat k) by lia.
  replace (Z.to_nat (Z.max (Z.of_nat (String.length s) - k) 0))
    with (String.length s - Z.to_nat k)%nat by lia.
  apply substring_split. lia.
Qed.

Lemma sliceFrom_1 (q : ascii) (s : string) : Js.sliceFrom (String q s) 1 = s.
Proof.
  unfold Js.sliceFrom, Js.slice, Js.clampIndex, Js.length.
  replace (1 <? 0)%Z with false by reflexivity.
  replace (Z.of_nat (String.length (String q s)) <? 0)%Z with false
    by (symmetry; apply Z.ltb_ge; lia).
  rewrite !Z.min_l by (simpl String.length; lia).
  change (Z.to_nat 1) with 1%nat.
  replace (Z.to_nat (Z.max (Z.of_nat (String.length (String q s)) - 1) 0))
    with (String.length s) by (simpl String.length; lia).
  cbn [String.substring].
  rewrite <- (append_empty_r s) at 2. apply substring_0_app.
Qed.

Lemma startsWith_char (s : string) (q : ascii) :
  Js.startsWith s (String q "") = true -> s = String q (Js.sliceFrom s 1).
Proof.
  destruct s as [|d s]; simpl; [discriminate|].
  rewrite andb_true_r. intros E. apply Ascii.eqb_eq in E. subst d.
  now rewrite sliceFrom_1.
Qed.

Lemma getCompletionContext_clamped (expr : string) (cursor : Z) :
  getCompletionContext expr (Z.max 0 (Z.min cursor (Js.length expr)))
  = getCompletionContext expr cursor.
Proof.
  unfold getCompletionContext.
  now replace (Z.max 0 (Z.min (Z.max 0 (Z.min cursor (Js.length expr)))
                          (Js.length expr)))
    with (Z.max 0 (Z.min cursor (Js.length expr))) by lia.
Qed.

(** X20.  The analyzer reads the text before the caret only: for every
    expression and cursor, [getCompletionContext] gives the context that
    it gives for the prefix that ends at the clamped cursor, the caret at
    its end. *)
Theorem getCompletionContext_reads_prefix (expr : string) (cursor : Z) :
  let safeCursor := Z.max 0 (Z.min cursor (Js.length expr)) in
  getCompletionContext expr cursor
  = getCompletionContext (Js.slice expr 0 safeCursor) safeCursor.
Proof.
  intros safeCursor.
  assert (Hsafe : (0 <= safeCursor <= Js.length expr)%Z)
    by (unfold safeCursor, Js.length; lia).
  rewrite <- getCompletionContext_clamped. fold safeCursor.
  pose proof (slice_split expr safeCursor Hsafe) as E.
  pose proof (length_slice_0 expr safeCursor Hsafe) as L.
  set (s := Js.slice expr 0 safeCursor) in *. rewrite <- L.
  etransitivity;
    [|apply getCompletionContext_app with (t := Js.sliceFrom expr safeCursor)].
  now f_equal.
Qed.

(** X21.  The context cuts the prefix at the character it was found at:
    in a dot context the prefix is the base, a dot and the partial
    segment; in a descendant context it is the base, which ends with two
    dots, and the partial segment; in a bracket context it is the base,
    an opening bracket (and a quote, for a quoted key) and the partial
    segment; in each of them the range to replace starts where the base
    ends. *)
Theorem getCompletionContext_cuts_prefix (expr : string) (cursor : Z) :
  let prefix := Js.slice expr 0 (Z.max 0 (Z.min cursor (Js.length expr))) in
  match getCompletionContext expr cursor with
  | CtxDot base partial r =>
      prefix = (base ++ "." ++ partial)%string
      /\ range_start r = Js.length base
  | CtxDescendant base partial r =>
      prefix = (base ++ partial)%string
      /\ range_start r = Js.length base
      /\ exists stem, base = (stem ++ "..")%string
  | CtxBracketString base partial r =>
      (prefix = (base ++ "[" ++ String Js.singleQuote partial)%string
       \/ prefix = (base ++ "[" ++ String Js.doubleQuote partial)%string)
      /\ range_start r = Js.length base
  | CtxBracketIndex base partial r =>
      prefix = (base ++ "[" ++ partial)%string
      /\ range_start r = Js.length base
  | CtxNone r => range_start r = range_end r
  | CtxRoot r => range_start r = 0%Z
  end.
Proof.
  intros prefix0. unfold getCompletionContext. fold prefix0.
  set (safeCursor := Z.max 0 (Z.min cursor (Js.length expr))).
  pose proof (findLastTopLevelDot_range prefix0) as Hdot.
  pose proof (lastOpenBracket_range prefix0) as Hbr.
  destruct (negb (Js.startsWith prefix0 "$")); [reflexivity|].
  destruct (1 <=? findLastTopLevelDot prefix0)%Z eqn:Hge.
  - apply Z.leb_le in Hge.
    pose proof (findLastTopLevelDotFrom_dot prefix0 (String.length prefix0) 0 None)
      as Hc.
    fold (findLastTopLevelDot prefix0) in Hc. specialize (Hc ltac:(lia)).
    destruct (isChar "." (Js.charAt prefix0 (findLastTopLevelDot prefix0 - 1)))
      eqn:Hprev; cbn [range_start].
    + apply isChar_true in Hprev. split; [|split].
      * apply slice_split. lia.
      * reflexivity.
      * exists (Js.slice prefix0 0 (findLastTopLevelDot prefix0 - 1)).
        rewrite (slice_0_snoc _ _ _ Hc).
        replace (findLastTopLevelDot prefix0)
          with (findLastTopLevelDot prefix0 - 1 + 1)%Z at 1 by lia.
        rewrite (slice_0_snoc _ _ _ Hprev). now rewrite append_assoc.
    + split.
      * now apply slice_cut.
      * rewrite length_slice_0 by lia. reflexivity.
  - destruct (0 <=? lastOpenBracket prefix0)%Z eqn:Hge'; [|reflexivity].
    apply Z.leb_le in Hge'.
    pose proof (lastOpenBracket_bracket prefix0 Hge') as Hc.
    assert (Hlen : Js.length (Js.slice prefix0 0 (lastOpenBracket prefix0))
                   = lastOpenBracket prefix0) by (apply length_slice_0; lia).
    destruct (_ || _); [reflexivity|].
    destruct (Js.startsWith (Js.sliceFrom prefix0 (lastOpenBracket prefix0 + 1))
                (String Js.singleQuote "")) eqn:Hs; cbn [orb range_start].
    + split; [left | now rewrite Hlen].
      rewrite <- (startsWith_char _ _ Hs). now apply slice_cut.
    + destruct (Js.startsWith (Js.sliceFrom prefix0 (lastOpenBracket prefix0 + 1))
                  (String Js.doubleQuote "")) eqn:Hd; cbn [range_start].
      * split; [right | now rewrite Hlen].
        rewrite <- (startsWith_char _ _ Hd). now apply slice_cut.
      * split; [now apply slice_cut | now rewrite Hlen].
Qed.

(** ** Accepting a suggestion *)

Lemma getCompletionContext_dot_inv (expr : string) (cursor : Z)
  (base partial : string) (r : Range) :
  getCompletionContext expr cursor = CtxDot base partial r ->
  let safeCursor := Z.max 0 (Z.min cursor (Js.length expr)) in
  let prefix := Js.slice expr 0 safeCursor in
  Js.startsWith prefix "$" = true
  /\ prefix = (base ++ "." ++ partial)%string
  /\ (1 <= Js.length base)%Z
  /\ isChar "." (Js.charAt prefix (Js.length base - 1)) = false
  /\ r = {| range_start := Js.length base; range_end := safeCursor |}.
Proof.
  intros H safeCursor prefix0. revert H. unfold getCompletionContext.
  fold safeCursor. fold prefix0.
  pose proof (findLastTopLevelDot_range prefix0) as Hdot.
  destruct (Js.startsWith prefix0 "$") eqn:HS; cbn [negb]; [|discriminate].
  destruct (1 <=? findLastTopLevelDot prefix0)%Z eqn:Hge.
  - apply Z.leb_le in Hge.
    pose proof (findLastTopLevelDotFrom_dot prefix0 (String.length prefix0) 0 None)
      as Hc.
    fold (findLastTopLevelDot prefix0) in Hc. specialize (Hc ltac:(lia)).
    destruct (isChar "." (Js.charAt prefix0 (findLastTopLevelDot prefix0 - 1)))
      eqn:Hprev; [discriminate|].
    intros H. injection H as <- <- <-.
    rewrite length_slice_0 by lia.
    repeat split; try assumption. now apply slice_cut.
  - destruct (0 <=? lastOpenBracket prefix0)%Z; [|discriminate].
    destruct (_ || _); [discriminate|]. destruct (_ || _); discriminate.
Qed.

Lemma identifierPart_plain (c : ascii) :
  isIdentifierStart c || Js.isDigit c = true ->
  Ascii.eqb c Js.doubleQuote = false /\ Ascii.eqb c Js.singleQuote = false
  /\ Ascii.eqb c "]" = false /\ Ascii.eqb c "[" = false
  /\ Ascii.eqb c "." = false.
Proof.
  intros H. repeat split;
    match goal with
    | |- Ascii.eqb c ?d = false =>
        destruct (Ascii.eqb_spec c d) as [->|]; [discriminate|reflexivity]
    end.
Qed.

Lemma findLastTopLevelDotFrom_plain (s : string) (n : nat) (c : ascii) :
  Js.charAt s (Z.of_nat n) = Some c ->
  isIdentifierStart c || Js.isDigit c = true ->
  findLastTopLevelDotFrom s (S n) 0 None = findLastTopLevelDotFrom s n 0 None.
Proof.
  intros HC HP. destruct (identifierPart_plain c HP) as (A & B & C' & D & E).
  cbn [findLastTopLevelDotFrom]. rewrite HC. cbn [isChar].
  now rewrite A, B, C', D, E.
Qed.

Lemma findLastTopLevelDotFrom_at_dot (s : string) (n : nat) :
  Js.charAt s (Z.of_nat n) = Some "."%char ->
  findLastTopLevelDotFrom s (S n) 0 None = Z.of_nat n.
Proof.
  intros HC. cbn [findLastTopLevelDotFrom]. rewrite HC. reflexivity.
Qed.

Lemma get_app_right (pre k : string) (j : nat) :
  String.get (String.length pre + j) (pre ++ k)%string = String.get j k.
Proof. induction pre as [|c pre IH]; simpl; [reflexivity | exact IH]. Qed.

Lemma get_app_left (a b : string) (i : nat) :
  (i < String.length a)%nat ->
  String.get i (a ++ b)%string = String.get i a.
Proof.
  revert i; induction a as [|c a IH]; intros [|i] H; simpl in *; try lia;
    [reflexivity | apply IH; lia].
Qed.

Lemma get_identifierPart (k : string) (j : nat) :
  allIdentifierParts k = true -> (j < String.length k)%nat ->
  exists c, String.get j k = Some c /\ isIdentifierStart c || Js.isDigit c = true.
Proof.
  revert j; induction k as [|d k IH]; intros j H L; simpl in L; [lia|].
  cbn [allIdentifierParts] in H. apply andb_true_iff in H as [Hd Hk].
  destruct j as [|j]; simpl.
  - now exists d.
  - apply IH; [exact Hk | lia].
Qed.

Lemma findLastTopLevelDotFrom_skip (pre k : string) (j : nat) :
  allIdentifierParts k = true -> (j <= String.length k)%nat ->
  findLastTopLevelDotFrom (pre ++ k) (String.length pre + j) 0 None
  = findLastTopLevelDotFrom (pre ++ k) (String.length pre) 0 None.
Proof.
  intros HK. induction j as [|j IH]; intros L.
  - now rewrite Nat.add_0_r.
  - rewrite Nat.add_succ_r.
    destruct (get_identifierPart k j HK ltac:(lia)) as (c & G & HP).
    rewrite (findLastTopLevelDotFrom_plain _ _ c); [apply IH; lia | | exact HP].
    unfold Js.charAt.
    replace (Z.of_nat (String.length pre + j) <? 0)%Z with false
      by (symmetry; apply Z.ltb_ge; lia).
    now rewrite Nat2Z.id, get_app_right.
Qed.

Lemma charAt_app_left (a b : string) (i : Z) :
  (0 <= i < Js.length a)%Z -> Js.charAt (a ++ b)%string i = Js.charAt a i.
Proof.
  intros H. unfold Js.charAt, Js.length in *.
  destruct (i <? 0)%Z; [reflexivity|]. apply get_app_left. lia.
Qed.

Lemma substring_app_right (a b : string) :
  String.substring (String.length a) (String.length b) (a ++ b)%string = b.
Proof.
  induction a as [|c a IH]; simpl; [|exact IH].
  rewrite <- (append_empty_r b) at 2. apply substring_0_app.
Qed.

Lemma sliceFrom_app (a b : string) :
  Js.sliceFrom (a ++ b)%string (Js.length a) = b.
Proof.
  unfold Js.sliceFrom, Js.slice, Js.clampIndex, Js.length.
  rewrite length_append.
  replace (Z.of_nat (String.length a) <? 0)%Z with false
    by (symmetry; apply Z.ltb_ge; lia).
  replace (Z.of_nat (String.length a + String.length b) <? 0)%Z with false
    by (symmetry; apply Z.ltb_ge; lia).
  rewrite !Z.min_l by lia.
  rewrite Nat2Z.id.
  replace (Z.to_nat (Z.max (Z.of_nat (String.length a + String.length b)
                            - Z.of_nat (String.length a)) 0))
    with (String.length b) by lia.
  apply substring_app_right.
Qed.

Lemma getCompletionContext_dot_key (base k : string) :
  (1 <= Js.length base)%Z ->
  Js.startsWith base "$" = true ->
  isChar "." (Js.charAt base (Js.length base - 1)) = false ->
  allIdentifierParts k = true ->
  getCompletionContext (base ++ "." ++ k)%string
    (Js.length (base ++ "." ++ k)%string)
  = CtxDot base k
      {| range_start := Js.length base;
         range_end := Js.length (base ++ "." ++ k)%string |}.
Proof.
  intros HL HS HP HK.
  set (whole := (base ++ "." ++ k)%string).
  assert (HW : whole = ((base ++ ".") ++ k)%string)
    by (unfold whole; now rewrite append_assoc).
  assert (Hlen : Js.length whole = (Js.length base + 1 + Js.length k)%Z).
  { unfold whole, Js.length. rewrite !length_append. simpl. lia. }
  assert (Hdot : findLastTopLevelDot whole = Js.length base).
  { unfold findLastTopLevelDot.
    replace (String.length whole)
      with (String.length (base ++ ".") + String.length k)%nat
      by (rewrite HW, !length_append; reflexivity).
    rewrite HW, findLastTopLevelDotFrom_skip by (try exact HK; lia).
    rewrite length_append. simpl String.length. rewrite Nat.add_1_r.
    rewrite findLastTopLevelDotFrom_at_dot; [reflexivity|].
    rewrite append_assoc. apply charAt_app_length. }
  unfold getCompletionContext.
  replace (Z.max 0 (Z.min (Js.length whole) (Js.length whole)))
    with (Js.length whole) by (unfold Js.length; lia).
  rewrite slice_0_all.
  replace (Js.startsWith whole "$") with true
    by (symmetry; unfold whole;
        destruct base; [unfold Js.length in HL; simpl in HL; lia | exact HS]).
  cbn [negb]. rewrite Hdot.
  replace (1 <=? Js.length base)%Z with true by (symmetry; apply Z.leb_le; lia).
  replace (Js.charAt whole (Js.length base - 1))
    with (Js.charAt base (Js.length base - 1))
    by (symmetry; apply charAt_app_left; lia).
  rewrite HP. f_equal.
  - apply slice_0_app.
  - rewrite HW.
    replace (Js.length base + 1)%Z with (Js.length (base ++ "."))
      by (unfold Js.length; rewrite length_append; simpl; lia).
    apply sliceFrom_app.
Qed.

(** X22.  Accepting a key in a dot context: when the context at the caret
    is a dot context with base [base] and [k] is an identifier key,
    [applySuggestion] with the value made of a dot and [k] depends on the
    evaluator.  When the evaluator gives a result for the base, the partial
    segment is replaced and nothing else: the text becomes the base, the
    dot, [k] and the text that followed the caret, and the context of that
    text, the caret behind [k], is the dot context with the same base and
    [k] as its partial segment.  When the evaluator gives no result for the
    base, the whole text is replaced by the value. *)
Theorem applySuggestion_dot (tryEval : string -> bool) (expr : string)
  (cursor : Z) (base partial : string) (r : Range) (k : string) :
  getCompletionContext expr cursor = CtxDot base partial r ->
  isIdentifierKey k = true ->
  let next := applySuggestion tryEval expr cursor ("." ++ k) in
  let caret := Js.length (base ++ "." ++ k)%string in
  (tryEval base = true ->
   next = (base ++ "." ++ k ++ Js.sliceFrom expr (range_end r))%string
   /\ getCompletionContext next caret
      = CtxDot base k {| range_start := Js.length base; range_end := caret |})
  /\ (tryEval base = false -> next = ("." ++ k)%string).
Proof.
  intros HC HK next caret. split; intros HT.
  - destruct (getCompletionContext_dot_inv _ _ _ _ _ HC)
      as (HS & HP & HL & Hprev & Hr).
    assert (Hsafe : (0 <= Z.max 0 (Z.min cursor (Js.length expr))
                     <= Js.length expr)%Z)
      by (unfold Js.length; lia).
    assert (Hnext : next
                    = (base ++ "." ++ k ++ Js.sliceFrom expr (range_end r))%string).
    { unfold next, applySuggestion, computeSuggestions_replace.
      rewrite getCompletionContext_clamped, HC, HT, Hr.
      cbn [range_start range_end].
      rewrite (slice_split expr _ Hsafe) at 1. rewrite HP.
      rewrite (append_assoc base), slice_0_app. reflexivity. }
    split; [exact Hnext|].
    assert (HKs : allIdentifierParts k = true).
    { destruct k as [|c k]; [discriminate|]. cbn [isIdentifierKey] in HK.
      apply andb_true_iff in HK as [Hc Hk]. cbn [allIdentifierParts].
      now rewrite Hc, Hk. }
    assert (HSb : Js.startsWith base "$" = true).
    { rewrite HP in HS. destruct base as [|c base];
        [unfold Js.length in HL; simpl in HL; lia | exact HS]. }
    assert (HPb : isChar "." (Js.charAt base (Js.length base - 1)) = false).
    { rewrite HP, charAt_app_left in Hprev by lia. exact Hprev. }
    rewrite Hnext.
    replace (base ++ "." ++ k ++ Js.sliceFrom expr (range_end r))%string
      with ((base ++ "." ++ k) ++ Js.sliceFrom expr (range_end r))%string
      by (now rewrite !append_assoc).
    unfold caret. rewrite getCompletionContext_app.
    now apply getCompletionContext_dot_key.
  - unfold next, applySuggestion, computeSuggestions_replace.
    rewrite getCompletionContext_clamped, HC, HT.
    cbn [range_start range_end].
    pose proof (slice_0_app "" expr) as E0.
    change (Js.slice expr 0 0 = "") in E0. rewrite E0.
    pose proof (sliceFrom_app expr "") as E.
    rewrite append_empty_r in E. rewrite E.
    now rewrite append_empty_r.
Qed.

Lemma applySuggestion_dot_witness :
  getCompletionContext "$.ab.c" 4
  = CtxDot "$" "ab" {| range_start := 1; range_end := 4 |} /\
  isIdentifierKey "abc" = true /\
  applySuggestion (fun _ => true) "$.ab.c" 4 ("." ++ "abc") = "$.abc.c" /\
  applySuggestion (fun _ => false) "$.ab.c" 4 ("." ++ "abc") = ".abc".
Proof.
  split; [reflexivity|]. split; [reflexivity|]. split.
  - exact (proj1 (proj1 (applySuggestion_dot (fun _ => true) "$.ab.c" 4 "$"
                           "ab" {| range_start := 1; range_end := 4 |} "abc"
                           eq_refl eq_refl) eq_refl)).
  - exact (proj2 (applySuggestion_dot (fun _ => false) "$.ab.c" 4 "$" "ab"
                    {| range_start := 1; range_end := 4 |} "abc"
                    eq_refl eq_refl) eq_refl).
Defined.

(** ** Paths of the tree view *)

Lemma segmentEq_true (x y : JsonPathSegment) : segmentEq x y = true <-> x = y.
Proof.
  destruct x as [k|i], y as [k'|j]; simpl; split; intros H;
    try discriminate; try (injection H as ->).
  - apply String.eqb_eq in H. now subst.
  - apply String.eqb_refl.
  - apply N.eqb_eq in H. now subst.
  - apply N.eqb_refl.
Qed.

Lemma segmentsEq_true (x y : option JsonPathSegment) :
  segmentsEq x y = true <-> x = y.
Proof.
  destruct x as [x|], y as [y|]; simpl; split; intros H; try discriminate;
    try reflexivity.
  - f_equal. now apply segmentEq_true.
  - injection H as ->. now apply segmentEq_true.
Qed.

(** X23.  [pathsEqual] decides the equality of paths: it answers [true]
    exactly when the two paths have the same segments in the same order,
    a key never being equal to an index. *)
Theorem pathsEqual_spec (a b : path) : pathsEqual a b = true <-> a = b.
Proof.
  unfold pathsEqual. split.
  - destruct (Nat.eqb_spec (List.length a) (List.length b)) as [L|L];
      [|discriminate]. cbn [negb].
    intros H. rewrite forallb_forall in H.
    apply nth_error_ext. intros i.
    destruct (Nat.lt_ge_cases i (List.length a)) as [R|R].
    + apply segmentsEq_true, H, in_seq. lia.
    + rewrite (proj2 (nth_error_None a i)) by lia.
      now rewrite (proj2 (nth_error_None b i)) by lia.
  - intros <-. rewrite Nat.eqb_refl. cbn [negb].
    apply forallb_forall. intros i _. now apply segmentsEq_true.
Qed.

(** ** Samples *)

Lemma collectArraySampleLength_from (matches : list value) (m0 : nat) :
  let r := fold_left
             (fun max m =>
                match m with
                | VArray items => Nat.max max (List.length items)
                | _ => max
                end) matches m0 in
  (m0 <= r)%nat
  /\ (forall items, In (VArray items) matches -> (List.length items <= r)%nat)
  /\ (r = m0 \/ exists items, In (VArray items) matches /\ List.length items = r).
Proof.
  revert m0; induction matches as [|m matches IH]; intros m0; cbn [fold_left].
  - split; [lia|]. split; [now intros ? []| now left].
  - set (m1 := match m with
               | VArray items => Nat.max m0 (List.length items)
               | _ => m0
               end).
    destruct (IH m1) as (A & B & C).
    assert (Hm : (m0 <= m1)%nat) by (subst m1; destruct m; lia).
    split; [lia|]. split.
    + intros items [-> | HI]; [|now apply B]. subst m1. cbn in A. lia.
    + destruct C as [C | (items & HI & HL)].
      * destruct m; try (left; exact C).
        subst m1. destruct (Nat.max_spec m0 (List.length items)) as [[_ E]|[_ E]].
        -- right. exists items. split; [now left | congruence].
        -- left. congruence.
      * right. exists items. split; [now right | exact HL].
Qed.

(** X24.  [collectArraySampleLength] is the greatest length among the
    lists of the matches: no list of the matches is longer than the
    result, and the result is 0 or the length of one of them. *)
Theorem collectArraySampleLength_max (matches : list value) :
  (forall items, In (VArray items) matches ->
     (List.length items <= collectArraySampleLength matches)%nat)
  /\ (collectArraySampleLength matches = O
      \/ exists items, In (VArray items) matches
           /\ List.length items = collectArraySampleLength matches).
Proof.
  destruct (collectArraySampleLength_from matches O) as (_ & B & C).
  split; [exact B | exact C].
Qed.

Lemma collectArraySampleLength_max_witness :
  In (VArray [num 10; num 20]) [VNull; VArray [num 10; num 20]; VArray []] /\
  (List.length [num 10; num 20]
   <= collectArraySampleLength [VNull; VArray [num 10; num 20]; VArray []])%nat.
Proof.
  assert (HI : In (VArray [num 10; num 20])
                 [VNull; VArray [num 10; num 20]; VArray []])
    by (right; left; reflexivity).
  split; [exact HI|].
  exact (proj1 (collectArraySampleLength_max
                  [VNull; VArray [num 10; num 20]; VArray []])
           [num 10; num 20] HI).
Defined.

(** ** The columns of the table *)

Lemma splice_remove {A : Type} (l : list A) (i : Z) :
  (0 <= i < Z.of_nat (List.length l))%Z ->
  Columns.splice l i 1 [] = firstn (Z.to_nat i) l ++ skipn (S (Z.to_nat i)) l.
Proof.
  intros H. unfold Columns.splice.
  replace (i <? 0)%Z with false by (symmetry; apply Z.ltb_ge; lia).
  rewrite Z.min_l by lia. cbn [app]. now rewrite Nat.add_1_r.
Qed.

Lemma splice_insert {A : Type} (l : list A) (t : Z) (x : A) :
  (0 <= t <= Z.of_nat (List.length l))%Z ->
  Columns.splice l t 0 [x] = firstn (Z.to_nat t) l ++ x :: skipn (Z.to_nat t) l.
Proof.
  intros H. unfold Columns.splice.
  replace (t <? 0)%Z with false by (symmetry; apply Z.ltb_ge; lia).
  rewrite Z.min_l by lia. cbn [app]. now rewrite Nat.add_0_r.
Qed.

Lemma nth_error_cut {A : Type} (l : list A) (n : nat) (x : A) :
  nth_error l n = Some x -> l = firstn n l ++ x :: skipn (S n) l.
Proof.
  revert n; induction l as [|y l IH]; intros [|n] H; simpl in H;
    try discriminate.
  - now injection H as ->.
  - cbn [firstn skipn app]. f_equal. now apply IH.
Qed.

Lemma length_remove_nth {A : Type} (l : list A) (n : nat) :
  (n < List.length l)%nat ->
  List.length (firstn n l ++ skipn (S n) l) = (List.length l - 1)%nat.
Proof.
  intros H. rewrite length_app, length_firstn, length_skipn. lia.
Qed.

Lemma moveColumn_in_range (fromIndex toIndex : Z)
  (prev : list Columns.JsonPathColumnStored) :
  (0 <= fromIndex < Z.of_nat (List.length prev))%Z ->
  (0 <= toIndex < Z.of_nat (List.length prev))%Z ->
  fromIndex <> toIndex ->
  exists item rest,
    nth_error prev (Z.to_nat fromIndex) = Some item
    /\ rest = firstn (Z.to_nat fromIndex) prev
              ++ skipn (S (Z.to_nat fromIndex)) prev
    /\ Columns.moveColumn fromIndex toIndex prev
       = firstn (Z.to_nat toIndex) rest ++ item :: skipn (Z.to_nat toIndex) rest.
Proof.
  intros HF HT NE. unfold Columns.moveColumn.
  rewrite (proj2 (Z.eqb_neq _ _) NE).
  replace (fromIndex <? 0)%Z with false by (symmetry; apply Z.ltb_ge; lia).
  replace (toIndex <? 0)%Z with false by (symmetry; apply Z.ltb_ge; lia).
  replace (Z.of_nat (List.length prev) <=? fromIndex)%Z with false
    by (symmetry; apply Z.leb_gt; lia).
  replace (Z.of_nat (List.length prev) <=? toIndex)%Z with false
    by (symmetry; apply Z.leb_gt; lia).
  cbn [orb].
  destruct (nth_error prev (Z.to_nat fromIndex)) as [item|] eqn:E.
  - exists item, (firstn (Z.to_nat fromIndex) prev
                  ++ skipn (S (Z.to_nat fromIndex)) prev).
    split; [reflexivity|]. split; [reflexivity|].
    rewrite splice_remove by lia. apply splice_insert.
    rewrite length_remove_nth by lia. lia.
  - apply nth_error_None in E. lia.
Qed.

Lemma moveColumn_Permutation (fromIndex toIndex : Z)
  (prev : list Columns.JsonPathColumnStored) :
  Permutation (Columns.moveColumn fromIndex toIndex prev) prev.
Proof.
  destruct (Z.eq_dec fromIndex toIndex) as [E|NE].
  { unfold Columns.moveColumn. now rewrite (proj2 (Z.eqb_eq _ _) E). }
  destruct (Z_lt_ge_dec fromIndex 0) as [L|L].
  { unfold Columns.moveColumn. rewrite (proj2 (Z.eqb_neq _ _) NE).
    now rewrite (proj2 (Z.ltb_lt _ _) L). }
  destruct (Z_lt_ge_dec toIndex 0) as [L'|L'].
  { unfold Columns.moveColumn. rewrite (proj2 (Z.eqb_neq _ _) NE).
    now rewrite (proj2 (Z.ltb_lt _ _) L'), orb_true_r. }
  destruct (Z_le_gt_dec (Z.of_nat (List.length prev)) fromIndex) as [G|G].
  { unfold Columns.moveColumn. rewrite (proj2 (Z.eqb_neq _ _) NE).
    rewrite (proj2 (Z.leb_le _ _) G). cbn [orb].
    now destruct (_ || _). }
  destruct (Z_le_gt_dec (Z.of_nat (List.length prev)) toIndex) as [G'|G'].
  { unfold Columns.moveColumn. rewrite (proj2 (Z.eqb_neq _ _) NE).
    rewrite (proj2 (Z.leb_le _ _) G'), orb_true_r.
    now destruct (_ || _). }
  destruct (moveColumn_in_range fromIndex toIndex prev) as (item & rest & E & R & M);
    try lia; try exact NE.
  rewrite M. transitivity (item :: rest).
  - rewrite <- Permutation_middle. now rewrite firstn_skipn.
  - rewrite R. etransitivity; [apply Permutation_middle|].
    now rewrite <- (nth_error_cut _ _ _ E).
Qed.

(** X25.  [moveColumn] moves one column and keeps the others: with both
    indices within the list, the result is a permutation of the columns,
    and the column that was at [fromIndex] is at [toIndex]. *)
Theorem moveColumn_spec (fromIndex toIndex : Z)
  (prev : list Columns.JsonPathColumnStored) :
  (0 <= fromIndex < Z.of_nat (List.length prev))%Z ->
  (0 <= toIndex < Z.of_nat (List.length prev))%Z ->
  Permutation (Columns.moveColumn fromIndex toIndex prev) prev
  /\ nth_error (Columns.moveColumn fromIndex toIndex prev) (Z.to_nat toIndex)
     = nth_error prev (Z.to_nat fromIndex).
Proof.
  intros HF HT. split; [apply moveColumn_Permutation|].
  destruct (Z.eq_dec fromIndex toIndex) as [E|NE].
  { unfold Columns.moveColumn. rewrite (proj2 (Z.eqb_eq _ _) E). now subst. }
  destruct (moveColumn_in_range fromIndex toIndex prev HF HT NE)
    as (item & rest & E & R & M).
  rewrite M, E.
  assert (HL : List.length (firstn (Z.to_nat toIndex) rest) = Z.to_nat toIndex).
  { rewrite length_firstn, R, length_remove_nth by lia. lia. }
  rewrite nth_error_app2 by lia. rewrite HL, Nat.sub_diag. reflexivity.
Qed.

Lemma moveColumn_spec_witness :
  (0 <= 0 < Z.of_nat (List.length sampleColumns))%Z /\
  (0 <= 2 < Z.of_nat (List.length sampleColumns))%Z /\
  nth_error (Columns.moveColumn 0 2 sampleColumns) (Z.to_nat 2)
  = nth_error sampleColumns (Z.to_nat 0).
Proof.
  assert (HF : (0 <= 0 < Z.of_nat (List.length sampleColumns))%Z)
    by (simpl; lia).
  assert (HT : (0 <= 2 < Z.of_nat (List.length sampleColumns))%Z)
    by (simpl; lia).
  split; [exact HF|]. split; [exact HT|].
  exact (proj2 (moveColumn_spec 0 2 sampleColumns HF HT)).
Defined.

(** X26.  [loadJsonPathColumns] always yields a column: whatever the
    storage holds and whatever [JSON.parse] makes of it, the list
    returned is not empty. *)
Theorem loadJsonPathColumns_nonempty (B : Builtins) (hasWindow : bool)
  (raw : option string) :
  Columns.loadJsonPathColumns B hasWindow raw <> [].
Proof.
  unfold Columns.loadJsonPathColumns, Columns.defaultColumns.
  destruct hasWindow; cbn [negb]; [|discriminate].
  destruct raw as [text|]; [|discriminate].
  destruct (String.eqb text ""); [discriminate|].
  destruct (JSON_parse B text) as [parsedText|]; [|discriminate].
  destruct (Columns.isStringArray parsedText).
  - destruct (map _ _); discriminate.
  - destruct (negb _); [discriminate|]. destruct (map _ _); discriminate.
Qed.

Lemma length_splice_remove {A : Type} (l : list A) (i : Z) :
  (List.length l - 1 <= List.length (Columns.splice l i 1 []))%nat.
Proof.
  unfold Columns.splice. cbn [app].
  rewrite length_app, length_firstn, length_skipn. lia.
Qed.

(** X27.  The edits of the column list keep a column: from a list that
    is not empty, [addColumn], [removeColumn] at any index and
    [moveColumn] between any indices give a list that is not empty. *)
Theorem column_edits_keep_one (prev : list Columns.JsonPathColumnStored)
  (index fromIndex toIndex : Z) :
  prev <> [] ->
  Columns.addColumn prev <> []
  /\ Columns.removeColumn index prev <> []
  /\ Columns.moveColumn fromIndex toIndex prev <> [].
Proof.
  intros NE. split; [|split].
  - unfold Columns.addColumn. now destruct prev.
  - unfold Columns.removeColumn.
    destruct (Nat.leb_spec (List.length prev) 1) as [L|L]; [exact NE|].
    pose proof (length_splice_remove prev index) as H.
    destruct (Columns.splice prev index 1 []); [simpl in H; lia | discriminate].
  - intros E. pose proof (moveColumn_Permutation fromIndex toIndex prev) as P.
    rewrite E in P. apply Permutation_nil in P. contradiction.
Qed.

Lemma column_edits_keep_one_witness :
  sampleColumns <> [] /\
  Columns.removeColumn (-1) sampleColumns <> [].
Proof.
  assert (NE : sampleColumns <> []) by discriminate.
  split; [exact NE|].
  exact (proj1 (proj2 (column_edits_keep_one sampleColumns (-1) 0 0 NE))).
Defined.

(** ** The history of formatted inputs *)

Lemma In_firstn {A : Type} (n : nat) (l : list A) (x : A) :
  In x (firstn n l) -> In x l.
Proof.
  revert l; induction n as [|n IH]; intros [|y l] H; simpl in H;
    try contradiction.
  destruct H as [->|H]; [now left | right; now apply IH].
Qed.

Lemma loadHistory_records (B : Builtins) (hasWindow : bool)
  (raw : option string) (r : value) :
  In r (History.loadHistory B hasWindow raw) -> History.isFormatRecord r = true.
Proof.
  unfold History.loadHistory, History.safeParse.
  destruct hasWindow; cbn [negb]; [|contradiction].
  destruct raw as [text|]; [|contradiction].
  destruct (String.eqb text ""); [contradiction|].
  destruct (JSON_parse B text) as [[| | | | |items|props]|]; try contradiction.
  intros H. apply In_firstn, filter_In in H. apply H.
Qed.

(** X28.  [addRecord] keeps the history short, newest first and free of
    repeats: the list returned holds at most 100 records, starts with the
    new record, and each record behind it is a well-formed record of the
    stored history whose input differs from the new one. *)
Theorem addRecord_spec (B : Builtins) (hasWindow : bool) (raw : option string)
  (id : string) (now : spec_float) (input : string) :
  let next := History.addRecord B hasWindow raw id now input in
  (List.length next <= History.MAX_RECORDS)%nat
  /\ hd_error next = Some (History.newRecord id now input)
  /\ forall r, In r (tl next) ->
       History.isFormatRecord r = true
       /\ In r (History.loadHistory B hasWindow raw)
       /\ Columns.textOf (propertyOf r "input") <> input.
Proof.
  intros next. subst next. unfold History.addRecord, History.MAX_RECORDS.
  split; [apply firstn_le_length|]. rewrite firstn_cons.
  split; [reflexivity|].
  cbn [tl]. intros r H. apply In_firstn, filter_In in H.
  destruct H as [HI HO]. split; [now apply loadHistory_records in HI|].
  split; [exact HI|].
  unfold History.otherInput in HO. apply negb_true_iff, String.eqb_neq in HO.
  exact HO.
Qed.

Lemma addRecord_spec_witness :
  In (History.newRecord "1-a" (js_number 1) "{}")
    (tl (History.addRecord historyBuiltins true (Some storedHistoryText)
           "2-b" (js_number 2) "[]")) /\
  Columns.textOf (propertyOf (History.newRecord "1-a" (js_number 1) "{}") "input")
  <> "[]".
Proof.
  assert (HI : In (History.newRecord "1-a" (js_number 1) "{}")
                 (tl (History.addRecord historyBuiltins true
                        (Some storedHistoryText) "2-b" (js_number 2) "[]")))
    by (left; reflexivity).
  split; [exact HI|].
  exact (proj2 (proj2 (proj2 (proj2
           (addRecord_spec historyBuiltins true (Some storedHistoryText)
              "2-b" (js_number 2) "[]"))
           (History.newRecord "1-a" (js_number 1) "{}") HI))).
Defined.

(** ** The keys that the descendant operator suggests *)

Lemma keyOccurs_array (k : string) (items : list value) :
  keyOccurs k (VArray items) <-> Exists (keyOccurs k) items.
Proof.
  cbn [keyOccurs]. induction items as [|x items IH].
  - split; [contradiction | intros H; inversion H].
  - rewrite Exists_cons. now rewrite IH.
Qed.

Lemma keyOccurs_object (k : string) (props : list (string * value)) :
  keyOccurs k (VObject props)
  <-> has_own props k = true \/ Exists (keyOccurs k) (map snd props).
Proof.
  cbn [keyOccurs]. apply or_iff_compat_l.
  induction props as [|kv props IH]; cbn [map].
  - split; [contradiction | intros H; inversion H].
  - rewrite Exists_cons. now rewrite IH.
Qed.

Lemma nodeCount_pos (v : value) : (1 <= nodeCount v)%nat.
Proof. destruct v; simpl; lia. Qed.

Lemma nodeCount_object (props : list (string * value)) :
  nodeCount (VObject props) = S (list_sum (map nodeCount (map snd props))).
Proof. cbn [nodeCount]. now rewrite map_map. Qed.

Lemma list_sum_cons (n : nat) (l : list nat) :
  list_sum (n :: l) = (n + list_sum l)%nat.
Proof. reflexivity. Qed.

Section DescendantKeyFacts.
Context {Sample : Type} (toSample : value -> Sample).

Lemma noteEntries_keys (props : list (string * value))
  (out : list (string * Sample)) (k : string) :
  In k (map fst (noteEntries toSample props out))
  <-> In k (map fst out) \/ has_own props k = true.
Proof.
  unfold noteEntries. revert out.
  induction props as [|[k' v] props IH]; intros out; cbn [fold_left fst snd].
  - simpl. split; [tauto | intros [H|H]; [exact H | discriminate]].
  - rewrite IH. cbn [has_own]. rewrite orb_true_iff, String.eqb_eq.
    destruct (has_own out k') eqn:E.
    + apply has_own_In in E. split; [tauto|].
      intros [H|[->|H]]; tauto.
    + rewrite map_app, in_app_iff. simpl. tauto.
Qed.

Lemma noteEntries_NoDup (props : list (string * value))
  (out : list (string * Sample)) :
  NoDup (map fst out) -> NoDup (map fst (noteEntries toSample props out)).
Proof.
  unfold noteEntries. revert out.
  induction props as [|[k' v] props IH]; intros out ND; cbn [fold_left fst snd];
    [exact ND|].
  apply IH. destruct (has_own out k') eqn:E; [exact ND|].
  rewrite map_app. simpl. apply NoDup_app; [exact ND | |].
  - constructor; [tauto | constructor].
  - intros x HI [<-|[]]. apply has_own_In in HI. congruence.
Qed.

Lemma collectLoop_sound (P : string -> Prop) (budget : nat) :
  forall (queue : list value) (out : list (string * Sample)),
    (forall k, In k (map fst out) -> P k) ->
    (forall q k, In q queue -> keyOccurs k q -> P k) ->
    forall k, In k (map fst (collectLoop toSample budget queue out)) -> P k.
Proof.
  induction budget as [|budget IH]; intros queue out HO HQ; [exact HO|].
  cbn [collectLoop]. destruct queue as [|cur rest]; [exact HO|].
  assert (HR : forall q k, In q rest -> keyOccurs k q -> P k)
    by (intros q k HI; apply HQ; now right).
  destruct cur as [| | | | |items|props]; try (now apply IH).
  - apply IH; [exact HO|]. intros q k HI HK.
    apply in_app_iff in HI as [HI|HI]; [now apply (HR q)|].
    apply (HQ (VArray items)); [now left|].
    apply keyOccurs_array, Exists_exists. now exists q.
  - apply IH.
    + intros k HI. apply noteEntries_keys in HI as [HI|HI]; [now apply HO|].
      apply (HQ (VObject props)); [now left|].
      apply keyOccurs_object. now left.
    + intros q k HI HK.
      apply in_app_iff in HI as [HI|HI]; [now apply (HR q)|].
      apply (HQ (VObject props)); [now left|].
      apply keyOccurs_object. right. apply Exists_exists. now exists q.
Qed.

Lemma collectLoop_NoDup (budget : nat) :
  forall (queue : list value) (out : list (string * Sample)),
    NoDup (map fst out) ->
    NoDup (map fst (collectLoop toSample budget queue out)).
Proof.
  induction budget as [|budget IH]; intros queue out ND; [exact ND|].
  cbn [collectLoop]. destruct queue as [|cur rest]; [exact ND|].
  destruct cur; try (now apply IH).
  apply IH. now apply noteEntries_NoDup.
Qed.

Lemma collectLoop_complete (budget : nat) :
  forall (queue : list value) (out : list (string * Sample)),
    (list_sum (map nodeCount queue) <= budget)%nat ->
    forall k, In k (map fst out) \/ Exists (keyOccurs k) queue ->
              In k (map fst (collectLoop toSample budget queue out)).
Proof.
  induction budget as [|budget IH]; intros queue out HB k HK.
  - destruct queue as [|cur rest].
    + destruct HK as [HK|HK]; [exact HK | inversion HK].
    + cbn [map] in HB. rewrite list_sum_cons in HB.
      pose proof (nodeCount_pos cur). lia.
  - cbn [collectLoop]. destruct queue as [|cur rest].
    + destruct HK as [HK|HK]; [exact HK | inversion HK].
    + cbn [map] in HB. rewrite list_sum_cons in HB. rewrite Exists_cons in HK.
      destruct cur as [| | | | |items|props].
      1-5: (apply IH; [cbn [nodeCount] in HB; lia|];
            destruct HK as [HK|[HK|HK]]; [now left | contradiction | now right]).
      * apply IH.
        -- rewrite map_app, list_sum_app. cbn [nodeCount] in HB. lia.
        -- destruct HK as [HK|[HK|HK]]; [now left | |].
           ++ right. apply Exists_app. right. now apply keyOccurs_array.
           ++ right. apply Exists_app. now left.
      * apply IH.
        -- rewrite map_app, list_sum_app. rewrite nodeCount_object in HB. lia.
        -- destruct HK as [HK|[HK|HK]].
           ++ left. apply noteEntries_keys. now left.
           ++ apply keyOccurs_object in HK as [HK|HK].
              ** left. apply noteEntries_keys. now right.
              ** right. apply Exists_app. now right.
           ++ right. apply Exists_app. now left.
Qed.

End DescendantKeyFacts.

(** X29.  [collectDescendantKeySamples] lists the keys of the document,
    each once: whatever the node budget, no key is listed twice and every
    key listed is a key of some mapping inside the root; and with a
    budget that covers the document (the root has at most [maxNodes]
    nodes) no key of a mapping inside the root is missed. *)
Theorem collectDescendantKeySamples_keys {Sample : Type}
  (toSample : value -> Sample) (root : value) (maxNodes : nat) :
  NoDup (map fst (collectDescendantKeySamples toSample root maxNodes))
  /\ (forall k,
        In k (map fst (collectDescendantKeySamples toSample root maxNodes)) ->
        keyOccurs k root)
  /\ ((nodeCount root <= maxNodes)%nat ->
      forall k,
        keyOccurs k root ->
        In k (map fst (collectDescendantKeySamples toSample root maxNodes))).
Proof.
  unfold collectDescendantKeySamples. split; [|split].
  - apply collectLoop_NoDup. constructor.
  - apply collectLoop_sound with (P := fun k => keyOccurs k root).
    + intros k [].
    + intros q k [<-|[]] H. exact H.
  - intros HB k HK. apply collectLoop_complete.
    + cbn [map]. rewrite list_sum_cons. cbn [list_sum fold_right]. lia.
    + right. now constructor.
Qed.

Lemma collectDescendantKeySamples_keys_witness :
  (nodeCount plainDoc <= 1200)%nat /\
  keyOccurs "b" plainDoc /\
  In "b" (map fst (collectDescendantKeySamples (fun v => v) plainDoc 1200)).
Proof.
  assert (HB : (nodeCount plainDoc <= 1200)%nat) by (vm_compute; lia).
  assert (HK : keyOccurs "b" plainDoc) by (cbn; tauto).
  split; [exact HB|]. split; [exact HK|].
  exact (proj2 (proj2
           (collectDescendantKeySamples_keys (fun v => v) plainDoc 1200))
           HB "b" HK).
Defined.

(** ** The guard of the nested decoder *)

Lemma list_of_string_append (s t : string) :
  list_ascii_of_string (s ++ t)%string
  = list_ascii_of_string s ++ list_ascii_of_string t.
Proof. induction s as [|c s IH]; simpl; [reflexivity | now rewrite IH]. Qed.

Lemma trimStart_snoc (s : string) (c : ascii) :
  Js.isWhiteSpace c = false ->
  exists t, Js.trimStart (s ++ String c "")%string = (t ++ String c "")%string.
Proof.
  intros H. induction s as [|d s IH]; cbn [append Js.trimStart].
  - rewrite H. now exists "".
  - destruct (Js.isWhiteSpace d); [exact IH|].
    now exists (String d s).
Qed.

Lemma reverse_cons (c : ascii) (s : string) :
  Js.reverse (String c s) = (Js.reverse s ++ String c "")%string.
Proof.
  unfold Js.reverse. cbn [list_ascii_of_string rev].
  induction (rev (list_ascii_of_string s)) as [|d l IH]; simpl;
    [reflexivity | now rewrite IH].
Qed.

Lemma reverse_snoc (s : string) (c : ascii) :
  Js.reverse (s ++ String c "")%string = String c (Js.reverse s).
Proof.
  unfold Js.reverse. rewrite list_of_string_append. cbn [list_ascii_of_string].
  now rewrite rev_app_distr.
Qed.

Lemma trim_first (c : ascii) (s : string) :
  Js.isWhiteSpace c = false ->
  exists t, Js.trim (String c s) = String c t.
Proof.
  intros H. unfold Js.trim, Js.trimEnd. cbn [Js.trimStart]. rewrite H.
  rewrite reverse_cons.
  destruct (trimStart_snoc (Js.reverse s) c H) as [t ->].
  rewrite reverse_snoc. now exists (Js.reverse t).
Qed.

(** X30.  The decoder leaves plain text alone: a string whose first
    character is not white space and is none of the opening brace, the
    opening bracket and the double quote is returned as it is, whatever
    [JSON.parse] would make of it (a string of digits stays a string). *)
Theorem decodeValue_keeps_plain_text (B : Builtins) (c : ascii) (s : string) :
  Js.isWhiteSpace c = false ->
  c <> "{"%char -> c <> "["%char -> c <> Js.doubleQuote ->
  decodeValue B (VString (String c s)) = Some (VString (String c s)).
Proof.
  intros HW H1 H2 H3. unfold decodeValue. cbn [decodeValueN].
  unfold tryParseJson, looksLikeNestedJsonString.
  destruct (trim_first c s HW) as [t ->].
  now rewrite (proj2 (Ascii.eqb_neq _ _) H1), (proj2 (Ascii.eqb_neq _ _) H2),
    (proj2 (Ascii.eqb_neq _ _) H3).
Qed.

Lemma decodeValue_keeps_plain_text_witness :
  Js.isWhiteSpace "2" = false /\
  "2"%char <> "{"%char /\ "2"%char <> "["%char /\ "2"%char <> Js.doubleQuote /\
  decodeValue sampleBuiltins (VString "2222") = Some (VString "2222").
Proof.
  assert (H1 : "2"%char <> "{"%char) by discriminate.
  assert (H2 : "2"%char <> "["%char) by discriminate.
  assert (H3 : "2"%char <> Js.doubleQuote) by discriminate.
  split; [reflexivity|]. split; [exact H1|]. split; [exact H2|].
  split; [exact H3|].
  exact (decodeValue_keeps_plain_text sampleBuiltins "2" "222" eq_refl H1 H2 H3).
Defined.
